(** * circonus-unified-agent: timestamp normalisation, configuration
      literals and the extensible PostgreSQL input

    A shallow embedding of
    - [internal/internal.go]: [SetVersion], [Version],
      [Duration.UnmarshalTOML], [ParseTimestamp], [parseUnix],
      [parseComponents], [parseUnixTimeComponents], [parseTime];
    - [plugins/inputs/postgresql_extensible/postgresql_extensible.go]:
      [Postgresql.Gather] and [Postgresql.accRow].

    Conventions.  A Go [int64] (and [int], [time.Duration]) is a [Z] whose
    overflow is written with [wrap64].  A Go [float64] is a binary64
    datum of the standard library's [spec_float].  A Go [string] or
    [[]byte] is a [string] (a list of bytes).  A Go function returning
    [(v, error)] returns a pair whose second component is [option error],
    [None] being [nil].  Go maps are [gmap]s. *)

From Stdlib Require Import ZArith String Ascii List Lia Bool.
From Stdlib Require Import Floats.SpecFloat.
From stdpp Require Import gmap strings list fin_maps pretty.

Local Open Scope string_scope.
Local Open Scope list_scope.
Local Open Scope Z_scope.

(** ** Machine integers *)

Definition int64_min : Z := - 2 ^ 63.
Definition int64_max : Z := 2 ^ 63 - 1.

Definition int64 (z : Z) : Prop := int64_min <= z <= int64_max.

Definition int64b (z : Z) : bool := (int64_min <=? z) && (z <=? int64_max).

(** Two's complement wrap-around of a 64-bit signed result. *)
Definition wrap64 (z : Z) : Z := (z + 2 ^ 63) mod 2 ^ 64 - 2 ^ 63.

Definition add64 (a b : Z) : Z := wrap64 (a + b).
Definition sub64 (a b : Z) : Z := wrap64 (a - b).
Definition mul64 (a b : Z) : Z := wrap64 (a * b).

(** ** Errors *)

Inductive error : Type :=
  | NumError (fn num : string) (out_of_range : bool)
      (* strconv.NumError carrying ErrSyntax or ErrRange *)
  | Errorf (msg : string)
      (* fmt.Errorf without a wrapped error *)
  | Errorw (ctx arg : string) (cause : error)
      (* fmt.Errorf("ctx (%s): %w", arg, cause) *)
  | ErrVersionAlreadySet
  | ErrForeign (msg : string).
      (* an error value produced by a collaborator outside the package *)

(** ** binary64 values *)

Definition float64 : Type := spec_float.

Definition f64_prec : Z := 53.
Definition f64_emax : Z := 1024.

Definition f64_mul : float64 -> float64 -> float64 := SFmul f64_prec f64_emax.
Definition f64_sub : float64 -> float64 -> float64 := SFsub f64_prec f64_emax.
Definition f64_ltb : float64 -> float64 -> bool := SFltb.
Definition f64_eqb : float64 -> float64 -> bool := SFeqb.
Definition f64_of_Z (z : Z) : float64 := binary_normalize f64_prec f64_emax z 0 false.

Definition f64_finite (f : float64) : bool :=
  match f with
  | S754_zero _ | S754_finite _ _ _ => true
  | _ => false
  end.

Definition f64_sign (f : float64) : bool :=
  match f with
  | S754_zero s | S754_infinity s | S754_finite s _ _ => s
  | S754_nan => false
  end.

(** [math.Copysign(x, y)]. *)
Definition f64_copysign (x y : float64) : float64 :=
  match x with
  | S754_zero _ => S754_zero (f64_sign y)
  | S754_infinity _ => S754_infinity (f64_sign y)
  | S754_finite _ m e => S754_finite (f64_sign y) m e
  | S754_nan => S754_nan
  end.

(** [math.Trunc]: the bits of the mantissa below the binary point are
    cleared; a datum below one in magnitude becomes a signed zero. *)
Definition f64_trunc (f : float64) : float64 :=
  match f with
  | S754_finite s m (Zneg p) =>
      match Z.shiftr (Zpos m) (Zpos p) with
      | Zpos q => S754_finite s (Pos.shiftl q (Npos p)) (Zneg p)
      | _ => S754_zero s
      end
  | _ => f
  end.

(** [math.Modf]: the integer part and the fractional part of [f], both
    with the sign of [f]; they sum to [f].  [Modf(±Inf) = (±Inf, NaN)]. *)
Definition Modf (f : float64) : float64 * float64 :=
  let i := f64_trunc f in (i, f64_copysign (f64_sub f i) f).

(** The integer obtained from a finite datum by discarding its fraction
    (rounding toward zero); [None] for infinities and NaN. *)
Definition f64_truncZ (f : float64) : option Z :=
  match f with
  | S754_zero _ => Some 0
  | S754_finite s m e =>
      let a := match e with
               | Zneg p => Z.shiftr (Zpos m) (Zpos p)
               | _ => Z.shiftl (Zpos m) e
               end in
      Some (if s then - a else a)
  | _ => None
  end.

(** The constant [1e9] as a binary64 datum: 1953125 * 2^9. *)
Definition f64_1e9 : float64 := f64_of_Z 1000000000.

(** ** Library functions the package calls *)

Module strconv.

Definition digit (c : ascii) : option Z :=
  let n := Z.of_N (N_of_ascii c) in
  if (48 <=? n) && (n <=? 57) then Some (n - 48) else None.

Definition maxUint64 : Z := 2 ^ 64 - 1.

Inductive uint_error := SyntaxErr | RangeErr.

(** The digit loop of [strconv.ParseUint] for base 10 and 64 bits: it
    stops with a syntax error at the first byte that is not a decimal
    digit and with a range error as soon as the accumulator leaves
    [uint64]. *)
Fixpoint ParseUint_loop (s : string) (n : Z) : uint_error + Z :=
  match s with
  | EmptyString => inr n
  | String c s' =>
      match digit c with
      | None => inl SyntaxErr
      | Some d =>
          if maxUint64 / 10 + 1 <=? n then inl RangeErr
          else
            let n1 := n * 10 + d in
            if maxUint64 <? n1 then inl RangeErr else ParseUint_loop s' n1
      end
  end.

Definition ParseUint (s : string) : uint_error + Z :=
  match s with
  | EmptyString => inl SyntaxErr
  | _ => ParseUint_loop s 0
  end.

(** [strconv.ParseInt(s, 10, 64)]. *)
Definition ParseInt (s0 : string) : Z * option error :=
  match s0 with
  | EmptyString => (0, Some (NumError "ParseInt" s0 false))
  | String c rest =>
      let neg := Ascii.eqb c "-" in
      let s := if Ascii.eqb c "+" || neg then rest else s0 in
      match ParseUint s with
      | inl SyntaxErr => (0, Some (NumError "ParseInt" s0 false))
      | inl RangeErr =>
          (if neg then int64_min else int64_max,
           Some (NumError "ParseInt" s0 true))
      | inr un =>
          if negb neg && (2 ^ 63 <=? un) then
            (int64_max, Some (NumError "ParseInt" s0 true))
          else if neg && (2 ^ 63 <? un) then
            (int64_min, Some (NumError "ParseInt" s0 true))
          else (if neg then - un else un, None)
      end
  end.

End strconv.

Module strings.

(** Where [sep] first occurs in [s]: the text before it and after it. *)
Fixpoint cut (sep : ascii) (s : string) : option (string * string) :=
  match s with
  | EmptyString => None
  | String c s' =>
      if Ascii.eqb c sep then Some (EmptyString, s')
      else match cut sep s' with
           | Some (a, b) => Some (String c a, b)
           | None => None
           end
  end.

(** [strings.SplitN(s, sep, 2)] for a one-byte separator. *)
Definition SplitN2 (s : string) (sep : ascii) : list string :=
  match cut sep s with
  | Some (a, b) => [a; b]
  | None => [s]
  end.

Definition lower_byte (c : ascii) : ascii :=
  let n := N_of_ascii c in
  if ((65 <=? n) && (n <=? 90))%N then ascii_of_N (n + 32) else c.

(** [strings.ToLower] on ASCII text, the only text [parseUnix] is
    called with. *)
Fixpoint ToLower (s : string) : string :=
  match s with
  | EmptyString => EmptyString
  | String c s' => String (lower_byte c) (ToLower s')
  end.

(** [strings.Join]. *)
Fixpoint Join (elems : list string) (sep : string) : string :=
  match elems with
  | [] => ""
  | [e] => e
  | e :: rest => e +:+ sep +:+ Join rest sep
  end.

(** [strings.Split(s, sep)] for a one-byte separator and non-empty [s]
    (of an empty [s] it is [[""]], which this also gives). *)
Fixpoint Split_go (s : string) (sep : ascii) (cur : string) : list string :=
  match s with
  | EmptyString => [cur]
  | String c s' =>
      if Ascii.eqb c sep then cur :: Split_go s' sep ""
      else Split_go s' sep (cur +:+ String c "")
  end.

Definition Split (s : string) (sep : ascii) : list string := Split_go s sep "".

End strings.

(** The built-in [copy(dst, src)] on byte slices: the first
    [min(len dst, len src)] bytes of [dst] are overwritten. *)
Fixpoint copy (dst src : string) : string :=
  match dst, src with
  | String _ d', String c s' => String c (copy d' s')
  | _, _ => dst
  end.

(** ** Instants *)

Inductive Location : Type :=
  | UTC
  | Local
  | Zone (name : string).

(** A [time.Time] without a monotonic clock reading: seconds and
    nanoseconds since the Unix epoch, and the location the instant is
    presented in. *)
Record Time : Type := mkTime {
  unix_sec : Z;
  unix_nsec : Z;
  location : Location
}.

(** [time.Unix(sec, nsec)]. *)
Definition time_Unix (sec nsec : Z) : Time :=
  if (nsec <? 0) || (1000000000 <=? nsec) then
    let n := Z.quot nsec 1000000000 in
    let sec := add64 sec n in
    let nsec := sub64 nsec (mul64 n 1000000000) in
    if nsec <? 0 then mkTime (sub64 sec 1) (add64 nsec 1000000000) Local
    else mkTime sec nsec Local
  else mkTime sec nsec Local.

(** [t.UTC()]. *)
Definition Time_UTC (t : Time) : Time :=
  mkTime (unix_sec t) (unix_nsec t) UTC.

(** The instant as a count of nanoseconds from the epoch. *)
Definition instant_ns (t : Time) : Z := unix_sec t * 1000000000 + unix_nsec t.

(** ** Package [internal] *)

Module bytes.

Fixpoint TrimLeft1 (s : string) (c : ascii) : string :=
  match s with
  | String a s' => if Ascii.eqb a c then TrimLeft1 s' c else s
  | EmptyString => s
  end.

(** [TrimRight1 s c] is [None] when [s] consists of [c] only. *)
Fixpoint TrimRight1 (s : string) (c : ascii) : option string :=
  match s with
  | EmptyString => None
  | String a s' =>
      match TrimRight1 s' c with
      | Some t => Some (String a t)
      | None => if Ascii.eqb a c then None else Some (String a "")
      end
  end.

(** [bytes.Trim(b, cutset)] for a cutset of one byte. *)
Definition Trim1 (s : string) (c : ascii) : string :=
  match TrimRight1 (TrimLeft1 s c) c with
  | Some t => t
  | None => ""
  end.

End bytes.

(** A [time.Time] as [time.Now] returns it and [AlignTime] receives it:
    the wall time and, when the value carries one, the reading of the
    monotonic clock.  [Time] is a value without a reading, as [time.Unix]
    and the parsers build it and as [Truncate] returns it. *)
Record MonoTime : Type := mkMonoTime {
  wall_time : Time;
  monotonic : option Z
}.

(** [==] on the location a [time.Time] points to. *)
Definition Location_eqb (a b : Location) : bool :=
  match a, b with
  | UTC, UTC | Local, Local => true
  | Zone x, Zone y => String.eqb x y
  | _, _ => false
  end.

(** [==] on two [time.Time]: Go compares the fields [wall], [ext] and
    [loc].  A value that carries a monotonic reading has the flag
    [hasMonotonic] set in [wall], so that it is never equal to a value
    without one; otherwise the seconds, the nanoseconds, the location and
    the readings are compared. *)
Definition MonoTime_eqb (a b : MonoTime) : bool :=
  (unix_sec (wall_time a) =? unix_sec (wall_time b))
  && (unix_nsec (wall_time a) =? unix_nsec (wall_time b))
  && Location_eqb (location (wall_time a)) (location (wall_time b))
  && match monotonic a, monotonic b with
     | Some x, Some y => x =? y
     | None, None => true
     | _, _ => false
     end.

(** An opened file ([*os.File]): the bytes reading it yields, and the
    error, if any, that ends the reading before the end of the file. *)
Record file : Type := mkFile {
  file_data : string;
  file_err : option error
}.

(** The dynamic type of the [timestamp interface{}] argument. *)
Inductive timestamp : Type :=
  | TsString (ts : string)
  | TsInt64 (ts : Z)
  | TsFloat64 (ts : float64)
  | TsOther.

Definition wf_timestamp (t : timestamp) : Prop :=
  match t with
  | TsInt64 z => int64 z
  | _ => True
  end.

Module internal.

Section Package.

(** What the conversion [int64(f)] yields when the truncated [f] is not
    an [int64] (NaN, infinities, magnitudes from 2^63): the language
    leaves it to the implementation. *)
Variable int64_unrepresentable : float64 -> Z.

(** [time.ParseDuration], [strconv.Unquote], [strconv.ParseFloat],
    [time.LoadLocation] and [time.ParseInLocation] of the Go library. *)
Variable ParseDuration : string -> Z * option error.
Variable Unquote : string -> string * option error.
Variable ParseFloat : string -> float64 * option error.
Variable LoadLocation : string -> Location * option error.
Variable ParseInLocation : string -> string -> Location -> Time * option error.

(** The conversion [int64(f)] of a [float64]. *)
Definition int64_of_float64 (f : float64) : Z :=
  match f64_truncZ f with
  | Some z => if int64b z then z else int64_unrepresentable f
  | None => int64_unrepresentable f
  end.

(** *** The process-wide version *)

(** [var version string]: the state is the value of that variable,
    initially the empty string. *)
Definition version_init : string := "".

Definition SetVersion (v : string) (version : string) : string * option error :=
  if negb (String.eqb version "") then (version, Some ErrVersionAlreadySet)
  else (v, None).

Definition Version (version : string) : string := version.

(** *** Duration literals *)

Definition Second : Z := 1000000000.

(** [func (d *Duration) UnmarshalTOML(b []byte) error]: the result is the
    final value of [d.Duration] and the returned error. *)
Definition Duration_UnmarshalTOML (d : Z) (b : string) : Z * option error :=
  let b := bytes.Trim1 b "'" in
  (* the statements after the quoted-string block, entered with
     [d.Duration = d] *)
  let seconds (d : Z) : Z * option error :=
    let '(sI, err) := strconv.ParseInt b in
    match err with
    | None => (mul64 Second sI, None)
    | Some _ =>
        let '(sF, err) := ParseFloat b in
        match err with
        | None => (mul64 Second (int64_of_float64 sF), None)
        | Some _ => (d, None)
        end
    end in
  let '(d, err) := ParseDuration b in
  match err with
  | None => (d, None)
  | Some _ =>
      let '(uq, err) := Unquote b in
      match err with
      | None =>
          if 0 <? Z.of_nat (String.length uq) then
            let '(d, err) := ParseDuration uq in
            match err with
            | None => (d, None)
            | Some _ => seconds d
            end
          else seconds d
      | Some _ => seconds d
      end
  end.

(** *** Timestamps *)

Definition parseUnixTimeComponents (first second : string) : Z * Z * option error :=
  let '(integer, err) := strconv.ParseInt first in
  match err with
  | Some e => (0, 0, Some (Errorw "parseint" first e))
  | None =>
      let buf := copy "000000000" second in
      let '(fractional, err) := strconv.ParseInt buf in
      match err with
      | Some e => (0, 0, Some (Errorw "parseint" buf e))
      | None => (integer, fractional, None)
      end
  end.

Definition parseComponents (timestamp : timestamp) : Z * Z * option error :=
  match timestamp with
  | TsString ts =>
      match strings.SplitN2 ts "." with
      | [p0; p1] => parseUnixTimeComponents p0 p1
      | _ =>
          match strings.SplitN2 ts "," with
          | [p0; p1] => parseUnixTimeComponents p0 p1
          | _ =>
              let '(integer, err) := strconv.ParseInt ts in
              match err with
              | Some e => (0, 0, Some (Errorw "parseint" ts e))
              | None => (integer, 0, None)
              end
          end
      end
  | TsInt64 ts => (ts, 0, None)
  | TsFloat64 ts =>
      let '(integer, fractional) := Modf ts in
      (int64_of_float64 integer,
       int64_of_float64 (f64_mul fractional f64_1e9), None)
  | TsOther => (0, 0, Some (Errorf "unsupported type"))
  end.

Definition parseUnix (format : string) (timestamp : timestamp) : Time * option error :=
  let '(integer, fractional, err) := parseComponents timestamp in
  match err with
  | Some e => (time_Unix 0 0, Some e)
  | None =>
      let f := strings.ToLower format in
      if String.eqb f "unix" then (Time_UTC (time_Unix integer fractional), None)
      else if String.eqb f "unix_ms" then (Time_UTC (time_Unix 0 (mul64 integer 1000000)), None)
      else if String.eqb f "unix_us" then (Time_UTC (time_Unix 0 (mul64 integer 1000)), None)
      else if String.eqb f "unix_ns" then (Time_UTC (time_Unix 0 integer), None)
      else (time_Unix 0 0, Some (Errorf "unsupported type"))
  end.

Definition parseTime (format : string) (timestamp : timestamp) (location : string)
  : Time * option error :=
  match timestamp with
  | TsString ts =>
      let '(loc, err) := LoadLocation location in
      match err with
      | Some e => (time_Unix 0 0, Some (Errorw "loadlocation" location e))
      | None => ParseInLocation format ts loc
      end
  | _ => (time_Unix 0 0, Some (Errorf "unsupported type"))
  end.

Definition ParseTimestamp (format : string) (timestamp : timestamp) (location : string)
  : Time * option error :=
  if String.eqb format "unix" || String.eqb format "unix_ms"
     || String.eqb format "unix_us" || String.eqb format "unix_ns"
  then parseUnix format timestamp
  else
    let location := if String.eqb location "" then "UTC" else location in
    parseTime format timestamp location.

(** *** Size and number literals *)

(** [units.ParseStrictBytes] of [github.com/alecthomas/units]. *)
Variable ParseStrictBytes : string -> Z * option error.

(** [func (s *Size) UnmarshalTOML(b []byte) error]: the final value of
    [s.Size] and the returned error. *)
Definition Size_UnmarshalTOML (s : Z) (b : string) : Z * option error :=
  let b := bytes.Trim1 b "'" in
  let '(val, err) := strconv.ParseInt b in
  match err with
  | None => (val, None)
  | Some _ =>
      let '(uq, err) := Unquote b in
      match err with
      | Some e => (s, Some (Errorw "unquote" b e))
      | None =>
          let '(val, err) := ParseStrictBytes uq in
          match err with
          | Some e => (s, Some (Errorw "parsestrictbytes" uq e))
          | None => (val, None)
          end
      end
  end.

(** [func (n *Number) UnmarshalTOML(b []byte) error]. *)
Definition Number_UnmarshalTOML (n : float64) (b : string) : float64 * option error :=
  let '(value, err) := ParseFloat b in
  match err with
  | Some e => (n, Some (Errorw "parsefloat" b e))
  | None => (value, None)
  end.

(** *** Reading lines *)

(** [os.Open]. *)
Variable os_Open : string -> file * option error.

(** The successive results of [r.ReadString('\n')] on a reader of [data]
    before it fails: the pieces of [data] that end in a newline, newline
    included.  What follows the last newline comes with an error. *)
Fixpoint ReadString_results (data cur : string) : list string :=
  match data with
  | EmptyString => []
  | String c data' =>
      if Ascii.eqb c "010" then (cur +:+ String c "") :: ReadString_results data' ""
      else ReadString_results data' (cur +:+ String c "")
  end.

(** The conversion [int(offset)] of a [uint]. *)
Definition int_of_uint (u : Z) : Z := wrap64 u.

(** [for i := 0; i < n+int(offset) || n < 0; i++ { ... }] over the
    results still to come. *)
Fixpoint ReadLines_loop (results : list string) (i : Z) (offset n : Z)
  (ret : list string) : list string :=
  if (i <? add64 n (int_of_uint offset)) || (n <? 0) then
    match results with
    | [] => ret
    | line :: rest =>
        if i <? int_of_uint offset then ReadLines_loop rest (add64 i 1) offset n ret
        else ReadLines_loop rest (add64 i 1) offset n (ret ++ [bytes.Trim1 line "010"])
    end
  else ret.

Definition ReadLinesOffsetN (filename : string) (offset : Z) (n : Z)
  : list string * option error :=
  let '(f, err) := os_Open filename in
  match err with
  | Some e => ([""], Some (Errorw "open" filename e))
  | None => (ReadLines_loop (ReadString_results (file_data f) "") 0 offset n [], None)
  end.

Definition ReadLines (filename : string) : list string * option error :=
  ReadLinesOffsetN filename 0 (-1).

(** *** Random strings *)

Definition alphanum : string :=
  "0123456789ABCDEFGHIJKLMNOPQRSTUVWXYZabcdefghijklmnopqrstuvwxyz".

(** The bytes [rand.Read] stores in a buffer of the given length. *)
Variable rand_Read : nat -> string.

(** [bytes[i] = alphanum[b%byte(len(alphanum))]] for every byte; [None]
    stands for the panic of an index out of range. *)
Fixpoint RandomString_loop (bytes : string) : option string :=
  match bytes with
  | EmptyString => Some EmptyString
  | String b rest =>
      match String.get (N.to_nat (N_of_ascii b mod N.of_nat (String.length alphanum))) alphanum,
            RandomString_loop rest with
      | Some c, Some r => Some (String c r)
      | _, _ => None
      end
  end.

Definition RandomString (n : nat) : option string :=
  RandomString_loop (rand_Read n).

(** *** Snake case *)

(** [unicode.IsUpper], [unicode.IsLower] and [unicode.ToLower] on runes. *)
Variable unicode_IsUpper : Z -> bool.
Variable unicode_IsLower : Z -> bool.
Variable unicode_ToLower : Z -> Z.

(** The rune ['_']. *)
Definition underscore : Z := 95.

(** The body of the loop of [SnakeCase] at index [i]. *)
Definition SnakeCase_step (runes : list Z) (out : list Z) (i : nat) : list Z :=
  let at_index (k : nat) : Z := default 0 (runes !! k) in
  let out :=
    if (0 <? i)%nat && unicode_IsUpper (at_index i)
       && ((((i + 1 <? length runes)%nat) && unicode_IsLower (at_index (i + 1)%nat))
           || unicode_IsLower (at_index (i - 1)%nat))
    then out ++ [underscore]
    else out in
  out ++ [unicode_ToLower (at_index i)].

(** [func SnakeCase(in string) string] between [[]rune(in)] and
    [string(out)]. *)
Definition SnakeCase (runes : list Z) : list Z :=
  foldl (SnakeCase_step runes) [] (seq 0 (length runes)).

(** *** Aligned times *)

(** [Time.Truncate], [Time.Add] and [Time.Sub]. *)
Variable Time_Truncate : MonoTime -> Z -> MonoTime.
Variable Time_Add : MonoTime -> Z -> MonoTime.
Variable Time_Sub : MonoTime -> MonoTime -> Z.

Definition AlignTime (tm : MonoTime) (interval : Z) : MonoTime :=
  let truncated := Time_Truncate tm interval in
  if MonoTime_eqb truncated tm then tm
  else Time_Add truncated interval.

Definition AlignDuration (tm : MonoTime) (interval : Z) : Z :=
  Time_Sub (AlignTime tm interval) tm.

End Package.

End internal.

(** ** Package [postgresqlextensible] *)

Module postgresqlextensible.

(** The dynamic value a driver stores through a [*interface{}]. *)
Inductive RawValue : Type :=
  | VNil
  | VBool (v : bool)
  | VInt64 (v : Z)
  | VInt32 (v : Z)
  | VInt (v : Z)
  | VFloat64 (v : float64)
  | VString (v : string)
  | VBytes (v : string)
  | VTime (v : Time).

(** One element of [type query []struct{...}]. *)
Record querydef : Type := mkQuery {
  Sqlquery : string;
  Script : string;
  Version : Z;
  Withdbname : bool;
  Tagvalue : string;
  Measurement : string
}.

(** One row of a result set, as [Scan] sees it: the driver's values, or
    the error the scan meets. *)
Record row : Type := mkRow {
  row_values : list RawValue;
  row_err : option error
}.

(** A result set ([*sql.Rows]): what [Columns()] returns and the rows
    [Next()] steps through. *)
Record Rows : Type := mkRows {
  Rows_Columns : list string * option error;
  Rows_rows : list row
}.

(** What [acc.AddFields(measName, fields, tags)] records. *)
Record metric : Type := mkMetric {
  m_name : string;
  m_fields : gmap string RawValue;
  m_tags : gmap string string
}.

Inductive log_entry : Type :=
  | LogError (e : error)                     (* p.Log.Error(err.Error()) *)
  | LogColumn (col : string) (val : RawValue) (* p.Log.Debugf("Column: ...") *)
  | LogTagFailed (col : string).     (* p.Log.Debugf("Failed to add ...") *)

(** The plugin with its collaborators: the configured fields, the
    database handle [p.DB] (the version query and [Query]) and
    [p.SanitizedAddress()] of the embedded [postgresql.Service]. *)
Record Postgresql : Type := mkPostgresql {
  Databases : list string;
  Query : list querydef;
  DB_version : Z * option error;
  DB_Query : string -> Rows * option error;
  SanitizedAddress : string * option error
}.

(** What a collection cycle mutates: [p.AdditionalTags], the logger and
    the accumulator. *)
Record state : Type := mkState {
  AdditionalTags : list string;
  Log : list log_entry;
  Acc : list metric
}.

Definition log_add (e : log_entry) (st : state) : state :=
  mkState (AdditionalTags st) (Log st ++ [e]) (Acc st).

Definition acc_add (m : metric) (st : state) : state :=
  mkState (AdditionalTags st) (Log st) (Acc st ++ [m]).

Definition set_tags (t : list string) (st : state) : state :=
  mkState t (Log st) (Acc st).

Definition ignoredColumns : gmap string bool := {[ "stats_reset" := true ]}.

Definition is_nil (v : RawValue) : bool :=
  match v with VNil => true | _ => false end.

(** [fmt.Sprintf("%d", v)]. *)
Definition Sprintf_d (v : Z) : string := pretty v.

Section Files.

(** [os.Open]. *)
Variable os_Open : string -> file * option error.

(** [io.ReadAll]. *)
Definition ReadAll (f : file) : string * option error := (file_data f, file_err f).

Definition ReadQueryFromFile (filePath : string) : string * option error :=
  let '(f, err) := os_Open filePath in
  match err with
  | Some e => ("", Some (Errorw "open" filePath e))
  | None =>
      let '(query, err) := ReadAll f in
      match err with
      | Some e => ("", Some (Errorw "readall" filePath e))
      | None => (query, None)
      end
  end.

Definition set_Sqlquery (text : string) (q : querydef) : querydef :=
  mkQuery text (Script q) (Version q) (Withdbname q) (Tagvalue q) (Measurement q).

(** [for i := range p.Query] of [Init], over the descriptors from [i]
    on: the descriptors as the loop leaves them, and the error returned. *)
Fixpoint Init_loop (qs : list querydef) : list querydef * option error :=
  match qs with
  | [] => ([], None)
  | q :: rest =>
      if String.eqb (Sqlquery q) "" then
        let '(text, err) := ReadQueryFromFile (Script q) in
        match err with
        | Some e => (set_Sqlquery text q :: rest, Some e)
        | None =>
            let '(rest', err) := Init_loop rest in
            (set_Sqlquery text q :: rest', err)
        end
      else
        let '(rest', err) := Init_loop rest in
        (q :: rest', err)
  end.

(** [func (p *Postgresql) Init() error]. *)
Definition Init (p : Postgresql) : Postgresql * option error :=
  let '(qs, err) := Init_loop (Query p) in
  (mkPostgresql (Databases p) qs (DB_version p) (DB_Query p) (SanitizedAddress p), err).

End Files.

Section Classification.

(** The order in which [range] visits a map is not specified: any
    enumeration of the entries. *)
Variable range_order : gmap string RawValue -> list (string * RawValue).

(** [columnMap[column] = new(interface{})] for every column: one fresh
    cell per distinct name, holding nil. *)
Definition new_cells (columns : list string) : gmap string RawValue :=
  foldl (fun m column => <[column := VNil]> m) ∅ columns.

(** [row.Scan(columnVars...)] of [database/sql]: the number of
    destinations must be the number of values of the row, or the error is
    ["sql: expected %d destination arguments in Scan, not %d"] with the
    two numbers; the values are then stored in order through the
    destinations, here the cells named by [dest]. *)
Definition Scan (r : row) (cells : gmap string RawValue) (dest : list string)
  : gmap string RawValue * option error :=
  match row_err r with
  | Some e => (cells, Some e)
  | None =>
      if decide (length dest = length (row_values r)) then
        (foldl (fun m cv => <[cv.1 := cv.2]> m) cells (zip dest (row_values r)), None)
      else
        (cells,
         Some (Errorf ("sql: expected " +:+ Sprintf_d (Z.of_nat (length (row_values r)))
                       +:+ " destination arguments in Scan, not "
                       +:+ Sprintf_d (Z.of_nat (length dest)))))
  end.

(** The type switch of the tag branch. *)
Definition tag_switch (col : string) (val : RawValue)
  (tags : gmap string string) (log : list log_entry)
  : gmap string string * list log_entry :=
  match val with
  | VString v => (<[col := v]> tags, log)
  | VBytes v => (<[col := v]> tags, log)
  | VInt64 v | VInt32 v | VInt v => (<[col := Sprintf_d v]> tags, log)
  | _ => (tags, log ++ [LogTagFailed col])
  end.

(** The loop [for _, tag := range p.AdditionalTags] inside [COLUMN]:
    [None] when no tag equals [col] and control reaches the fields. *)
Fixpoint tag_loop (additional : list string) (col : string) (val : RawValue)
  (tags : gmap string string) (log : list log_entry)
  : option (gmap string string * list log_entry) :=
  match additional with
  | [] => None
  | tag :: rest =>
      if negb (String.eqb col tag) then tag_loop rest col val tags log
      else Some (tag_switch col val tags log)
  end.

(** One iteration of [COLUMN: for col, val := range columnMap]. *)
Definition column_step (additional : list string)
  (acc : gmap string string * gmap string RawValue * list log_entry)
  (cv : string * RawValue)
  : gmap string string * gmap string RawValue * list log_entry :=
  let '(tags, fields, log) := acc in
  let '(col, val) := cv in
  let log := log ++ [LogColumn col val] in
  let ignore := bool_decide (is_Some (ignoredColumns !! col)) in
  if ignore || is_nil val then (tags, fields, log)
  else
    match tag_loop additional col val tags log with
    | Some (tags, log) => (tags, fields, log)
    | None =>
        match val with
        | VBytes v => (tags, <[col := VString v]> fields, log)
        | _ => (tags, <[col := val]> fields, log)
        end
    end.

(** The database name of the row. *)
Definition dbname_of (columnMap : gmap string RawValue) : string :=
  match columnMap !! "datname" with
  | Some c =>
      if negb (is_nil c) then
        match c with
        | VString datname => datname
        | _ => "postgres"
        end
      else "postgres"
  | None => "postgres"
  end.

(** [func (p *Postgresql) accRow(measName, row, acc, columns) error]. *)
Definition accRow (p : Postgresql) (measName : string) (r : row)
  (columns : list string) (st : state) : state * option error :=
  let columnMap := new_cells columns in
  let columnVars := take (size columnMap) columns in
  let '(columnMap, err) := Scan r columnMap columnVars in
  match err with
  | Some e => (st, Some (Errorw "row scan" "" e))
  | None =>
      let dbname := dbname_of columnMap in
      let '(tagAddress, err) := SanitizedAddress p in
      match err with
      | Some e => (st, Some (Errorw "sanitize addr" "" e))
      | None =>
          let tags : gmap string string :=
            <[ "db" := dbname ]> (<[ "server" := tagAddress ]> ∅) in
          let '(tags, fields, log) :=
            foldl (column_step (AdditionalTags st)) (tags, ∅, Log st)
                  (range_order columnMap) in
          (mkState (AdditionalTags st) log
                   (Acc st ++ [mkMetric measName fields tags]), None)
      end
  end.

(** [for rows.Next() { err = p.accRow(...); if err != nil { log; break } }] *)
Fixpoint rows_loop (p : Postgresql) (measName : string) (columns : list string)
  (rs : list row) (st : state) : state :=
  match rs with
  | [] => st
  | r :: rest =>
      let '(st', err) := accRow p measName r columns st in
      match err with
      | Some e => log_add (LogError e) st'
      | None => rows_loop p measName columns rest st'
      end
  end.

(** The text sent for one descriptor: [sqlQuery += queryAddon]. *)
Definition resolved_query (p : Postgresql) (q : querydef) : string :=
  let queryAddon :=
    if Withdbname q then
      if negb (Nat.eqb (length (Databases p)) 0) then
        " IN ('" +:+ strings.Join (Databases p) "','" +:+ "')"
      else " is not null"
    else "" in
  Sqlquery q +:+ queryAddon.

(** The body of [for i := range p.Query]. *)
Definition query_step (p : Postgresql) (dbVersion : Z) (st : state) (q : querydef)
  : state :=
  let sqlQuery := resolved_query p q in
  let tagValue := Tagvalue q in
  let measName :=
    if negb (String.eqb (Measurement q) "") then Measurement q else "postgresql" in
  if Version q <=? dbVersion then
    let '(rows, err) := DB_Query p sqlQuery in
    match err with
    | Some e => log_add (LogError e) st
    | None =>
        let '(columns, err) := Rows_Columns rows in
        match err with
        | Some e => log_add (LogError e) st
        | None =>
            let st := set_tags [] st in
            let st :=
              if negb (String.eqb tagValue "") then
                foldl (fun s t => set_tags (AdditionalTags s ++ [t]) s) st
                      (strings.Split tagValue ",")
              else st in
            rows_loop p measName columns (Rows_rows rows) st
        end
    end
  else st.

Definition gather_loop (p : Postgresql) (dbVersion : Z) (qs : list querydef)
  (st : state) : state :=
  foldl (query_step p dbVersion) st qs.

(** [func (p *Postgresql) Gather(ctx, acc) error]. *)
Definition Gather (p : Postgresql) (st : state) : state * option error :=
  let dbVersion :=
    match DB_version p with
    | (v, None) => v
    | (_, Some _) => 0
    end in
  (gather_loop p dbVersion (Query p) st, None).

End Classification.

End postgresqlextensible.

(** ** Package [rethinkdb] *)

Module rethinkdb.

(** The fields of [serverStatus] the server reads. *)
Record serverStatus : Type := mkServerStatus {
  ID : string;
  Network_Hostname : string;
  Network_Addresses : list string;   (* the [Host] of each address *)
  Network_DriverPort : Z;
  Process_Version : string
}.

(** *** The regular expression [\d.\d.\d] *)

Section Regexp.

(** [utf8.DecodeRuneInString]: the number of bytes of the first rune of a
    non-empty string. *)
Variable utf8_width : string -> nat.

Definition is_digit (c : ascii) : bool :=
  match strconv.digit c with Some _ => true | None => false end.

Fixpoint drop_bytes (n : nat) (s : string) : string :=
  match n, s with
  | S n', String _ s' => drop_bytes n' s'
  | _, _ => s
  end.

(** What follows one match of [\d] at the start of [s]. *)
Definition after_digit (s : string) : option string :=
  match s with
  | String c rest => if is_digit c then Some rest else None
  | EmptyString => None
  end.

(** What follows one match of [.], any character but a newline. *)
Definition after_any (s : string) : option string :=
  match s with
  | String c _ => if Ascii.eqb c "010" then None else Some (drop_bytes (utf8_width s) s)
  | EmptyString => None
  end.

(** The text a match of the whole expression at the start of [s] covers. *)
Definition match_here (s : string) : option string :=
  match after_digit s with
  | None => None
  | Some s1 =>
      match after_any s1 with
      | None => None
      | Some s2 =>
          match after_digit s2 with
          | None => None
          | Some s3 =>
              match after_any s3 with
              | None => None
              | Some s4 =>
                  match after_digit s4 with
                  | None => None
                  | Some s5 => Some (substring 0 (String.length s - String.length s5) s)
                  end
              end
          end
      end
  end.

(** [versionRegexp.FindString]: the leftmost match, [""] without one. *)
Fixpoint FindString (s : string) : string :=
  match match_here s with
  | Some m => m
  | None =>
      match s with
      | String _ rest => FindString rest
      | EmptyString => ""
      end
  end.

(** [strings.Split(s, "")[0]] for a non-empty [s]: its first character. *)
Definition first_character (s : string) : string := substring 0 (utf8_width s) s.

(** [strconv.Atoi]. *)
Definition Atoi (s : string) : Z * option error := strconv.ParseInt s.

(** [func (s *Server) validateVersion() error], of
    [s.serverStatus.Process.Version]. *)
Definition validateVersion (version : string) : option error :=
  if String.eqb version "" then
    Some (Errorf "could not determine the RethinkDB server version: process.version key missing")
  else
    let versionString := FindString version in
    if String.eqb versionString "" then
      Some (Errorf ("could not determine the RethinkDB server version: malformed version string ("
                    +:+ version +:+ ")"))
    else
      let '(majorVersion, err) := Atoi (first_character versionString) in
      if (match err with Some _ => true | None => false end) || (majorVersion <? 2) then
        Some (Errorf ("unsupported major version " +:+ versionString))
      else None.

End Regexp.

(** *** Finding the status of the server *)

(** The two loops at the end of [getServerStatus]: the first status, in
    order, one of whose addresses has the host and whose driver port is
    the port. *)
Fixpoint match_address (addresses : list string) (host : string)
  (ssDriverPort driverPort : Z) : bool :=
  match addresses with
  | [] => false
  | address :: rest =>
      if String.eqb address host && (ssDriverPort =? driverPort) then true
      else match_address rest host ssDriverPort driverPort
  end.

Fixpoint select_status (serverStatuses : list serverStatus) (host : string)
  (driverPort : Z) : option serverStatus :=
  match serverStatuses with
  | [] => None
  | ss :: rest =>
      if match_address (Network_Addresses ss) host (Network_DriverPort ss) driverPort
      then Some ss
      else select_status rest host driverPort
  end.

(** What the session answers to the [server_status] query: the error of
    [Run], whether the cursor is nil, and what [cursor.All] decodes. *)
Record status_reply : Type := mkReply {
  Run_err : option error;
  cursor_IsNil : bool;
  cursor_All : list serverStatus * option error
}.

(** [func (s *Server) getServerStatus() error]: the new value of
    [s.serverStatus] and the error.  [urlHost] is [s.URL.Host] and
    [SplitHostPort] is [net.SplitHostPort]. *)
Definition getServerStatus (SplitHostPort : string -> string * string * option error)
  (reply : status_reply) (urlHost : string) (current : serverStatus)
  : serverStatus * option error :=
  match Run_err reply with
  | Some e => (current, Some (Errorw "server status" "" e))
  | None =>
      if cursor_IsNil reply then
        (current, Some (Errorf "could not determine the RethinkDB server version: no rows returned from the server_status table"))
      else
        let '(serverStatuses, err) := cursor_All reply in
        match err with
        | Some _ => (current, Some (Errorf "could not parse server_status results"))
        | None =>
            let '(host, port, err) := SplitHostPort urlHost in
            match err with
            | Some _ =>
                (current, Some (Errorf ("unable to determine provided hostname from " +:+ urlHost)))
            | None =>
                let '(driverPort, _) := strconv.ParseInt port in
                match select_status serverStatuses host driverPort with
                | Some ss => (ss, None)
                | None =>
                    (current,
                     Some (Errorf ("unable to determine host id from server_status with "
                                   +:+ urlHost)))
                end
            end
        end
  end.

(** [func (s *Server) getDefaultTags() map[string]string]. *)
Definition getDefaultTags (urlHost : string) (status : serverStatus)
  : gmap string string :=
  <[ "rethinkdb_hostname" := Network_Hostname status ]>
    (<[ "rethinkdb_host" := urlHost ]> ∅).

End rethinkdb.

(** ** Package [minecraft] *)

Module minecraft.

Section Plugin.

(** The type of [Score.Value]. *)
Variable V : Type.

Record Score : Type := mkScore {
  Name : string;
  Value : V
}.

(** The [Client] interface after [Connect]: what [Players()] and
    [Scores(player)] return. *)
Record Client : Type := mkClient {
  Players : list string * option error;
  Scores : string -> list Score * option error
}.

(** The configured fields of [Minecraft]. *)
Record Minecraft : Type := mkMinecraft {
  Server : string;
  Port : string;
  Password : string
}.

Record metric : Type := mkMetric {
  m_name : string;
  m_fields : gmap string V;
  m_tags : gmap string string
}.

Definition player_tags (s : Minecraft) (player : string) : gmap string string :=
  <[ "port" := Port s ]>
    (<[ "source" := Server s ]>
       (<[ "server" := Server s +:+ ":" +:+ Port s ]>
          (<[ "player" := player ]> ∅))).

(** [for _, score := range scores { fields[score.Name] = score.Value }] *)
Definition score_fields (scores : list Score) : gmap string V :=
  foldl (fun fields score => <[ Name score := Value score ]> fields) ∅ scores.

(** [for _, player := range players] of [Gather]. *)
Fixpoint players_loop (s : Minecraft) (client : Client) (players : list string)
  (acc : list metric) : list metric * option error :=
  match players with
  | [] => (acc, None)
  | player :: rest =>
      let '(scores, err) := Scores client player in
      match err with
      | Some e => (acc, Some (Errorw "scores" "" e))
      | None =>
          players_loop s client rest
            (acc ++ [mkMetric "minecraft" (score_fields scores) (player_tags s player)])
      end
  end.

(** [func (s *Minecraft) Gather(acc cua.Accumulator) error], with the
    client connected. *)
Definition Gather (s : Minecraft) (client : Client) (acc : list metric)
  : list metric * option error :=
  let '(players, err) := Players client in
  match err with
  | Some e => (acc, Some (Errorw "players" "" e))
  | None => players_loop s client players acc
  end.

End Plugin.

End minecraft.

(** ** Vocabulary for the statements about the plugin *)

Import postgresqlextensible.

(** The cells of [accRow] after [row.Scan]. *)
Definition scanned (columns : list string) (r : row)
  : gmap string RawValue * option error :=
  Scan r (new_cells columns) (take (size (new_cells columns)) columns).

(** A column the [COLUMN] loop does not skip. *)
Definition kept (col : string) (val : RawValue) : bool :=
  negb (bool_decide (is_Some (ignoredColumns !! col)) || is_nil val).

(** The string a tag column is given, if its kind has one. *)
Definition tag_text (val : RawValue) : option string :=
  match val with
  | VString v | VBytes v => Some v
  | VInt64 v | VInt32 v | VInt v => Some (Sprintf_d v)
  | _ => None
  end.

(** The value a field column is given. *)
Definition field_value (val : RawValue) : RawValue :=
  match val with
  | VBytes v => VString v
  | _ => val
  end.

(** What the tags and fields hold at [col] once the column [(col, val)]
    has been visited, [old] being what they held before. *)
Definition tags_after (additional : list string) (col : string) (val : RawValue)
  (old : option string) : option string :=
  if kept col val && bool_decide (col ∈ additional) then
    match tag_text val with Some t => Some t | None => old end
  else old.

Definition fields_after (additional : list string) (col : string) (val : RawValue)
  (old : option RawValue) : option RawValue :=
  if kept col val && negb (bool_decide (col ∈ additional)) then Some (field_value val)
  else old.

(** The tags every record starts from. *)
Definition identity_tags (address dbname : string) : gmap string string :=
  <[ "db" := dbname ]> (<[ "server" := address ]> ∅).

(** The tag names a descriptor configures. *)
Definition tags_of (q : querydef) : list string :=
  if negb (String.eqb (Tagvalue q) "") then strings.Split (Tagvalue q) "," else [].

Definition measurement_of (q : querydef) : string :=
  if negb (String.eqb (Measurement q) "") then Measurement q else "postgresql".

(** [rec] is the record made of the cells [m] of a row, for the tag
    names [additional]: it bears the measurement name, its tags are the
    identity tags and the tag columns, its fields the other columns that
    are kept. *)
Definition record_of_cells (address : string) (additional : list string)
  (measName : string) (m : gmap string RawValue) (rec : metric) : Prop :=
  m_name rec = measName /\
  (forall c, m_tags rec !! c =
     match m !! c with
     | Some v => tags_after additional c v (identity_tags address (dbname_of m) !! c)
     | None => identity_tags address (dbname_of m) !! c
     end) /\
  (forall c, m_fields rec !! c =
     match m !! c with
     | Some v => fields_after additional c v None
     | None => None
     end).

(** [rec] is the record of the row [r] of a result set with the columns
    [columns], gathered for the descriptor [q]. *)
Definition row_record (address : string) (q : querydef) (columns : list string)
  (r : row) (rec : metric) : Prop :=
  exists m, scanned columns r = (m, None) /\
            record_of_cells address (tags_of q) (measurement_of q) m rec.

(** Two states that differ in their log only. *)
Definition same_output (s1 s2 : state) : Prop :=
  AdditionalTags s1 = AdditionalTags s2 /\ Acc s1 = Acc s2.

(** *** Concrete plugins *)

Definition range_listed (m : gmap string RawValue) : list (string * RawValue) :=
  map_to_list m.

Definition state0 : state := mkState [] [] [].

(** The row of the specification's example. *)
Definition example_columns : list string := ["host"; "value"; "secret"].
Definition example_row : row := mkRow [VString "a"; VInt64 42; VNil] None.

Definition example_rows : Rows := mkRows (example_columns, None) [example_row].

(** A server whose version cannot be read, with one descriptor of minimum
    version 0. *)
Definition unreachable_version : Postgresql :=
  mkPostgresql [] [mkQuery "SELECT 1" "" 0 false "host" ""]
    (0, Some (ErrForeign "connection refused"))
    (fun _ => (example_rows, None)) ("srv", None).

(** A server of version 1000 on which the query ["bad"] fails. *)
Definition flaky_server : Postgresql :=
  mkPostgresql [] [mkQuery "bad" "" 901 false "" ""; mkQuery "good" "" 901 false "host" "m"]
    (1000, None)
    (fun text => if String.eqb text "bad"
                 then (mkRows ([], None) [], Some (ErrForeign "syntax error"))
                 else (example_rows, None))
    ("srv", None).



Definition plain_server : Postgresql :=
  mkPostgresql [] [] (1000, None) (fun _ => (example_rows, None)) ("srv", None).

(** ** The statements of the specification, in its own words *)

(** [s] padded on the right with ["0"] up to [n] characters. *)
Definition rpad0 (n : nat) (s : string) : string :=
  s +:+ string_of_list_ascii (repeat "0"%char (n - String.length s)).

(** Whether the byte [c] occurs in [s]. *)
Fixpoint occurs (c : ascii) (s : string) : bool :=
  match s with
  | EmptyString => false
  | String a s' => Ascii.eqb a c || occurs c s'
  end.

(** The nanosecond count of C2 as worded: the right segment "right-padded
    with zeros to 9 characters and parsed". *)
Definition padded_nanos_spec (right : string) : Z * option error :=
  strconv.ParseInt (rpad0 9 right).

(** The decomposition of a string with a separator, with the right
    segment first cut to its leading 9 bytes. *)
Definition decompose_spec (left right : string) : Z * Z * option error :=
  match strconv.ParseInt left with
  | (_, Some e) => (0, 0, Some (Errorw "parseint" left e))
  | (integer, None) =>
      let field := rpad0 9 (substring 0 9 right) in
      match strconv.ParseInt field with
      | (_, Some e) => (0, 0, Some (Errorw "parseint" field e))
      | (nanos, None) => (integer, nanos, None)
      end
  end.

(** The fractional nanoseconds of C3 as worded, in exact arithmetic: the
    integer nearest to [frac(value) * 1e9] (ties away from zero), where a
    finite [value] is [±m * 2^e]. *)
Definition rounded_nanos_spec (value : float64) : Z :=
  match value with
  | S754_finite s m (Zneg p) =>
      let den := 2 ^ Zpos p in
      let num := (Zpos m mod den) * 1000000000 in
      let r := (2 * num + den) / (2 * den) in
      if s then - r else r
  | _ => 0
  end.

(** The value of a finite datum [±m * 2^e] rounded toward zero, as a
    quotient. *)
Definition toward_zero_spec (s : bool) (m : positive) (e : Z) : Z :=
  Z.quot ((if s then Zneg m else Zpos m) * 2 ^ Z.max e 0) (2 ^ Z.max (- e) 0).

(** [b] is not a quoted duration string, [ParseDuration] and [Unquote]
    being the library's parsers. *)
Definition not_quoted_duration (ParseDuration : string -> Z * option error)
  (Unquote : string -> string * option error) (b : string) : Prop :=
  forall uq, Unquote b = (uq, None) -> uq = "" \/ snd (ParseDuration uq) <> None.

(** The scale of the three sub-second formats, in nanoseconds. *)
Definition subsecond_scale (format : string) : option Z :=
  if String.eqb format "unix_ms" then Some 1000000
  else if String.eqb format "unix_us" then Some 1000
  else if String.eqb format "unix_ns" then Some 1
  else None.

(** ** Instances used to run the definitions *)

(** The amd64 result of an unrepresentable conversion. *)
Definition indefinite_amd64 (f : float64) : Z := int64_min.

Definition no_location (name : string) : Location * option error :=
  (UTC, Some (ErrForeign "unknown time zone")).

Definition no_layout (layout value : string) (loc : Location) : Time * option error :=
  (mkTime 0 0 UTC, Some (ErrForeign "cannot parse")).

(** A [time.ParseDuration] that knows ["1s"] only. *)
Definition duration_1s_only (s : string) : Z * option error :=
  if String.eqb s "1s" then (1000000000, None)
  else (0, Some (ErrForeign "time: invalid duration")).

Definition unquote_none (s : string) : string * option error :=
  ("", Some (ErrForeign "invalid syntax")).

(** 1.5 = 3 * 2^-1 in canonical form. *)
Definition f64_1_5 : float64 := S754_finite false 6755399441055744 (-52).

(** A [strconv.ParseFloat] that knows ["1.5"] only. *)
Definition float_1_5_only (s : string) : float64 * option error :=
  if String.eqb s "1.5" then (f64_1_5, None)
  else (S754_zero false, Some (NumError "ParseFloat" s false)).

(** 2^-30. *)
Definition f64_2_pow_m30 : float64 := S754_finite false 4503599627370496 (-82).

(** ** Vocabulary for the further properties *)

(** The attempts [vs], made in order with [SetVersion]: the version left
    and the error of each attempt. *)
Fixpoint SetVersion_run (vs : list string) (version : string)
  : string * list (option error) :=
  match vs with
  | [] => (version, [])
  | v :: rest =>
      let '(version', err) := internal.SetVersion v version in
      let '(final, errs) := SetVersion_run rest version' in
      (final, err :: errs)
  end.

Definition all_digits (s : string) : bool :=
  forallb (fun c => match strconv.digit c with Some _ => true | None => false end)
          (list_ascii_of_string s).

(** The number a string of decimal digits denotes, after the digits [n]. *)
Fixpoint digits_from (s : string) (n : Z) : Z :=
  match s with
  | EmptyString => n
  | String c s' =>
      digits_from s' (n * 10 + match strconv.digit c with Some d => d | None => 0 end)
  end.

Definition digits_value (s : string) : Z := digits_from s 0.

(** Whether [format] is one of the four Unix formats. *)
Definition unix_format (format : string) : bool :=
  String.eqb format "unix" || String.eqb format "unix_ms"
  || String.eqb format "unix_us" || String.eqb format "unix_ns".

(** The text of a file whose complete lines are [bodies] and whose last,
    unterminated piece is [tail]. *)
Fixpoint join_lines (bodies : list string) (tail : string) : string :=
  match bodies with
  | [] => tail
  | body :: rest => body +:+ String "010" (join_lines rest tail)
  end.

(** A digit or an ASCII letter. *)
Definition alnum (c : ascii) : bool :=
  let n := N_of_ascii c in
  (((48 <=? n) && (n <=? 57)) || ((65 <=? n) && (n <=? 90))
   || ((97 <=? n) && (n <=? 122)))%N.

Definition all_alnum (s : string) : bool := forallb alnum (list_ascii_of_string s).

(** [SnakeCase] by recursion on the runes, [prev] being the rune before. *)
Fixpoint snake (IsUpper IsLower : Z -> bool) (ToLower : Z -> Z)
  (prev : option Z) (runes : list Z) : list Z :=
  match runes with
  | [] => []
  | r :: rest =>
      let lower_next := match rest with next :: _ => IsLower next | [] => false end in
      let lower_prev := match prev with Some q => IsLower q | None => false end in
      let is_first := match prev with Some _ => false | None => true end in
      (if negb is_first && IsUpper r && (lower_next || lower_prev)
       then [internal.underscore] else [])
      ++ ToLower r :: snake IsUpper IsLower ToLower (Some r) rest
  end.

(** A rune [SnakeCase] leaves as it is. *)
Definition settled (IsUpper : Z -> bool) (ToLower : Z -> Z) (r : Z) : Prop :=
  IsUpper r = false /\ ToLower r = r.

(** Seconds between the zero time (January 1, year 1) and the epoch. *)
Definition unixToInternal : Z := 62135596800.

(** The instant as a count of nanoseconds from the zero time. *)
Definition since_zero (t : Time) : Z :=
  (unix_sec t + unixToInternal) * 1000000000 + unix_nsec t.

Definition of_since_zero (a : Z) (loc : Location) : Time :=
  mkTime (a / 1000000000 - unixToInternal) (a mod 1000000000) loc.

(** The absolute duration of a time since the zero time. *)
Definition absolute (t : MonoTime) : Z := since_zero (wall_time t).

(** [Truncate], [Add] and [Sub] on instants far from the bounds of the
    representation: [Truncate] strips the monotonic reading, [Add] moves
    it along, and [Sub] uses the readings when both times have one. *)
Definition plain_Truncate (t : MonoTime) (d : Z) : MonoTime :=
  if d <=? 0 then mkMonoTime (wall_time t) None
  else mkMonoTime
         (of_since_zero (absolute t - absolute t mod d) (location (wall_time t)))
         None.

Definition plain_Add (t : MonoTime) (d : Z) : MonoTime :=
  mkMonoTime (of_since_zero (absolute t + d) (location (wall_time t)))
             (match monotonic t with Some m => Some (m + d) | None => None end).

Definition plain_Sub (t u : MonoTime) : Z :=
  match monotonic t, monotonic u with
  | Some a, Some b => a - b
  | _, _ => absolute t - absolute u
  end.

(** A time as [time.Now] gives it, on a multiple of five seconds. *)
Definition now_aligned : MonoTime := mkMonoTime (mkTime 10 0 UTC) (Some 777).

(** The ASCII part of [unicode.IsUpper], [unicode.IsLower] and
    [unicode.ToLower]. *)
Definition ascii_IsUpper (r : Z) : bool := (65 <=? r) && (r <=? 90).
Definition ascii_IsLower (r : Z) : bool := (97 <=? r) && (r <=? 122).
Definition ascii_ToLower (r : Z) : Z := if ascii_IsUpper r then r + 32 else r.

(** A decoder for ASCII text: every character is one byte. *)
Definition width_one (s : string) : nat := 1.

(** A file system with the one file ["lines.txt"]. *)
Definition one_file (name : string) : file * option error :=
  if String.eqb name "lines.txt"
  then (mkFile (join_lines ["a"; "b"; "c"] "d") None, None)
  else (mkFile "" None, Some (ErrForeign "no such file")).

(** A byte-size parser that knows ["1KiB"] only. *)
Definition bytes_1KiB_only (s : string) : Z * option error :=
  if String.eqb s "1KiB" then (1024, None)
  else (0, Some (ErrForeign "units: invalid")).

(** Random bytes: [n] times the byte 200. *)
Definition constant_bytes (n : nat) : string :=
  string_of_list_ascii (repeat (ascii_of_nat 200) n).

(** A server of version 900 with one descriptor for version 1000. *)
Definition gated_server : Postgresql :=
  mkPostgresql [] [mkQuery "SELECT 1" "" 1000 false "" ""] (900, None)
    (fun _ => (example_rows, None)) ("srv", None).

(** A file system holding the script ["q.sql"]. *)
Definition script_files (name : string) : file * option error :=
  if String.eqb name "q.sql" then (mkFile "SELECT 2" None, None)
  else (mkFile "" None, Some (ErrForeign "no such file")).

(** A status that answers to the host and the driver port. *)
Definition answers (host : string) (driverPort : Z) (ss : rethinkdb.serverStatus) : Prop :=
  host ∈ rethinkdb.Network_Addresses ss /\ rethinkdb.Network_DriverPort ss = driverPort.

(** [net.SplitHostPort] on the host ["db1:28015"] alone. *)
Definition split_db1 (hostport : string) : string * string * option error :=
  if String.eqb hostport "db1:28015" then ("db1", "28015", None)
  else ("", "", Some (ErrForeign "missing port in address")).

(** Two servers of a cluster; the second listens on ["db1"], port 28015. *)
Definition status_other : rethinkdb.serverStatus :=
  rethinkdb.mkServerStatus "a" "other" ["db0"; "10.0.0.1"] 28015 "2.3.5".

Definition status_db1 : rethinkdb.serverStatus :=
  rethinkdb.mkServerStatus "b" "one" ["10.0.0.2"; "db1"] 28015 "2.3.5".

Definition status_none : rethinkdb.serverStatus :=
  rethinkdb.mkServerStatus "" "" [] 0 "".

Definition cluster_reply : rethinkdb.status_reply :=
  rethinkdb.mkReply None false ([status_other; status_db1], None).

(** The record [Gather] of [minecraft] makes of one player. *)
Definition player_record {V : Type} (s : minecraft.Minecraft)
  (client : minecraft.Client V) (player : string) : minecraft.metric V :=
  minecraft.mkMetric V "minecraft"
    (minecraft.score_fields V (fst (minecraft.Scores V client player)))
    (minecraft.player_tags s player).

(** A scoreboard with two players; the scores of a third cannot be read. *)
Definition scoreboard : minecraft.Client Z :=
  minecraft.mkClient Z (["ann"; "bob"], None)
    (fun player =>
       if String.eqb player "carl" then ([], Some (ErrForeign "timeout"))
       else ([minecraft.mkScore Z "jumps" 3; minecraft.mkScore Z "deaths" 1], None)).

Definition scoreboard_carl : minecraft.Client Z :=
  minecraft.mkClient Z (["ann"; "carl"; "bob"], None) (minecraft.Scores Z scoreboard).

Definition local_server : minecraft.Minecraft :=
  minecraft.mkMinecraft "localhost" "25575" "".

(** ** Machine integers: facts *)

Lemma wrap64_int64 (z : Z) : int64 (wrap64 z).
Proof.
  unfold int64, wrap64, int64_min, int64_max.
  pose proof (Z.mod_pos_bound (z + 2 ^ 63) (2 ^ 64) ltac:(lia)). lia.
Qed.

Lemma wrap64_id (z : Z) : int64 z -> wrap64 z = z.
Proof.
  unfold int64, wrap64, int64_min, int64_max. intros H.
  rewrite Z.mod_small; lia.
Qed.

Lemma int64b_spec (z : Z) : int64b z = true <-> int64 z.
Proof. unfold int64b, int64. rewrite andb_true_iff, !Z.leb_le. tauto. Qed.

(** [time.Unix(0, n)] is the instant [n] nanoseconds from the epoch, with
    a normalised nanosecond field. *)
Lemma time_Unix_0 (n : Z) :
  int64 n ->
  instant_ns (time_Unix 0 n) = n /\ 0 <= unix_nsec (time_Unix 0 n) < 1000000000.
Proof.
  intros Hn. unfold time_Unix.
  destruct ((n <? 0) || (1000000000 <=? n)) eqn:Hout; cycle 1.
  { apply orb_false_iff in Hout as [H1 H2].
    apply Z.ltb_ge in H1. apply Z.leb_gt in H2.
    unfold instant_ns; simpl. lia. }
  clear Hout.
  pose proof (Z.quot_rem' n 1000000000) as Hqr.
  set (q := Z.quot n 1000000000) in *.
  set (r := Z.rem n 1000000000) in *.
  assert (Hr : - 1000000000 < r < 1000000000).
  { subst r. destruct (Z_le_gt_dec 0 n).
    - pose proof (Z.rem_bound_pos n 1000000000 ltac:(lia) ltac:(lia)). lia.
    - pose proof (Z.rem_bound_pos_neg n 1000000000 ltac:(lia) ltac:(lia)). lia. }
  assert (Hsign : (0 <= n -> 0 <= r) /\ (n <= 0 -> r <= 0)).
  { subst r. split; intros.
    - pose proof (Z.rem_bound_pos n 1000000000 ltac:(lia) ltac:(lia)). lia.
    - pose proof (Z.rem_bound_pos_neg n 1000000000 ltac:(lia) ltac:(lia)). lia. }
  unfold int64, int64_min, int64_max in Hn.
  assert (Hq : int64 (q * 1000000000))
    by (unfold int64, int64_min, int64_max; lia).
  assert (Hq' : int64 q) by (unfold int64, int64_min, int64_max in *; lia).
  unfold add64, sub64, mul64.
  rewrite (wrap64_id (0 + q)) by (now rewrite Z.add_0_l).
  rewrite (wrap64_id (q * 1000000000)) by exact Hq.
  replace (n - q * 1000000000) with r by lia.
  rewrite (wrap64_id r) by (unfold int64, int64_min, int64_max; lia).
  destruct (r <? 0) eqn:Hneg.
  - apply Z.ltb_lt in Hneg.
    rewrite (wrap64_id (r + 1000000000))
      by (unfold int64, int64_min, int64_max; lia).
    rewrite (wrap64_id (0 + q - 1))
      by (unfold int64, int64_min, int64_max in *; lia).
    unfold instant_ns; simpl. lia.
  - apply Z.ltb_ge in Hneg. unfold instant_ns; simpl. lia.
Qed.

(** ** [strconv] and [strings]: facts *)

Lemma digit_nonneg (c : ascii) (d : Z) : strconv.digit c = Some d -> 0 <= d <= 9.
Proof.
  unfold strconv.digit. intros H.
  destruct ((48 <=? Z.of_N (N_of_ascii c)) && (Z.of_N (N_of_ascii c) <=? 57)) eqn:E;
    [|discriminate].
  apply andb_true_iff in E as [E1 E2].
  apply Z.leb_le in E1. apply Z.leb_le in E2.
  injection H as <-. lia.
Qed.

Lemma ParseUint_loop_bounds (s : string) :
  forall n un, 0 <= n <= strconv.maxUint64 ->
  strconv.ParseUint_loop s n = inr un -> 0 <= un <= strconv.maxUint64.
Proof.
  induction s as [|c s IH]; intros n un Hn H; simpl in H.
  - now injection H as <-.
  - destruct (strconv.digit c) as [d|] eqn:Hd; [|discriminate].
    apply digit_nonneg in Hd.
    destruct (strconv.maxUint64 / 10 + 1 <=? n); [discriminate|].
    destruct (strconv.maxUint64 <? n * 10 + d) eqn:Hmax; [discriminate|].
    apply Z.ltb_ge in Hmax.
    apply (IH (n * 10 + d)); [lia | exact H].
Qed.

Lemma ParseInt_int64 (s : string) (i : Z) :
  strconv.ParseInt s = (i, None) -> int64 i.
Proof.
  unfold strconv.ParseInt. destruct s as [|c rest]; [discriminate|].
  set (t := if Ascii.eqb c "+" || Ascii.eqb c "-" then rest else String c rest).
  destruct (strconv.ParseUint t) as [[|]|un] eqn:Hu; try discriminate.
  assert (Hun : 0 <= un <= strconv.maxUint64).
  { unfold strconv.ParseUint in Hu. destruct t; [discriminate|].
    eapply ParseUint_loop_bounds; [|exact Hu]. unfold strconv.maxUint64; lia. }
  destruct (Ascii.eqb c "-"); simpl.
  - destruct (2 ^ 63 <? un) eqn:E; [discriminate|].
    apply Z.ltb_ge in E. intros [= <-].
    unfold int64, int64_min, int64_max. lia.
  - destruct (2 ^ 63 <=? un) eqn:E; [discriminate|].
    apply Z.leb_gt in E. intros [= <-].
    unfold int64, int64_min, int64_max. lia.
Qed.

Lemma cut_first (sep : ascii) (l r : string) :
  occurs sep l = false -> strings.cut sep (l +:+ String sep r) = Some (l, r).
Proof.
  induction l as [|c l IH]; simpl; intros H.
  - now rewrite Ascii.eqb_refl.
  - apply orb_false_iff in H as [Hc Hl].
    rewrite Hc, (IH Hl). reflexivity.
Qed.

Lemma cut_absent (sep : ascii) (s : string) :
  occurs sep s = false -> strings.cut sep s = None.
Proof.
  induction s as [|c s IH]; simpl; intros H; [reflexivity|].
  apply orb_false_iff in H as [Hc Hs].
  now rewrite Hc, (IH Hs).
Qed.

(** [copy] into the nine zeros keeps the leading nine bytes of the source
    and pads what is shorter. *)
Lemma copy_zeros (second : string) :
  copy "000000000" second = rpad0 9 (substring 0 9 second).
Proof.
  do 9 (destruct second as [|? second]; [reflexivity|]).
  destruct second; reflexivity.
Qed.

Lemma substring_short (n : nat) (s : string) :
  (String.length s <= n)%nat -> substring 0 n s = s.
Proof.
  revert n. induction s as [|c s IH]; intros [|n] H; simpl in *;
    try reflexivity; try lia.
  f_equal. apply IH. lia.
Qed.

(** ** binary64: facts *)

Lemma Zpos_shiftl (q p : positive) :
  Zpos (Pos.shiftl q (Npos p)) = Z.shiftl (Zpos q) (Zpos p).
Proof.
  simpl. apply (Pos.iter_swap_gen _ _ Zpos xO (Z.mul 2)). reflexivity.
Qed.

(** [math.Trunc] keeps the integer that truncation toward zero gives. *)
Lemma f64_truncZ_trunc (f : float64) : f64_truncZ (f64_trunc f) = f64_truncZ f.
Proof.
  destruct f as [s|s| |s m [|p|p]]; try reflexivity.
  unfold f64_trunc.
  pose proof (Z.shiftr_nonneg (Zpos m) (Zpos p)) as Hnn.
  destruct (Z.shiftr (Zpos m) (Zpos p)) as [|q|q] eqn:Hq.
  - cbn [f64_truncZ]. rewrite Hq. now destruct s.
  - cbn [f64_truncZ]. rewrite Hq, Zpos_shiftl.
    rewrite Z.shiftr_shiftl_l by lia. now rewrite Z.sub_diag.
  - exfalso. assert (0 <= Zneg q) by (apply Hnn; lia). lia.
Qed.

(** Discarding the fraction is rounding the value toward zero. *)
Lemma f64_truncZ_toward_zero (s : bool) (m : positive) (e : Z) :
  f64_truncZ (S754_finite s m e) = Some (toward_zero_spec s m e).
Proof.
  unfold f64_truncZ, toward_zero_spec. f_equal.
  destruct e as [|p|p].
  - change (2 ^ Z.max 0 0) with 1. change (2 ^ Z.max (- 0) 0) with 1.
    rewrite Z.quot_1_r, Z.mul_1_r. cbn [Z.shiftl]. now destruct s.
  - rewrite Z.shiftl_mul_pow2 by lia.
    rewrite Z.max_l, Z.max_r by lia. change (2 ^ 0) with 1. rewrite Z.quot_1_r.
    destruct s; [|reflexivity]. change (Zneg m) with (- Zpos m). lia.
  - rewrite Z.shiftr_div_pow2 by lia.
    rewrite Z.max_r, Z.max_l by lia. simpl (2 ^ 0). rewrite Z.mul_1_r.
    change (- Zneg p) with (Zpos p).
    assert (0 < 2 ^ Zpos p) by (apply Z.pow_pos_nonneg; lia).
    destruct s.
    + change (Zneg m) with (- Zpos m). rewrite Z.quot_opp_l by lia.
      now rewrite Z.quot_div_nonneg by lia.
    + now rewrite Z.quot_div_nonneg by lia.
Qed.

(** ** The process-wide version string *)

(** C9, as stated, fails: the unset state is the empty string, so a first
    [SetVersion("")] succeeds and leaves the version unset, and the second
    attempt succeeds as well instead of failing with
    [ErrVersionAlreadySet]. *)
Lemma SetVersion_empty_then_second_succeeds :
  internal.SetVersion "" internal.version_init = ("", None) /\
  internal.SetVersion "1.0" (fst (internal.SetVersion "" internal.version_init))
    = ("1.0", None) /\
  snd (internal.SetVersion "1.0" (fst (internal.SetVersion "" internal.version_init)))
    <> Some ErrVersionAlreadySet.
Proof. repeat split; discriminate. Qed.

(** C9 (amended): a first [SetVersion] with a non-empty string succeeds;
    from then on every further attempt fails with [ErrVersionAlreadySet]
    and leaves the value untouched, and [Version()] returns the value
    that was set. *)
Theorem SetVersion_write_once (v : string) :
  v <> "" ->
  internal.SetVersion v internal.version_init = (v, None) /\
  (forall v', internal.SetVersion v' v = (v, Some ErrVersionAlreadySet)) /\
  internal.Version (fst (internal.SetVersion v internal.version_init)) = v.
Proof.
  intros Hv. unfold internal.SetVersion, internal.version_init, internal.Version.
  simpl. repeat split.
  intros v'. destruct (String.eqb v "") eqn:E; [|reflexivity].
  apply String.eqb_eq in E. contradiction.
Qed.

Lemma SetVersion_write_once_witness :
  "1.0" <> "" /\
  internal.SetVersion "1.0" internal.version_init = ("1.0", None) /\
  (forall v', internal.SetVersion v' "1.0" = ("1.0", Some ErrVersionAlreadySet)) /\
  internal.Version (fst (internal.SetVersion "1.0" internal.version_init)) = "1.0".
Proof. split; [discriminate | apply (SetVersion_write_once "1.0"); discriminate]. Defined.

(** ** Timestamps *)

Section Timestamps.

Variable int64_unrepresentable : float64 -> Z.
Hypothesis unrepresentable_int64 : forall f, int64 (int64_unrepresentable f).
Variable LoadLocation : string -> Location * option error.
Variable ParseInLocation : string -> string -> Location -> Time * option error.

Local Abbreviation int64_of_float64 := (internal.int64_of_float64 int64_unrepresentable).
Local Abbreviation parseComponents := (internal.parseComponents int64_unrepresentable).
Local Abbreviation parseUnix := (internal.parseUnix int64_unrepresentable).
Local Abbreviation ParseTimestamp :=
  (internal.ParseTimestamp int64_unrepresentable LoadLocation ParseInLocation).

Lemma int64_of_float64_int64 (f : float64) : int64 (int64_of_float64 f).
Proof.
  unfold internal.int64_of_float64.
  destruct (f64_truncZ f) as [z|]; [|apply unrepresentable_int64].
  destruct (int64b z) eqn:E; [now apply int64b_spec | apply unrepresentable_int64].
Qed.

Lemma int64_of_float64_exact (f : float64) (z : Z) :
  f64_truncZ f = Some z -> int64 z -> int64_of_float64 f = z.
Proof.
  intros Hz Hr. unfold internal.int64_of_float64. rewrite Hz.
  apply int64b_spec in Hr. now rewrite Hr.
Qed.

Lemma parseUnixTimeComponents_decompose (first second : string) :
  internal.parseUnixTimeComponents first second = decompose_spec first second.
Proof.
  unfold internal.parseUnixTimeComponents, decompose_spec.
  rewrite copy_zeros. reflexivity.
Qed.

Lemma parseUnixTimeComponents_int64 (a b : string) (i f : Z) :
  internal.parseUnixTimeComponents a b = (i, f, None) -> int64 i.
Proof.
  unfold internal.parseUnixTimeComponents.
  destruct (strconv.ParseInt a) as [x [e|]] eqn:Ha; [discriminate|].
  destruct (strconv.ParseInt (copy "000000000" b)) as [y [e|]]; [discriminate|].
  intros [= <- <-]. exact (ParseInt_int64 _ _ Ha).
Qed.

(** The integer part of a successful decomposition is an [int64]. *)
Lemma parseComponents_int64 (ts : timestamp) (i f : Z) :
  wf_timestamp ts -> parseComponents ts = (i, f, None) -> int64 i.
Proof.
  intros Hwf H. destruct ts as [s|z|x|]; simpl in H.
  - destruct (strings.SplitN2 s ".") as [|p0 [|p1 [|]]] eqn:E1;
      try (now apply parseUnixTimeComponents_int64 in H);
      (destruct (strings.SplitN2 s ",") as [|q0 [|q1 [|]]] eqn:E2;
       try (now apply parseUnixTimeComponents_int64 in H);
       destruct (strconv.ParseInt s) as [y [e|]] eqn:Hs; try discriminate;
       injection H as <- <-; exact (ParseInt_int64 _ _ Hs)).
  - injection H as <- <-. exact Hwf.
  - injection H as <- <-. apply int64_of_float64_int64.
  - discriminate.
Qed.

(** C1 (amended): with format [unix_ms], [unix_us] or [unix_ns], a
    timestamp that parses is the instant [integerPart * (1e6 | 1e3 | 1)]
    nanoseconds from the epoch, the product being the [int64] product of
    the code, which wraps around (so exactly [integerPart * scale]
    whenever that is an [int64], and not otherwise); the
    fractional component of the input takes no part in it, and the result
    is in UTC whatever location is supplied.  In particular
    [ParseTimestamp("unix_ms", 1000, loc)] is one second past the epoch,
    in UTC. *)
Theorem ParseTimestamp_subsecond (format : string) (scale : Z) (ts : timestamp)
    (loc : string) (t : Time) :
  subsecond_scale format = Some scale ->
  wf_timestamp ts ->
  ParseTimestamp format ts loc = (t, None) ->
  (exists integerPart fractional,
      parseComponents ts = (integerPart, fractional, None) /\
      instant_ns t = mul64 integerPart scale /\
      (int64 (integerPart * scale) -> instant_ns t = integerPart * scale) /\
      0 <= unix_nsec t < 1000000000 /\
      location t = UTC) /\
  (forall loc', ParseTimestamp "unix_ms" (TsInt64 1000) loc' = (mkTime 1 0 UTC, None)).
Proof.
  intros Hscale Hwf Hparse. split; [|reflexivity].
  destruct (parseComponents ts) as [[i f] err] eqn:Hc.
  assert (Hcases : (format = "unix_ms" /\ scale = 1000000) \/
                   (format = "unix_us" /\ scale = 1000) \/
                   (format = "unix_ns" /\ scale = 1)).
  { unfold subsecond_scale in Hscale.
    destruct (String.eqb format "unix_ms") eqn:E1;
      [apply String.eqb_eq in E1; injection Hscale as <-; auto|].
    destruct (String.eqb format "unix_us") eqn:E2;
      [apply String.eqb_eq in E2; injection Hscale as <-; auto|].
    destruct (String.eqb format "unix_ns") eqn:E3;
      [apply String.eqb_eq in E3; injection Hscale as <-; auto|].
    discriminate. }
  assert (Hunix : ParseTimestamp format ts loc = parseUnix format ts).
  { unfold internal.ParseTimestamp.
    destruct Hcases as [[-> _]|[[-> _]|[-> _]]]; reflexivity. }
  rewrite Hunix in Hparse. unfold internal.parseUnix in Hparse.
  rewrite Hc in Hparse.
  destruct err as [e|]; [discriminate|].
  pose proof (parseComponents_int64 ts i f Hwf Hc) as Hi.
  assert (Ht : t = Time_UTC (time_Unix 0 (mul64 i scale))).
  { destruct Hcases as [[-> ->]|[[-> ->]|[-> ->]]]; simpl in Hparse;
      injection Hparse as <-; try reflexivity.
    unfold mul64. rewrite Z.mul_1_r, wrap64_id by exact Hi. reflexivity. }
  exists i, f. split; [reflexivity|].
  destruct (time_Unix_0 (mul64 i scale) (wrap64_int64 _)) as [Hinst Hns].
  subst t. unfold instant_ns in *. simpl.
  repeat split; try tauto.
  intros Hfit. rewrite Hinst. unfold mul64. now apply wrap64_id.
Qed.

End Timestamps.

Lemma indefinite_amd64_int64 (f : float64) : int64 (indefinite_amd64 f).
Proof. unfold indefinite_amd64, int64, int64_min, int64_max. lia. Qed.

(** C1, as stated, fails where the product leaves the [int64] range: the
    timestamp 9223372036854775807 parses with the format [unix_ms], and
    the instant returned is 1000000 nanoseconds before the epoch. *)
Lemma ParseTimestamp_subsecond_wraps :
  wf_timestamp (TsInt64 9223372036854775807) /\
  internal.ParseTimestamp indefinite_amd64 no_location no_layout
    "unix_ms" (TsInt64 9223372036854775807) "" = (mkTime (-1) 999000000 UTC, None) /\
  instant_ns (mkTime (-1) 999000000 UTC) = -1000000 /\
  instant_ns (mkTime (-1) 999000000 UTC) <> 9223372036854775807 * 1000000.
Proof.
  split; [vm_compute; intuition discriminate|].
  split; [vm_compute; reflexivity|].
  split; [reflexivity | discriminate].
Qed.

Lemma ParseTimestamp_subsecond_witness :
  subsecond_scale "unix_ms" = Some 1000000 /\
  wf_timestamp (TsString "1000.75") /\
  internal.ParseTimestamp indefinite_amd64 no_location no_layout
    "unix_ms" (TsString "1000.75") "America/Los_Angeles" = (mkTime 1 0 UTC, None) /\
  exists integerPart fractional,
    internal.parseComponents indefinite_amd64 (TsString "1000.75")
      = (integerPart, fractional, None) /\
    instant_ns (mkTime 1 0 UTC) = mul64 integerPart 1000000 /\
    (int64 (integerPart * 1000000) ->
     instant_ns (mkTime 1 0 UTC) = integerPart * 1000000) /\
    0 <= unix_nsec (mkTime 1 0 UTC) < 1000000000 /\
    location (mkTime 1 0 UTC) = UTC.
Proof.
  split; [reflexivity|]. split; [exact I|]. split; [reflexivity|].
  apply (ParseTimestamp_subsecond indefinite_amd64 indefinite_amd64_int64
           no_location no_layout "unix_ms" 1000000 (TsString "1000.75")
           "America/Los_Angeles" (mkTime 1 0 UTC));
    [reflexivity | exact I | reflexivity].
Defined.

Section Decomposition.

Variable int64_unrepresentable : float64 -> Z.

Local Abbreviation int64_of_float64 := (internal.int64_of_float64 int64_unrepresentable).
Local Abbreviation parseComponents := (internal.parseComponents int64_unrepresentable).

(** C2 (amended): a string timestamp with a separator is split at the
    first ['.'] or, when it has no ['.'], at the first [',']; the left
    segment is parsed as a signed base-10 64-bit integer; the right
    segment is cut to its leading 9 bytes, padded on the right with zeros
    to 9 bytes and parsed as the nanosecond count; an error of either
    parse is returned.  Where the right segment has at most 9 bytes this
    is the padding of the claim.  So ["42.5"] and ["42,500"] both give
    [(42, 500000000)]. *)
Theorem parseComponents_separator (s left right : string) :
  (s = left +:+ String "." right /\ occurs "." left = false) \/
  (s = left +:+ String "," right /\ occurs "." s = false /\ occurs "," left = false) ->
  parseComponents (TsString s) = decompose_spec left right /\
  ((String.length right <= 9)%nat ->
   forall integer, strconv.ParseInt left = (integer, None) ->
   forall nanos, padded_nanos_spec right = (nanos, None) ->
   parseComponents (TsString s) = (integer, nanos, None)) /\
  parseComponents (TsString "42.5") = (42, 500000000, None) /\
  parseComponents (TsString "42,500") = (42, 500000000, None).
Proof.
  intros Hsplit.
  assert (Hmain : parseComponents (TsString s) = decompose_spec left right).
  { cbn [internal.parseComponents]. unfold strings.SplitN2.
    destruct Hsplit as [[-> Hl]|[-> [Hdot Hl]]].
    - rewrite (cut_first _ _ _ Hl). apply parseUnixTimeComponents_decompose.
    - rewrite (cut_absent _ _ Hdot), (cut_first _ _ _ Hl).
      apply parseUnixTimeComponents_decompose. }
  split; [exact Hmain|]. split; [|split; reflexivity].
  intros Hlen integer Hint nanos Hnanos. rewrite Hmain.
  unfold decompose_spec. rewrite Hint.
  rewrite (substring_short 9 right Hlen).
  unfold padded_nanos_spec in Hnanos. now rewrite Hnanos.
Qed.

(** C3 (amended): for a [float64] timestamp the integer part is the value
    truncated toward zero, and the fractional nanosecond part is the
    binary64 product of the fractional part and [1e9], truncated toward
    zero as well (not rounded to the nearest nanosecond), both where the
    truncated number is an [int64]. *)
Theorem parseComponents_float (value : float64) (integer nanos : Z) :
  f64_truncZ value = Some integer ->
  int64 integer ->
  f64_truncZ (f64_mul (snd (Modf value)) f64_1e9) = Some nanos ->
  int64 nanos ->
  parseComponents (TsFloat64 value) = (integer, nanos, None) /\
  (forall s m e, value = S754_finite s m e -> integer = toward_zero_spec s m e) /\
  (forall s m e, f64_mul (snd (Modf value)) f64_1e9 = S754_finite s m e ->
                 nanos = toward_zero_spec s m e).
Proof.
  intros Hi Hir Hn Hnr. split; [|split].
  - cbn [internal.parseComponents]. unfold Modf in *. cbn [snd] in Hn.
    rewrite (int64_of_float64_exact _ (f64_trunc value) integer),
            (int64_of_float64_exact _ _ nanos); auto.
    now rewrite f64_truncZ_trunc.
  - intros s m e ->. rewrite f64_truncZ_toward_zero in Hi. congruence.
  - intros s m e Hp. rewrite Hp, f64_truncZ_toward_zero in Hn. congruence.
Qed.

End Decomposition.

(** C2, as stated, fails on a right segment of more than nine bytes: the
    code keeps its leading nine bytes only, while padding it to nine
    characters leaves it whole. *)
Lemma parseComponents_long_fraction :
  internal.parseComponents indefinite_amd64 (TsString "42.1234567891") = (42, 123456789, None) /\
  padded_nanos_spec "1234567891" = (1234567891, None) /\
  snd (fst (internal.parseComponents indefinite_amd64 (TsString "42.1234567891")))
    <> fst (padded_nanos_spec "1234567891").
Proof. repeat split. vm_compute. discriminate. Qed.

(** C3, as stated, fails: at [2^-30] the product [frac * 1e9] is
    0.931..., which rounds to 1, and the code returns 0. *)
Lemma parseComponents_float_not_rounded :
  internal.parseComponents indefinite_amd64 (TsFloat64 f64_2_pow_m30) = (0, 0, None) /\
  rounded_nanos_spec f64_2_pow_m30 = 1 /\
  snd (fst (internal.parseComponents indefinite_amd64 (TsFloat64 f64_2_pow_m30)))
    <> rounded_nanos_spec f64_2_pow_m30.
Proof. repeat split. vm_compute. discriminate. Qed.

Lemma parseComponents_float_witness :
  f64_truncZ f64_1_5 = Some 1 /\
  int64 1 /\
  f64_truncZ (f64_mul (snd (Modf f64_1_5)) f64_1e9) = Some 500000000 /\
  int64 500000000 /\
  internal.parseComponents indefinite_amd64 (TsFloat64 f64_1_5)
    = (1, 500000000, None).
Proof.
  assert (H1 : int64 1) by (unfold int64, int64_min, int64_max; lia).
  assert (H2 : int64 500000000) by (unfold int64, int64_min, int64_max; lia).
  split; [reflexivity|]. split; [exact H1|]. split; [reflexivity|].
  split; [exact H2|].
  exact (proj1 (parseComponents_float indefinite_amd64 f64_1_5 1 500000000
                  eq_refl H1 eq_refl H2)).
Defined.

Lemma parseComponents_separator_witness :
  ("42,500" = "42" +:+ String "," "500" /\ occurs "." "42,500" = false /\
   occurs "," "42" = false) /\
  internal.parseComponents indefinite_amd64 (TsString "42,500")
    = decompose_spec "42" "500".
Proof.
  split; [repeat split|].
  exact (proj1 (parseComponents_separator indefinite_amd64 "42,500" "42" "500"
                  (or_intror (conj eq_refl (conj eq_refl eq_refl))))).
Defined.

(** ** Duration literals *)

Section Durations.

Variable int64_unrepresentable : float64 -> Z.
Variable ParseDuration : string -> Z * option error.
Variable Unquote : string -> string * option error.
Variable ParseFloat : string -> float64 * option error.

(** [time.ParseDuration] returns the zero duration with every error. *)
Hypothesis ParseDuration_error_zero :
  forall s d e, ParseDuration s = (d, Some e) -> d = 0.

Local Abbreviation UnmarshalTOML :=
  (internal.Duration_UnmarshalTOML int64_unrepresentable ParseDuration Unquote ParseFloat).

(** No literal makes [UnmarshalTOML] return an error. *)
Lemma UnmarshalTOML_no_error (d : Z) (b : string) : snd (UnmarshalTOML d b) = None.
Proof.
  unfold internal.Duration_UnmarshalTOML.
  destruct (ParseDuration (bytes.Trim1 b "'")) as [d1 [e1|]]; [|reflexivity].
  destruct (Unquote (bytes.Trim1 b "'")) as [uq [e2|]].
  - destruct (strconv.ParseInt _) as [sI [e3|]]; [|reflexivity].
    destruct (ParseFloat _) as [sF [e4|]]; reflexivity.
  - destruct (0 <? Z.of_nat (String.length uq)).
    + destruct (ParseDuration uq) as [d2 [e5|]]; [|reflexivity].
      destruct (strconv.ParseInt _) as [sI [e3|]]; [|reflexivity].
      destruct (ParseFloat _) as [sF [e4|]]; reflexivity.
    + destruct (strconv.ParseInt _) as [sI [e3|]]; [|reflexivity].
      destruct (ParseFloat _) as [sF [e4|]]; reflexivity.
Qed.

(** A standard duration expression wins over every other reading. *)
Lemma UnmarshalTOML_standard (d x : Z) (b : string) :
  ParseDuration (bytes.Trim1 b "'") = (x, None) -> UnmarshalTOML d b = (x, None).
Proof. intros H. unfold internal.Duration_UnmarshalTOML. now rewrite H. Qed.

(** Then a quoted duration string. *)
Lemma UnmarshalTOML_quoted (d d1 x : Z) (b uq : string) (e : error) :
  ParseDuration (bytes.Trim1 b "'") = (d1, Some e) ->
  Unquote (bytes.Trim1 b "'") = (uq, None) ->
  uq <> "" ->
  ParseDuration uq = (x, None) ->
  UnmarshalTOML d b = (x, None).
Proof.
  intros H1 H2 Hne H3. unfold internal.Duration_UnmarshalTOML.
  rewrite H1, H2. destruct uq as [|c uq]; [contradiction|].
  replace (0 <? Z.of_nat (String.length (String c uq))) with true
    by (symmetry; apply Z.ltb_lt; simpl; lia).
  now rewrite H3.
Qed.

Lemma UnmarshalTOML_fallthrough (d d1 : Z) (b : string) (e : error) :
  ParseDuration (bytes.Trim1 b "'") = (d1, Some e) ->
  not_quoted_duration ParseDuration Unquote (bytes.Trim1 b "'") ->
  UnmarshalTOML d b =
    let b' := bytes.Trim1 b "'" in
    match strconv.ParseInt b' with
    | (sI, None) => (mul64 internal.Second sI, None)
    | (_, Some _) =>
        match ParseFloat b' with
        | (sF, None) =>
            (mul64 internal.Second (internal.int64_of_float64 int64_unrepresentable sF), None)
        | (_, Some _) => (0, None)
        end
    end.
Proof.
  intros H1 Hnq. unfold internal.Duration_UnmarshalTOML. rewrite H1.
  pose proof (ParseDuration_error_zero _ _ _ H1) as ->.
  unfold not_quoted_duration in Hnq.
  destruct (Unquote (bytes.Trim1 b "'")) as [uq [e2|]] eqn:Hu.
  - cbv zeta. destruct (strconv.ParseInt _) as [sI [e3|]]; [|reflexivity].
    destruct (ParseFloat _) as [sF [e4|]]; reflexivity.
  - destruct (Hnq uq eq_refl) as [-> | Hfail].
    + simpl. destruct (strconv.ParseInt _) as [sI [e3|]]; [|reflexivity].
      destruct (ParseFloat _) as [sF [e4|]]; reflexivity.
    + destruct (0 <? Z.of_nat (String.length uq)).
      * destruct (ParseDuration uq) as [d2 [e5|]] eqn:Hd2; [|now simpl in Hfail].
        pose proof (ParseDuration_error_zero _ _ _ Hd2) as ->.
        cbv zeta. destruct (strconv.ParseInt _) as [sI [e3|]]; [|reflexivity].
        destruct (ParseFloat _) as [sF [e4|]]; reflexivity.
      * cbv zeta. destruct (strconv.ParseInt _) as [sI [e3|]]; [|reflexivity].
        destruct (ParseFloat _) as [sF [e4|]]; reflexivity.
Qed.

(** C4 at the literal [1.5]: it is no duration expression, no quoted
    string and no integer, [strconv.ParseFloat] reads it as 1.5, and the
    duration stored is one second: [time.Duration(sF)] converts the float
    to an integer before the multiplication by [time.Second], so the
    fractional part of the seconds is lost. *)
Theorem UnmarshalTOML_fraction_lost (d : Z) :
  snd (ParseDuration "1.5") <> None ->
  snd (Unquote "1.5") <> None ->
  ParseFloat "1.5" = (f64_1_5, None) ->
  UnmarshalTOML d "1.5" = (1000000000, None) /\
  fst (UnmarshalTOML d "1.5") <> 1500000000.
Proof.
  intros H1 H2 H3.
  assert (H : UnmarshalTOML d "1.5" = (1000000000, None)).
  { unfold internal.Duration_UnmarshalTOML.
    change (bytes.Trim1 "1.5" "'") with "1.5".
    destruct (ParseDuration "1.5") as [d1 [e1|]]; [|now simpl in H1].
    destruct (Unquote "1.5") as [uq [e2|]]; [|now simpl in H2].
    cbv zeta. change (strconv.ParseInt "1.5") with (0, Some (NumError "ParseInt" "1.5" false)).
    cbv iota beta. rewrite H3. reflexivity. }
  split; [exact H|]. rewrite H. simpl. lia.
Qed.

End Durations.

Lemma duration_1s_only_zero (s : string) (d : Z) (e : error) :
  duration_1s_only s = (d, Some e) -> d = 0.
Proof.
  unfold duration_1s_only. destruct (String.eqb s "1s"); [discriminate|].
  now intros [= <- _].
Qed.

Lemma UnmarshalTOML_fraction_lost_witness :
  snd (duration_1s_only "1.5") <> None /\
  snd (unquote_none "1.5") <> None /\
  float_1_5_only "1.5" = (f64_1_5, None) /\
  internal.Duration_UnmarshalTOML indefinite_amd64 duration_1s_only unquote_none
    float_1_5_only 0 "1.5" = (1000000000, None).
Proof.
  assert (H1 : snd (duration_1s_only "1.5") <> None) by discriminate.
  assert (H2 : snd (unquote_none "1.5") <> None) by discriminate.
  split; [exact H1|]. split; [exact H2|]. split; [reflexivity|].
  exact (proj1 (UnmarshalTOML_fraction_lost indefinite_amd64 duration_1s_only
                  unquote_none float_1_5_only 0 H1 H2 eq_refl)).
Defined.

(** ** Row classification *)

Lemma tag_switch_tags (col : string) (val : RawValue) (tags : gmap string string)
    (log : list log_entry) :
  (tag_switch col val tags log).1 =
    match tag_text val with Some t => <[col := t]> tags | None => tags end.
Proof. destruct val; reflexivity. Qed.

Lemma tag_switch_log (col : string) (val : RawValue) (tags : gmap string string)
    (log : list log_entry) :
  (tag_switch col val tags log).2 =
    match tag_text val with Some _ => log | None => log ++ [LogTagFailed col] end.
Proof. destruct val; reflexivity. Qed.

(** The tag loop stops at the first tag equal to the column: it takes the
    tag branch exactly when the column is one of the additional tags. *)
Lemma tag_loop_spec (additional : list string) (col : string) (val : RawValue)
    (tags : gmap string string) (log : list log_entry) :
  tag_loop additional col val tags log =
    if bool_decide (col ∈ additional) then Some (tag_switch col val tags log)
    else None.
Proof.
  induction additional as [|tag rest IH]; cbn [tag_loop].
  - rewrite bool_decide_eq_false_2; [reflexivity | apply not_elem_of_nil].
  - destruct (String.eqb col tag) eqn:E; cbn [negb].
    + apply String.eqb_eq in E as ->.
      rewrite bool_decide_eq_true_2; [reflexivity | apply list_elem_of_here].
    + apply String.eqb_neq in E. rewrite IH.
      destruct (decide (col ∈ rest)) as [Hin|Hout].
      * rewrite !bool_decide_eq_true_2; [reflexivity | now apply list_elem_of_further | exact Hin].
      * rewrite !bool_decide_eq_false_2; [reflexivity | | exact Hout].
        intros [?|?]%elem_of_cons; contradiction.
Qed.

(** One visit changes the tags and the fields at the visited column only,
    and in the way [tags_after] and [fields_after] tell. *)
Lemma column_step_lookup (additional : list string)
    (tags : gmap string string) (fields : gmap string RawValue)
    (log : list log_entry) (col : string) (val : RawValue) :
  let r := column_step additional (tags, fields, log) (col, val) in
  r.1.1 !! col = tags_after additional col val (tags !! col) /\
  r.1.2 !! col = fields_after additional col val (fields !! col) /\
  (forall c, c <> col -> r.1.1 !! c = tags !! c /\ r.1.2 !! c = fields !! c).
Proof.
  unfold column_step, tags_after, fields_after, kept.
  destruct (bool_decide (is_Some (ignoredColumns !! col)) || is_nil val); simpl;
    [auto|].
  rewrite tag_loop_spec.
  destruct (bool_decide (col ∈ additional)); simpl.
  - pose proof (tag_switch_tags col val tags (log ++ [LogColumn col val])) as Ht.
    destruct (tag_switch col val tags (log ++ [LogColumn col val])) as [t l].
    simpl in *. subst t.
    destruct (tag_text val); simpl; repeat split; auto.
    + apply lookup_insert_eq.
    + now apply lookup_insert_ne.
  - assert (H : forall f : gmap string RawValue,
               f = <[col := field_value val]> fields ->
               f !! col = Some (field_value val) /\
               forall c, c <> col -> f !! c = fields !! c).
    { intros f ->. split; [apply lookup_insert_eq|].
      intros c Hc. now apply lookup_insert_ne. }
    destruct val; simpl;
      (edestruct H as [H1 H2]; [reflexivity|]);
      repeat split; auto.
Qed.

(** The tags and fields a visit produces do not depend on the log. *)
Lemma column_step_log_irrelevant (additional : list string)
    (tags : gmap string string) (fields : gmap string RawValue)
    (log1 log2 : list log_entry) (cv : string * RawValue) :
  (column_step additional (tags, fields, log1) cv).1 =
  (column_step additional (tags, fields, log2) cv).1.
Proof.
  destruct cv as [col val]. unfold column_step.
  destruct (bool_decide (is_Some (ignoredColumns !! col)) || is_nil val);
    [reflexivity|].
  rewrite !tag_loop_spec.
  destruct (bool_decide (col ∈ additional)).
  - pose proof (tag_switch_tags col val tags (log1 ++ [LogColumn col val])) as H1.
    pose proof (tag_switch_tags col val tags (log2 ++ [LogColumn col val])) as H2.
    destruct (tag_switch col val tags (log1 ++ _)), (tag_switch col val tags (log2 ++ _)).
    simpl in *. congruence.
  - destruct val; reflexivity.
Qed.

Lemma columns_fold_log_irrelevant (additional : list string)
    (l : list (string * RawValue)) :
  forall (tags : gmap string string) (fields : gmap string RawValue)
         (log1 log2 : list log_entry),
  (foldl (column_step additional) (tags, fields, log1) l).1 =
  (foldl (column_step additional) (tags, fields, log2) l).1.
Proof.
  induction l as [|cv l IH]; intros tags fields log1 log2; [reflexivity|].
  cbn [foldl].
  pose proof (column_step_log_irrelevant additional tags fields log1 log2 cv) as H.
  destruct (column_step additional (tags, fields, log1) cv) as [[t1 f1] l1].
  destruct (column_step additional (tags, fields, log2) cv) as [[t2 f2] l2].
  simpl in H. injection H as -> ->. apply IH.
Qed.

(** The whole loop over entries with distinct names. *)
Lemma columns_fold_lookup (additional : list string) (l : list (string * RawValue)) :
  NoDup l.*1 ->
  forall (tags : gmap string string) (fields : gmap string RawValue)
         (log : list log_entry),
  let r := foldl (column_step additional) (tags, fields, log) l in
  (forall col val, (col, val) ∈ l ->
     r.1.1 !! col = tags_after additional col val (tags !! col) /\
     r.1.2 !! col = fields_after additional col val (fields !! col)) /\
  (forall c, c ∉ l.*1 -> r.1.1 !! c = tags !! c /\ r.1.2 !! c = fields !! c).
Proof.
  induction l as [|[c0 v0] l IH]; intros Hnd tags fields log.
  - simpl. split; [intros ? ? []%elem_of_nil | auto].
  - apply NoDup_cons in Hnd as [Hc0 Hnd]. simpl in Hc0.
    cbn [foldl].
    destruct (column_step_lookup additional tags fields log c0 v0)
      as (Ht & Hf & Hother).
    destruct (column_step additional (tags, fields, log) (c0, v0))
      as [[t1 f1] l1] eqn:Hstep.
    simpl in Ht, Hf, Hother.
    destruct (IH Hnd t1 f1 l1) as [Hin Hout].
    split.
    + intros col val [Heq|Hin']%elem_of_cons.
      * injection Heq as -> ->.
        destruct (Hout c0 Hc0) as [-> ->]. now rewrite Ht, Hf.
      * assert (col <> c0).
        { intros ->. apply Hc0. apply list_elem_of_fmap. now exists (c0, val). }
        destruct (Hin col val Hin') as [-> ->].
        destruct (Hother col) as [-> ->]; auto.
    + intros c Hc. simpl in Hc. apply not_elem_of_cons in Hc as [Hne Hc].
      destruct (Hout c Hc) as [-> ->]. now apply Hother.
Qed.

Lemma column_step_log_grows (additional : list string)
    (tags : gmap string string) (fields : gmap string RawValue)
    (log : list log_entry) (cv : string * RawValue) (e : log_entry) :
  e ∈ log -> e ∈ (column_step additional (tags, fields, log) cv).2.
Proof.
  intros He. destruct cv as [col val]. unfold column_step.
  assert (He' : e ∈ log ++ [LogColumn col val]) by (apply elem_of_app; auto).
  destruct (bool_decide (is_Some (ignoredColumns !! col)) || is_nil val);
    [exact He'|].
  rewrite tag_loop_spec. destruct (bool_decide (col ∈ additional)).
  - pose proof (tag_switch_log col val tags (log ++ [LogColumn col val])) as Hl.
    destruct (tag_switch col val tags (log ++ [LogColumn col val])) as [t l].
    simpl in *. subst l. destruct (tag_text val); [exact He'|].
    apply elem_of_app; auto.
  - destruct val; exact He'.
Qed.

Lemma column_step_failure_logged (additional : list string)
    (tags : gmap string string) (fields : gmap string RawValue)
    (log : list log_entry) (col : string) (val : RawValue) :
  kept col val = true -> col ∈ additional -> tag_text val = None ->
  LogTagFailed col ∈ (column_step additional (tags, fields, log) (col, val)).2.
Proof.
  intros Hk Hin Hnone. unfold column_step. unfold kept in Hk.
  apply negb_true_iff in Hk. rewrite Hk, tag_loop_spec.
  rewrite bool_decide_eq_true_2 by exact Hin.
  pose proof (tag_switch_log col val tags (log ++ [LogColumn col val])) as Hl.
  destruct (tag_switch col val tags (log ++ [LogColumn col val])) as [t l].
  simpl in *. subst l. rewrite Hnone.
  apply elem_of_app. right. apply list_elem_of_here.
Qed.

Lemma columns_fold_log (additional : list string) (l : list (string * RawValue)) :
  forall (tags : gmap string string) (fields : gmap string RawValue)
         (log : list log_entry),
  let r := foldl (column_step additional) (tags, fields, log) l in
  (forall e, e ∈ log -> e ∈ r.2) /\
  (forall col val, (col, val) ∈ l -> kept col val = true -> col ∈ additional ->
                   tag_text val = None -> LogTagFailed col ∈ r.2).
Proof.
  induction l as [|[c0 v0] l IH]; intros tags fields log.
  - simpl. split; [auto | intros ? ? []%elem_of_nil].
  - cbn [foldl].
    pose proof (column_step_log_grows additional tags fields log (c0, v0)) as Hgrow.
    pose proof (column_step_failure_logged additional tags fields log c0 v0) as Hfail.
    destruct (column_step additional (tags, fields, log) (c0, v0))
      as [[t1 f1] l1].
    simpl in Hgrow, Hfail.
    destruct (IH t1 f1 l1) as [Hkeep Hlogged].
    split.
    + intros e He. apply Hkeep, Hgrow, He.
    + intros col val [Heq|Hin]%elem_of_cons Hk Ha Hn.
      * injection Heq as -> ->. apply Hkeep. now apply Hfail.
      * now apply (Hlogged col val).
Qed.

(** *** [accRow] *)

Section Rows.

Variable range_order : gmap string RawValue -> list (string * RawValue).
Hypothesis range_order_perm : forall m, range_order m ≡ₚ map_to_list m.

Local Abbreviation accRow := (postgresqlextensible.accRow range_order).
Local Abbreviation rows_loop := (postgresqlextensible.rows_loop range_order).
Local Abbreviation query_step := (postgresqlextensible.query_step range_order).
Local Abbreviation gather_loop := (postgresqlextensible.gather_loop range_order).
Local Abbreviation Gather := (postgresqlextensible.Gather range_order).

Lemma range_order_elem (m : gmap string RawValue) (c : string) (v : RawValue) :
  (c, v) ∈ range_order m <-> m !! c = Some v.
Proof. rewrite (range_order_perm m). apply elem_of_map_to_list. Qed.

Lemma range_order_NoDup (m : gmap string RawValue) : NoDup (range_order m).*1.
Proof. rewrite (range_order_perm m). apply NoDup_fst_map_to_list. Qed.

Lemma range_order_absent (m : gmap string RawValue) (c : string) :
  m !! c = None -> c ∉ (range_order m).*1.
Proof.
  intros Hnone [[c' v] [-> Hin]]%list_elem_of_fmap. simpl in Hnone.
  apply range_order_elem in Hin. congruence.
Qed.

(** The record a row that scans gives, column by column. *)
Lemma accRow_ok (p : Postgresql) (measName : string) (r : row)
    (columns : list string) (st : state) (m : gmap string RawValue)
    (address : string) :
  scanned columns r = (m, None) ->
  SanitizedAddress p = (address, None) ->
  exists tags fields log,
    accRow p measName r columns st =
      (mkState (AdditionalTags st) log (Acc st ++ [mkMetric measName fields tags]),
       None) /\
    (forall c, tags !! c =
       match m !! c with
       | Some v => tags_after (AdditionalTags st) c v
                     (identity_tags address (dbname_of m) !! c)
       | None => identity_tags address (dbname_of m) !! c
       end) /\
    (forall c, fields !! c =
       match m !! c with
       | Some v => fields_after (AdditionalTags st) c v None
       | None => None
       end) /\
    (forall e, e ∈ Log st -> e ∈ log) /\
    (forall c v, m !! c = Some v -> kept c v = true -> c ∈ AdditionalTags st ->
                 tag_text v = None -> LogTagFailed c ∈ log).
Proof.
  intros Hscan Haddr. unfold postgresqlextensible.accRow.
  unfold scanned in Hscan. rewrite Hscan, Haddr.
  fold (identity_tags address (dbname_of m)).
  destruct (columns_fold_lookup (AdditionalTags st) (range_order m)
              (range_order_NoDup m) (identity_tags address (dbname_of m)) ∅ (Log st))
    as [Hin Hout].
  destruct (columns_fold_log (AdditionalTags st) (range_order m)
              (identity_tags address (dbname_of m)) ∅ (Log st))
    as [Hgrow Hfail].
  destruct (foldl (column_step (AdditionalTags st))
              (identity_tags address (dbname_of m), ∅, Log st) (range_order m))
    as [[tags fields] log].
  simpl in Hin, Hout, Hgrow, Hfail.
  exists tags, fields, log. split; [reflexivity|].
  split; [|split; [|split]].
  - intros c. destruct (m !! c) as [v|] eqn:Hc.
    + apply range_order_elem in Hc. apply (Hin c v Hc).
    + apply (Hout c), range_order_absent, Hc.
  - intros c. destruct (m !! c) as [v|] eqn:Hc.
    + apply range_order_elem in Hc. rewrite (proj2 (Hin c v Hc)).
      now rewrite lookup_empty.
    + rewrite (proj2 (Hout c (range_order_absent m c Hc))). apply lookup_empty.
  - exact Hgrow.
  - intros c v Hc. apply Hfail. now apply range_order_elem.
Qed.

Lemma accRow_scan_error (p : Postgresql) (measName : string) (r : row)
    (columns : list string) (st : state) (m : gmap string RawValue) (e : error) :
  scanned columns r = (m, Some e) ->
  accRow p measName r columns st = (st, Some (Errorw "row scan" "" e)).
Proof.
  intros Hscan. unfold postgresqlextensible.accRow.
  unfold scanned in Hscan. now rewrite Hscan.
Qed.

(** Whether [accRow] fails, and what it adds to the accumulator, does not
    depend on the log. *)
Lemma accRow_frame (p : Postgresql) (measName : string) (r : row)
    (columns : list string) (s1 s2 : state) :
  same_output s1 s2 ->
  (accRow p measName r columns s1).2 = (accRow p measName r columns s2).2 /\
  same_output (accRow p measName r columns s1).1 (accRow p measName r columns s2).1.
Proof.
  intros [Ht Ha]. unfold postgresqlextensible.accRow.
  destruct (Scan r _ _) as [m [e|]]; [now split|].
  destruct (SanitizedAddress p) as [address [e|]]; [now split|].
  rewrite Ht.
  pose proof (columns_fold_log_irrelevant (AdditionalTags s2) (range_order m)
                (<["db":=dbname_of m]> (<["server":=address]> ∅)) ∅
                (Log s1) (Log s2)) as Hirr.
  destruct (foldl _ (_, _, Log s1) _) as [[t1 f1] l1].
  destruct (foldl _ (_, _, Log s2) _) as [[t2 f2] l2].
  simpl in Hirr. injection Hirr as -> ->.
  split; [reflexivity|]. split; simpl; [reflexivity | now rewrite Ha].
Qed.


(** *** The loop over the rows *)

Lemma rows_loop_frame (p : Postgresql) (measName : string) (columns : list string)
    (rs : list row) :
  forall s1 s2, same_output s1 s2 ->
  same_output (rows_loop p measName columns rs s1) (rows_loop p measName columns rs s2).
Proof.
  induction rs as [|r rs IH]; intros s1 s2 Hs; [exact Hs|].
  cbn [postgresqlextensible.rows_loop].
  destruct (accRow_frame p measName r columns s1 s2 Hs) as [Herr Hout].
  destruct (accRow p measName r columns s1) as [s1' e1].
  destruct (accRow p measName r columns s2) as [s2' e2].
  simpl in Herr, Hout. subst e2.
  destruct e1; [exact Hout | now apply IH].
Qed.



(** *** The loop over the descriptors *)

Lemma tags_appended (l : list string) :
  forall acc st,
    foldl (fun s t => set_tags (AdditionalTags s ++ [t]) s) (set_tags acc st) l =
    set_tags (acc ++ l) st.
Proof.
  induction l as [|t l IH]; intros acc st; cbn [foldl].
  - now rewrite app_nil_r.
  - change (set_tags (AdditionalTags (set_tags acc st) ++ [t]) (set_tags acc st))
      with (set_tags (acc ++ [t]) st).
    rewrite IH. now rewrite <- app_assoc.
Qed.

Lemma query_step_skipped (p : Postgresql) (v : Z) (st : state) (q : querydef) :
  v < Version q -> query_step p v st q = st.
Proof.
  intros H. unfold postgresqlextensible.query_step.
  apply Z.leb_gt in H. now rewrite H.
Qed.

Lemma query_step_query_error (p : Postgresql) (v : Z) (st : state) (q : querydef)
    (rows : Rows) (e : error) :
  Version q <= v ->
  DB_Query p (resolved_query p q) = (rows, Some e) ->
  query_step p v st q = log_add (LogError e) st.
Proof.
  intros Hv Hq. unfold postgresqlextensible.query_step.
  apply Z.leb_le in Hv. now rewrite Hv, Hq.
Qed.

Lemma query_step_rows (p : Postgresql) (v : Z) (st : state) (q : querydef)
    (rows : Rows) (columns : list string) :
  Version q <= v ->
  DB_Query p (resolved_query p q) = (rows, None) ->
  Rows_Columns rows = (columns, None) ->
  query_step p v st q =
    rows_loop p (measurement_of q) columns (Rows_rows rows) (set_tags (tags_of q) st).
Proof.
  intros Hv Hq Hc. unfold postgresqlextensible.query_step.
  apply Z.leb_le in Hv. rewrite Hv, Hq, Hc.
  fold (measurement_of q). unfold tags_of.
  destruct (negb (String.eqb (Tagvalue q) "")); [|reflexivity].
  now rewrite (tags_appended _ [] st).
Qed.

Lemma log_add_same_output (e : log_entry) (s1 s2 : state) :
  same_output s1 s2 -> same_output (log_add e s1) s2.
Proof. intros [? ?]. now split. Qed.

Lemma same_output_sym (s1 s2 : state) : same_output s1 s2 -> same_output s2 s1.
Proof. intros [? ?]. now split. Qed.

Lemma same_output_refl (s : state) : same_output s s.
Proof. now split. Qed.

(** What a descriptor leaves in the accumulator does not depend on the
    log it starts from. *)
Lemma query_step_frame (p : Postgresql) (v : Z) (q : querydef) (s1 s2 : state) :
  same_output s1 s2 -> same_output (query_step p v s1 q) (query_step p v s2 q).
Proof.
  intros Hs. unfold postgresqlextensible.query_step.
  destruct (Version q <=? v); [|exact Hs].
  destruct (DB_Query p (resolved_query p q)) as [rows [e|]].
  { apply log_add_same_output, same_output_sym, log_add_same_output,
      same_output_sym, Hs. }
  destruct (Rows_Columns rows) as [columns [e|]].
  { apply log_add_same_output, same_output_sym, log_add_same_output,
      same_output_sym, Hs. }
  apply rows_loop_frame.
  destruct (negb (String.eqb (Tagvalue q) "")).
  - rewrite !(tags_appended _ []). destruct Hs as [_ Ha]. now split.
  - destruct Hs as [_ Ha]. now split.
Qed.

Lemma gather_loop_frame (p : Postgresql) (v : Z) (qs : list querydef) :
  forall s1 s2, same_output s1 s2 ->
  same_output (gather_loop p v qs s1) (gather_loop p v qs s2).
Proof.
  induction qs as [|q qs IH]; intros s1 s2 Hs; [exact Hs|].
  apply IH, query_step_frame, Hs.
Qed.

Lemma gather_loop_app (p : Postgresql) (v : Z) (qs1 qs2 : list querydef) (st : state) :
  gather_loop p v (qs1 ++ qs2) st = gather_loop p v qs2 (gather_loop p v qs1 st).
Proof. apply foldl_app. Qed.

Lemma gather_loop_all_skipped (p : Postgresql) (v : Z) (qs : list querydef) :
  Forall (fun q => v < Version q) qs -> forall st, gather_loop p v qs st = st.
Proof.
  induction 1 as [|q qs Hq _ IH]; intros st; [reflexivity|].
  cbn [postgresqlextensible.gather_loop foldl].
  rewrite (query_step_skipped p v st q Hq). apply IH.
Qed.

(** *** What a descriptor adds *)

Lemma accRow_appends (p : Postgresql) (measName : string) (r : row)
    (columns : list string) (st : state) :
  exists new,
    Acc (accRow p measName r columns st).1 = Acc st ++ new /\
    Forall (fun m => m_name m = measName) new /\ (length new <= 1)%nat.
Proof.
  unfold postgresqlextensible.accRow.
  destruct (Scan r _ _) as [m [e|]].
  { exists []. rewrite app_nil_r. repeat split; [constructor | simpl; lia]. }
  destruct (SanitizedAddress p) as [address [e|]].
  { exists []. rewrite app_nil_r. repeat split; [constructor | simpl; lia]. }
  destruct (foldl _ _ _) as [[tags fields] log]. cbn [fst Acc].
  eexists. split; [reflexivity|]. split; [repeat constructor | simpl; lia].
Qed.

Lemma rows_loop_appends (p : Postgresql) (measName : string) (columns : list string)
    (rs : list row) :
  forall st, exists new,
    Acc (rows_loop p measName columns rs st) = Acc st ++ new /\
    Forall (fun m => m_name m = measName) new /\ (length new <= length rs)%nat.
Proof.
  induction rs as [|r rs IH]; intros st.
  - exists []. rewrite app_nil_r. repeat split; [constructor | simpl; lia].
  - cbn [postgresqlextensible.rows_loop].
    destruct (accRow_appends p measName r columns st) as (new1 & H1 & Hn1 & Hl1).
    destruct (accRow p measName r columns st) as [st' [e|]]; cbn [fst] in H1.
    + exists new1. cbn [log_add Acc length]. repeat split; [exact H1 | exact Hn1 | lia].
    + destruct (IH st') as (new2 & H2 & Hn2 & Hl2).
      exists (new1 ++ new2). rewrite H2, H1, app_assoc.
      repeat split; [now apply Forall_app | rewrite length_app; cbn [length]; lia].
Qed.

Lemma query_step_appends (p : Postgresql) (v : Z) (st : state) (q : querydef) :
  exists new,
    Acc (query_step p v st q) = Acc st ++ new /\
    Forall (fun m => m_name m = measurement_of q) new.
Proof.
  unfold postgresqlextensible.query_step. fold (measurement_of q).
  assert (Hnone : exists new, Acc st = Acc st ++ new /\
                    Forall (fun m => m_name m = measurement_of q) new)
    by (exists []; rewrite app_nil_r; split; [reflexivity | constructor]).
  destruct (Version q <=? v); [|exact Hnone].
  destruct (DB_Query p (resolved_query p q)) as [rows [e|]]; [exact Hnone|].
  destruct (Rows_Columns rows) as [columns [e|]]; [exact Hnone|].
  match goal with
  | |- context [postgresqlextensible.rows_loop _ _ _ _ _ ?s] =>
      destruct (rows_loop_appends p (measurement_of q) columns (Rows_rows rows) s)
        as (new & Hacc & Hnames & _);
      assert (Hs : Acc s = Acc st)
  end.
  { destruct (negb (String.eqb (Tagvalue q) "")); [|reflexivity].
    now rewrite (tags_appended _ []). }
  exists new. rewrite Hacc, Hs. now split.
Qed.

Lemma gather_loop_appends (p : Postgresql) (v : Z) (qs : list querydef) :
  forall st, exists new, Acc (gather_loop p v qs st) = Acc st ++ new.
Proof.
  induction qs as [|q qs IH]; intros st.
  - exists []. now rewrite app_nil_r.
  - cbn [postgresqlextensible.gather_loop foldl].
    destruct (query_step_appends p v st q) as (new1 & H1 & _).
    destruct (IH (query_step p v st q)) as (new2 & H2).
    exists (new1 ++ new2).
    change (foldl (postgresqlextensible.query_step range_order p v)
              (query_step p v st q) qs)
      with (gather_loop p v qs (query_step p v st q)).
    now rewrite H2, H1, app_assoc.
Qed.

(** Rows that scan give one record each, in order. *)
Lemma rows_loop_records (p : Postgresql) (measName : string) (columns : list string)
    (address : string) (rs : list row) :
  SanitizedAddress p = (address, None) ->
  Forall (fun r => (scanned columns r).2 = None) rs ->
  forall st, exists recs log,
    rows_loop p measName columns rs st
      = mkState (AdditionalTags st) log (Acc st ++ recs) /\
    Forall2 (fun r rec =>
               exists m, scanned columns r = (m, None) /\
                         record_of_cells address (AdditionalTags st) measName m rec)
            rs recs.
Proof.
  intros Haddr Hall. induction Hall as [|r rs Hr _ IH]; intros st.
  - exists [], (Log st). rewrite app_nil_r. destruct st. split; [reflexivity|constructor].
  - destruct (scanned columns r) as [m err] eqn:Hscan. cbn [snd] in Hr. subst err.
    destruct (accRow_ok p measName r columns st m address Hscan Haddr)
      as (tags & fields & log & Heq & Htags & Hfields & _).
    cbn [postgresqlextensible.rows_loop]. rewrite Heq.
    destruct (IH (mkState (AdditionalTags st) log
                    (Acc st ++ [mkMetric measName fields tags])))
      as (recs & log' & Hloop & Hrecs).
    cbn [AdditionalTags Acc] in Hloop, Hrecs.
    exists (mkMetric measName fields tags :: recs), log'.
    rewrite Hloop, <- app_assoc. split; [reflexivity|].
    constructor; [|exact Hrecs].
    exists m. split; [exact Hscan|]. repeat split; assumption.
Qed.

(** A descriptor that is due, whose query succeeds and whose rows scan,
    adds the records of its rows after those gathered before it. *)
Lemma gather_loop_records (p : Postgresql) (v : Z) (pre : list querydef)
    (q : querydef) (post : list querydef) (st : state) (rows : Rows)
    (columns : list string) (address : string) :
  Version q <= v ->
  DB_Query p (resolved_query p q) = (rows, None) ->
  Rows_Columns rows = (columns, None) ->
  SanitizedAddress p = (address, None) ->
  Forall (fun r => (scanned columns r).2 = None) (Rows_rows rows) ->
  exists recs later,
    Acc (gather_loop p v (pre ++ q :: post) st)
      = Acc (gather_loop p v pre st) ++ recs ++ later /\
    Forall2 (row_record address q columns) (Rows_rows rows) recs.
Proof.
  intros Hv Hq Hc Haddr Hall.
  rewrite gather_loop_app.
  change (gather_loop p v (q :: post) (gather_loop p v pre st))
    with (gather_loop p v post (query_step p v (gather_loop p v pre st) q)).
  rewrite (query_step_rows p v _ q rows columns Hv Hq Hc).
  destruct (rows_loop_records p (measurement_of q) columns address (Rows_rows rows)
              Haddr Hall (set_tags (tags_of q) (gather_loop p v pre st)))
    as (recs & log & Hloop & Hrecs).
  rewrite Hloop.
  destruct (gather_loop_appends p v post
              (mkState (AdditionalTags (set_tags (tags_of q) (gather_loop p v pre st)))
                 log (Acc (set_tags (tags_of q) (gather_loop p v pre st)) ++ recs)))
    as (later & Hlater).
  exists recs, later. rewrite Hlater. cbn [Acc set_tags]. rewrite <- app_assoc.
  split; [reflexivity | exact Hrecs].
Qed.

(** *** The claims about one row *)

Lemma identity_tags_other (address dbname col : string) :
  col <> "server" -> col <> "db" -> identity_tags address dbname !! col = None.
Proof.
  intros H1 H2. unfold identity_tags.
  rewrite lookup_insert_ne by congruence.
  rewrite lookup_insert_ne by congruence. apply lookup_empty.
Qed.

(** C7 (amended): for a non-null, non-ignored column whose name is one of
    the additional tags, a string or byte-sequence value becomes the tag
    of that name, with the text as value; an [int64] ([int32], [int])
    value becomes the tag with its decimal form; a value of any other
    kind, [bool] and [float64] among them, is dropped for that column
    only: the tags keep what they held, no field is made, the failure is
    logged and the record is still emitted. *)
Theorem tag_column_classified (p : Postgresql) (measName : string) (r : row)
    (columns : list string) (st : state) (m : gmap string RawValue)
    (address col : string) (val : RawValue) :
  scanned columns r = (m, None) ->
  SanitizedAddress p = (address, None) ->
  m !! col = Some val ->
  val <> VNil ->
  ignoredColumns !! col = None ->
  col ∈ AdditionalTags st ->
  exists tags fields log,
    accRow p measName r columns st =
      (mkState (AdditionalTags st) log (Acc st ++ [mkMetric measName fields tags]),
       None) /\
    fields !! col = None /\
    match val with
    | VString v | VBytes v => tags !! col = Some v
    | VInt64 v | VInt32 v | VInt v => tags !! col = Some (Sprintf_d v)
    | _ =>
        tags !! col = identity_tags address (dbname_of m) !! col /\
        LogTagFailed col ∈ log
    end.
Proof.
  intros Hscan Haddr Hcol Hnil Hign Hin.
  destruct (accRow_ok p measName r columns st m address Hscan Haddr)
    as (tags & fields & log & Heq & Htags & Hfields & _ & Hfail).
  exists tags, fields, log. split; [exact Heq|].
  assert (Hkept : kept col val = true).
  { unfold kept. rewrite Hign.
    rewrite bool_decide_eq_false_2 by (intros [? ?]; discriminate).
    destruct val; try reflexivity. contradiction. }
  specialize (Htags col). specialize (Hfields col).
  rewrite Hcol in Htags, Hfields.
  unfold tags_after in Htags. unfold fields_after in Hfields.
  rewrite Hkept, bool_decide_eq_true_2 in Htags, Hfields by exact Hin.
  simpl in Htags, Hfields. split; [exact Hfields|].
  specialize (Hfail col val Hcol Hkept Hin).
  destruct val; simpl in Htags; auto; contradiction.
Qed.

(** C8 (amended): in the record of a row, a name other than the built-in
    tag keys ["server"] and ["db"] is never a key of both the tags and
    the fields, and such a name whose column is null or ignored is a key
    of neither (a null or ignored column is never a field, whatever its
    name).  For the row [{host: "a", value: 42, secret: NULL}] with the
    tag names [{host}], the tags hold [host = "a"], the fields hold
    [value = 42], and [secret] is in neither. *)
Theorem record_tags_fields_apart (p : Postgresql) (measName : string) (r : row)
    (columns : list string) (st : state) (m : gmap string RawValue)
    (address : string) :
  scanned columns r = (m, None) ->
  SanitizedAddress p = (address, None) ->
  (exists tags fields log,
    accRow p measName r columns st =
      (mkState (AdditionalTags st) log (Acc st ++ [mkMetric measName fields tags]),
       None) /\
    (forall col, col <> "server" -> col <> "db" ->
       ~ (is_Some (tags !! col) /\ is_Some (fields !! col))) /\
    (forall col, m !! col = Some VNil \/ is_Some (ignoredColumns !! col) ->
       fields !! col = None /\
       (col <> "server" -> col <> "db" -> tags !! col = None))) /\
  (AdditionalTags st = ["host"] ->
   exists tags fields log,
    accRow p measName example_row example_columns st =
      (mkState (AdditionalTags st) log (Acc st ++ [mkMetric measName fields tags]),
       None) /\
    tags !! "host" = Some "a" /\ fields !! "host" = None /\
    fields !! "value" = Some (VInt64 42) /\ tags !! "value" = None /\
    tags !! "secret" = None /\ fields !! "secret" = None).
Proof.
  intros Hscan Haddr. split.
  - destruct (accRow_ok p measName r columns st m address Hscan Haddr)
      as (tags & fields & log & Heq & Htags & Hfields & _ & _).
    exists tags, fields, log. split; [exact Heq|]. split.
    + intros col Hs Hd [Ht Hf].
      rewrite Htags in Ht. rewrite Hfields in Hf.
      rewrite (identity_tags_other _ _ col Hs Hd) in Ht.
      destruct (m !! col) as [v|]; [|now destruct Hf].
      unfold tags_after in Ht. unfold fields_after in Hf.
      destruct (kept col v); simpl in Ht, Hf; [|now destruct Hf].
      destruct (bool_decide (col ∈ AdditionalTags st)); simpl in Ht, Hf;
        [now destruct Hf | now destruct Ht].
    + intros col Hdrop.
      assert (Hcase : m !! col = None \/ exists v, m !! col = Some v /\ kept col v = false).
      { destruct (m !! col) as [v|] eqn:Hc; [right|now left].
        exists v. split; [reflexivity|]. unfold kept.
        destruct Hdrop as [[= ->]|Hign].
        - now rewrite orb_true_r.
        - now rewrite bool_decide_eq_true_2. }
      rewrite Htags, Hfields.
      destruct Hcase as [->|(v & -> & Hk)].
      * split; [reflexivity|]. apply identity_tags_other.
      * unfold tags_after, fields_after. rewrite Hk. simpl.
        split; [reflexivity|]. apply identity_tags_other.
  - intros Hadd.
    assert (Hex : scanned example_columns example_row =
                  (<["secret" := VNil]> (<["value" := VInt64 42]>
                     (<["host" := VString "a"]> ∅)), None)).
    { vm_compute. reflexivity. }
    destruct (accRow_ok p measName example_row example_columns st _ address Hex Haddr)
      as (tags & fields & log & Heq & Htags & Hfields & _ & _).
    exists tags, fields, log. split; [exact Heq|].
    rewrite !Htags, !Hfields, Hadd.
    repeat split; vm_compute; reflexivity.
Qed.

(** *** The claims about the collection cycle *)

(** C5 (amended): when the version cannot be read the cycle is not
    aborted and [Gather] returns no error: the version is taken to be 0
    and the descriptors are run against it.  A descriptor with a minimum
    version above 0 is skipped, and no record is emitted when all are.  A
    descriptor with a minimum version of at most 0 executes: when its
    query succeeds and its rows scan, the accumulator receives, after the
    records of the descriptors before it, one record for each of its
    rows, in order. *)
Theorem Gather_version_unreadable (p : Postgresql) (st : state) (v : Z) (e : error) :
  DB_version p = (v, Some e) ->
  Gather p st = (gather_loop p 0 (Query p) st, None) /\
  (Forall (fun q => 0 < Version q) (Query p) -> (Gather p st).1 = st) /\
  (forall pre q post, Query p = pre ++ q :: post -> 0 < Version q ->
     (Gather p st).1 = gather_loop p 0 post (gather_loop p 0 pre st)) /\
  (forall pre q post rows columns address,
     Query p = pre ++ q :: post ->
     Version q <= 0 ->
     DB_Query p (resolved_query p q) = (rows, None) ->
     Rows_Columns rows = (columns, None) ->
     SanitizedAddress p = (address, None) ->
     Forall (fun r => (scanned columns r).2 = None) (Rows_rows rows) ->
     exists recs later,
       Acc (Gather p st).1 = Acc (gather_loop p 0 pre st) ++ recs ++ later /\
       Forall2 (row_record address q columns) (Rows_rows rows) recs).
Proof.
  intros Hv. unfold postgresqlextensible.Gather. rewrite Hv. cbn [fst].
  split; [reflexivity|]. split; [|split].
  - intros Hall. now apply gather_loop_all_skipped.
  - intros pre q post -> Hq. rewrite gather_loop_app.
    change (gather_loop p 0 (q :: post) (gather_loop p 0 pre st))
      with (gather_loop p 0 post (query_step p 0 (gather_loop p 0 pre st) q)).
    now rewrite (query_step_skipped p 0 _ q Hq).
  - intros pre q post rows columns address -> Hq Hrows Hc Haddr Hall.
    exact (gather_loop_records p 0 pre q post st rows columns address
             Hq Hrows Hc Haddr Hall).
Qed.

(** C6: when the query of a descriptor fails, the error is logged and
    nothing else changes; the descriptors after it run from that state,
    the accumulator receives exactly the records of the batch without the
    failing descriptor, and [Gather] returns no error.  The descriptor
    after the failing one still executes and emits its records: when it
    is due, its query succeeds and its rows scan, the accumulator
    receives, after the records gathered before the failing descriptor,
    one record for each of its rows, in order. *)
Theorem query_error_isolated (p : Postgresql) (v : Z) (pre : list querydef)
    (q : querydef) (post : list querydef) (st : state) (rows : Rows) (e : error) :
  Version q <= v ->
  DB_Query p (resolved_query p q) = (rows, Some e) ->
  query_step p v (gather_loop p v pre st) q
    = log_add (LogError e) (gather_loop p v pre st) /\
  gather_loop p v (pre ++ q :: post) st
    = gather_loop p v post (log_add (LogError e) (gather_loop p v pre st)) /\
  Acc (gather_loop p v (pre ++ q :: post) st) = Acc (gather_loop p v (pre ++ post) st) /\
  (forall st', (Gather p st').2 = None) /\
  (forall next rest rows' columns address,
     post = next :: rest ->
     Version next <= v ->
     DB_Query p (resolved_query p next) = (rows', None) ->
     Rows_Columns rows' = (columns, None) ->
     SanitizedAddress p = (address, None) ->
     Forall (fun r => (scanned columns r).2 = None) (Rows_rows rows') ->
     exists recs later,
       Acc (gather_loop p v (pre ++ q :: post) st)
         = Acc (gather_loop p v pre st) ++ recs ++ later /\
       Forall2 (row_record address next columns) (Rows_rows rows') recs).
Proof.
  intros Hv Hq.
  pose proof (query_step_query_error p v (gather_loop p v pre st) q rows e Hv Hq)
    as Hstep.
  split; [exact Hstep|]. split; [|split; [|split; [reflexivity|]]].
  - rewrite gather_loop_app.
    change (gather_loop p v (q :: post) (gather_loop p v pre st))
      with (gather_loop p v post (query_step p v (gather_loop p v pre st) q)).
    now rewrite Hstep.
  - rewrite !gather_loop_app.
    change (gather_loop p v (q :: post) (gather_loop p v pre st))
      with (gather_loop p v post (query_step p v (gather_loop p v pre st) q)).
    rewrite Hstep.
    apply (gather_loop_frame p v post), log_add_same_output, same_output_refl.
  - intros next rest rows' columns address -> Hnext Hrows Hc Haddr Hall.
    destruct (gather_loop_records p v (pre ++ [q]) next rest st rows' columns address
                Hnext Hrows Hc Haddr Hall) as (recs & later & Hacc & Hrecs).
    exists recs, later. split; [|exact Hrecs].
    rewrite <- app_assoc in Hacc. cbn [app] in Hacc. rewrite Hacc.
    rewrite gather_loop_app.
    change (gather_loop p v [q] (gather_loop p v pre st))
      with (query_step p v (gather_loop p v pre st) q).
    now rewrite Hstep.
Qed.


End Rows.

(** ** The claims at concrete plugins *)

Lemma range_listed_perm (m : gmap string RawValue) : range_listed m ≡ₚ map_to_list m.
Proof. reflexivity. Qed.

(** C5, as stated, fails: the version of [unreachable_version] cannot be
    read, and its cycle still emits a record and returns no error. *)
Lemma Gather_unreachable_still_emits :
  (DB_version unreachable_version).2 <> None /\
  Acc (Gather range_listed unreachable_version state0).1 =
    [mkMetric "postgresql" (<["value" := VInt64 42]> ∅)
       (<["host" := "a"]> (identity_tags "srv" "postgres"))] /\
  (Gather range_listed unreachable_version state0).2 = None.
Proof. split; [discriminate|]. split; vm_compute; reflexivity. Qed.

Lemma Gather_version_unreadable_witness :
  DB_version unreachable_version = (0, Some (ErrForeign "connection refused")) /\
  Version (mkQuery "SELECT 1" "" 0 false "host" "") <= 0 /\
  Forall (fun r => (scanned example_columns r).2 = None) (Rows_rows example_rows) /\
  exists recs later,
    Acc (Gather range_listed unreachable_version state0).1
      = Acc (gather_loop range_listed unreachable_version 0 [] state0) ++ recs ++ later /\
    Forall2 (row_record "srv" (mkQuery "SELECT 1" "" 0 false "host" "") example_columns)
            (Rows_rows example_rows) recs.
Proof.
  assert (Hv : Version (mkQuery "SELECT 1" "" 0 false "host" "") <= 0) by (simpl; lia).
  assert (Hall : Forall (fun r => (scanned example_columns r).2 = None)
                   (Rows_rows example_rows))
    by (constructor; [vm_compute; reflexivity | constructor]).
  split; [reflexivity|]. split; [exact Hv|]. split; [exact Hall|].
  exact (proj2 (proj2 (proj2
    (Gather_version_unreadable range_listed range_listed_perm unreachable_version
       state0 0 (ErrForeign "connection refused") eq_refl)))
    [] (mkQuery "SELECT 1" "" 0 false "host" "") [] example_rows example_columns "srv"
    eq_refl Hv eq_refl eq_refl eq_refl Hall).
Defined.

Lemma query_error_isolated_witness :
  Version (mkQuery "bad" "" 901 false "" "") <= 1000 /\
  DB_Query flaky_server (resolved_query flaky_server (mkQuery "bad" "" 901 false "" ""))
    = (mkRows ([], None) [], Some (ErrForeign "syntax error")) /\
  Version (mkQuery "good" "" 901 false "host" "m") <= 1000 /\
  Forall (fun r => (scanned example_columns r).2 = None) (Rows_rows example_rows) /\
  exists recs later,
    Acc (gather_loop range_listed flaky_server 1000
           ([] ++ mkQuery "bad" "" 901 false "" ""
               :: [mkQuery "good" "" 901 false "host" "m"]) state0)
      = Acc (gather_loop range_listed flaky_server 1000 [] state0) ++ recs ++ later /\
    Forall2 (row_record "srv" (mkQuery "good" "" 901 false "host" "m") example_columns)
            (Rows_rows example_rows) recs.
Proof.
  assert (H1 : Version (mkQuery "bad" "" 901 false "" "") <= 1000) by (simpl; lia).
  assert (H2 : Version (mkQuery "good" "" 901 false "host" "m") <= 1000)
    by (simpl; lia).
  assert (Hall : Forall (fun r => (scanned example_columns r).2 = None)
                   (Rows_rows example_rows))
    by (constructor; [vm_compute; reflexivity | constructor]).
  split; [exact H1|]. split; [reflexivity|]. split; [exact H2|]. split; [exact Hall|].
  exact (proj2 (proj2 (proj2 (proj2
    (query_error_isolated range_listed range_listed_perm flaky_server 1000 []
       (mkQuery "bad" "" 901 false "" "") [mkQuery "good" "" 901 false "host" "m"]
       state0 (mkRows ([], None) []) (ErrForeign "syntax error") H1 eq_refl))))
    (mkQuery "good" "" 901 false "host" "m") [] example_rows example_columns "srv"
    eq_refl H2 eq_refl eq_refl eq_refl Hall).
Defined.

(** The cycle of [flaky_server]: the first query fails, and the record
    of the second descriptor is gathered all the same. *)
Lemma flaky_server_gathers :
  Acc (Gather range_listed flaky_server state0).1 =
    [mkMetric "m" (<["value" := VInt64 42]> ∅)
       (<["host" := "a"]> (identity_tags "srv" "postgres"))] /\
  head (Log (Gather range_listed flaky_server state0).1)
  = Some (LogError (ErrForeign "syntax error")).
Proof. split; vm_compute; reflexivity. Qed.


(** C7, as stated, fails on a [bool]: a tag column holding [true] gets no
    tag at all; it is dropped like a [float64], with the failure logged. *)
Lemma bool_tag_column_dropped :
  accRow range_listed plain_server "m" (mkRow [VBool true] None) ["flag"]
    (mkState ["flag"] [] [])
  = (mkState ["flag"] [LogColumn "flag" (VBool true); LogTagFailed "flag"]
       [mkMetric "m" ∅ (identity_tags "srv" "postgres")], None) /\
  identity_tags "srv" "postgres" !! "flag" = None.
Proof. split; vm_compute; reflexivity. Qed.

Lemma tag_column_classified_witness :
  scanned example_columns example_row
    = ((scanned example_columns example_row).1, None) /\
  SanitizedAddress plain_server = ("srv", None) /\
  (scanned example_columns example_row).1 !! "host" = Some (VString "a") /\
  VString "a" <> VNil /\
  ignoredColumns !! "host" = None /\
  "host" ∈ AdditionalTags (mkState ["host"] [] []) /\
  exists tags fields log,
    accRow range_listed plain_server "m" example_row example_columns
      (mkState ["host"] [] [])
    = (mkState ["host"] log ([] ++ [mkMetric "m" fields tags]), None) /\
    fields !! "host" = None /\
    tags !! "host" = Some "a".
Proof.
  assert (Hne : VString "a" <> VNil) by discriminate.
  assert (Hin : "host" ∈ AdditionalTags (mkState ["host"] [] []))
    by apply list_elem_of_here.
  split; [reflexivity|]. split; [reflexivity|]. split; [reflexivity|].
  split; [exact Hne|]. split; [reflexivity|]. split; [exact Hin|].
  exact (tag_column_classified range_listed range_listed_perm plain_server "m"
           example_row example_columns (mkState ["host"] [] [])
           (scanned example_columns example_row).1 "srv" "host" (VString "a")
           eq_refl eq_refl eq_refl Hne eq_refl Hin).
Defined.

(** C8, as stated, fails on a column named like a built-in tag: the
    column ["db"] is a field of the record, and ["db"] is a tag of it as
    well. *)
Lemma db_column_in_tags_and_fields :
  accRow range_listed plain_server "m" (mkRow [VInt64 1] None) ["db"] state0
  = (mkState [] [LogColumn "db" (VInt64 1)]
       [mkMetric "m" (<["db" := VInt64 1]> ∅) (identity_tags "srv" "postgres")],
     None) /\
  identity_tags "srv" "postgres" !! "db" = Some "postgres" /\
  (<["db" := VInt64 1]> (∅ : gmap string RawValue)) !! "db" = Some (VInt64 1).
Proof. repeat split; vm_compute; reflexivity. Qed.

Lemma record_tags_fields_apart_witness :
  scanned example_columns example_row
    = ((scanned example_columns example_row).1, None) /\
  SanitizedAddress plain_server = ("srv", None) /\
  exists tags fields log,
    accRow range_listed plain_server "m" example_row example_columns
      (mkState ["host"] [] [])
    = (mkState ["host"] log ([] ++ [mkMetric "m" fields tags]), None) /\
    tags !! "host" = Some "a" /\ fields !! "host" = None /\
    fields !! "value" = Some (VInt64 42) /\ tags !! "value" = None /\
    tags !! "secret" = None /\ fields !! "secret" = None.
Proof.
  split; [reflexivity|]. split; [reflexivity|].
  exact (proj2 (record_tags_fields_apart range_listed range_listed_perm plain_server
                  "m" example_row example_columns (mkState ["host"] [] [])
                  (scanned example_columns example_row).1 "srv" eq_refl eq_refl)
               eq_refl).
Defined.

(** * Further properties of the code *)

(** ** [SetVersion] over a sequence of attempts *)

Lemma SetVersion_run_set (vs : list string) (v : string) :
  v <> "" ->
  SetVersion_run vs v = (v, repeat (Some ErrVersionAlreadySet) (length vs)).
Proof.
  intros Hv. induction vs as [|a vs IH]; [reflexivity|].
  cbn [SetVersion_run]. unfold internal.SetVersion.
  destruct (String.eqb v "") eqn:E; [apply String.eqb_eq in E; contradiction|].
  cbn [negb]. now rewrite IH.
Qed.

(** Whatever attempts are made, the version ends as the first non-empty
    string of the sequence: the empty attempts before it succeed and
    change nothing, it succeeds, and every attempt after it fails with
    [ErrVersionAlreadySet]. *)
Theorem SetVersion_first_nonempty_wins (empties : list string) (v : string)
    (later : list string) :
  Forall (fun a => a = "") empties ->
  v <> "" ->
  SetVersion_run (empties ++ v :: later) internal.version_init =
    (v, repeat None (length empties) ++ None
          :: repeat (Some ErrVersionAlreadySet) (length later)).
Proof.
  intros Hempty Hv. induction Hempty as [|a empties -> _ IH].
  - cbn [app SetVersion_run length repeat]. unfold internal.SetVersion at 1.
    cbn [internal.version_init String.eqb negb].
    now rewrite (SetVersion_run_set later v Hv).
  - cbn [app SetVersion_run length repeat]. unfold internal.SetVersion at 1.
    cbn [internal.version_init String.eqb negb].
    unfold internal.version_init in IH. now rewrite IH.
Qed.

Lemma SetVersion_first_nonempty_wins_witness :
  Forall (fun a => a = "") [""] /\ "1.0" <> "" /\
  SetVersion_run ([""] ++ "1.0" :: ["2.0"]) internal.version_init =
    ("1.0", [None; None; Some ErrVersionAlreadySet]).
Proof.
  assert (H1 : Forall (fun a => a = "") [""]) by (constructor; [reflexivity|constructor]).
  assert (H2 : "1.0" <> "") by discriminate.
  split; [exact H1|]. split; [exact H2|].
  exact (SetVersion_first_nonempty_wins [""] "1.0" ["2.0"] H1 H2).
Defined.

(** ** [time.Unix] and the format [unix] *)

(** [time.Unix(sec, nsec)] is the instant [sec] seconds and [nsec]
    nanoseconds from the epoch, with a normalised nanosecond field. *)
Lemma time_Unix_instant (sec nsec : Z) :
  int64 nsec -> - 2 ^ 62 <= sec <= 2 ^ 62 ->
  instant_ns (time_Unix sec nsec) = sec * 1000000000 + nsec /\
  0 <= unix_nsec (time_Unix sec nsec) < 1000000000.
Proof.
  intros Hn Hs. unfold time_Unix.
  destruct ((nsec <? 0) || (1000000000 <=? nsec)) eqn:Hout; cycle 1.
  { apply orb_false_iff in Hout as [H1 H2].
    apply Z.ltb_ge in H1. apply Z.leb_gt in H2.
    unfold instant_ns; simpl. lia. }
  clear Hout.
  pose proof (Z.quot_rem' nsec 1000000000) as Hqr.
  set (q := Z.quot nsec 1000000000) in *.
  set (r := Z.rem nsec 1000000000) in *.
  assert (Hr : - 1000000000 < r < 1000000000).
  { subst r. destruct (Z_le_gt_dec 0 nsec).
    - pose proof (Z.rem_bound_pos nsec 1000000000 ltac:(lia) ltac:(lia)). lia.
    - pose proof (Z.rem_bound_pos_neg nsec 1000000000 ltac:(lia) ltac:(lia)). lia. }
  assert (Hsign : (0 <= nsec -> 0 <= r) /\ (nsec <= 0 -> r <= 0)).
  { subst r. split; intros.
    - pose proof (Z.rem_bound_pos nsec 1000000000 ltac:(lia) ltac:(lia)). lia.
    - pose proof (Z.rem_bound_pos_neg nsec 1000000000 ltac:(lia) ltac:(lia)). lia. }
  unfold int64, int64_min, int64_max in Hn.
  assert (Hq : - 9223372037 <= q <= 9223372037) by lia.
  unfold add64, sub64, mul64.
  rewrite (wrap64_id (sec + q)) by (unfold int64, int64_min, int64_max; lia).
  rewrite (wrap64_id (q * 1000000000)) by (unfold int64, int64_min, int64_max; lia).
  replace (nsec - q * 1000000000) with r by lia.
  rewrite (wrap64_id r) by (unfold int64, int64_min, int64_max; lia).
  destruct (r <? 0) eqn:Hneg.
  - apply Z.ltb_lt in Hneg.
    rewrite (wrap64_id (r + 1000000000))
      by (unfold int64, int64_min, int64_max; lia).
    rewrite (wrap64_id (sec + q - 1))
      by (unfold int64, int64_min, int64_max; lia).
    unfold instant_ns; simpl. lia.
  - apply Z.ltb_ge in Hneg. unfold instant_ns; simpl. lia.
Qed.

Section UnixFormats.

Variable int64_unrepresentable : float64 -> Z.
Hypothesis unrepresentable_int64 : forall f, int64 (int64_unrepresentable f).
Variable LoadLocation : string -> Location * option error.
Variable ParseInLocation : string -> string -> Location -> Time * option error.

Local Abbreviation parseComponents := (internal.parseComponents int64_unrepresentable).
Local Abbreviation parseUnix := (internal.parseUnix int64_unrepresentable).
Local Abbreviation ParseTimestamp :=
  (internal.ParseTimestamp int64_unrepresentable LoadLocation ParseInLocation).

Lemma parseUnixTimeComponents_fraction_int64 (a b : string) (i f : Z) :
  internal.parseUnixTimeComponents a b = (i, f, None) -> int64 f.
Proof.
  unfold internal.parseUnixTimeComponents.
  destruct (strconv.ParseInt a) as [x [e|]] eqn:Ha; [discriminate|].
  destruct (strconv.ParseInt (copy "000000000" b)) as [y [e|]] eqn:Hb; [discriminate|].
  intros [= <- <-]. exact (ParseInt_int64 _ _ Hb).
Qed.

Lemma parseComponents_fraction_int64 (ts : timestamp) (i f : Z) :
  parseComponents ts = (i, f, None) -> int64 f.
Proof.
  assert (H0 : int64 0) by (unfold int64, int64_min, int64_max; lia).
  intros H. destruct ts as [s|z|x|]; simpl in H.
  - destruct (strings.SplitN2 s ".") as [|p0 [|p1 [|]]] eqn:E1;
      try (now apply parseUnixTimeComponents_fraction_int64 in H);
      (destruct (strings.SplitN2 s ",") as [|q0 [|q1 [|]]] eqn:E2;
       try (now apply parseUnixTimeComponents_fraction_int64 in H);
       destruct (strconv.ParseInt s) as [y [e|]] eqn:Hs; try discriminate;
       injection H as <- <-; exact H0).
  - injection H as <- <-. exact H0.
  - injection H as <- <-.
    apply (int64_of_float64_int64 int64_unrepresentable unrepresentable_int64).
  - discriminate.
Qed.

(** With the format [unix], a timestamp that parses is the instant
    [integer] seconds plus [fractional] nanoseconds from the epoch, in
    UTC, the two numbers being those of the decomposition (for integer
    parts up to 2^62 in magnitude). *)
Theorem ParseTimestamp_unix_seconds (ts : timestamp) (loc : string) (t : Time) :
  ParseTimestamp "unix" ts loc = (t, None) ->
  exists integer fractional,
    parseComponents ts = (integer, fractional, None) /\
    location t = UTC /\
    (- 2 ^ 62 <= integer <= 2 ^ 62 ->
     instant_ns t = integer * 1000000000 + fractional /\
     0 <= unix_nsec t < 1000000000).
Proof.
  intros Hparse.
  change (ParseTimestamp "unix" ts loc) with (parseUnix "unix" ts) in Hparse.
  unfold internal.parseUnix in Hparse.
  destruct (parseComponents ts) as [[i f] [e|]] eqn:Hc; [discriminate|].
  cbn in Hparse. injection Hparse as <-.
  exists i, f. split; [reflexivity|]. split; [reflexivity|].
  intros Hi.
  pose proof (parseComponents_fraction_int64 ts i f Hc) as Hf.
  destruct (time_Unix_instant i f Hf Hi) as [H1 H2].
  unfold instant_ns in *. simpl. auto.
Qed.

(** With one of the four Unix formats, [ParseTimestamp] fails exactly
    when the decomposition of the timestamp fails, with the error of the
    decomposition and the epoch as time: the "unsupported type" branch of
    the format switch of [parseUnix] is never taken. *)
Theorem ParseTimestamp_unix_errors (format : string) (ts : timestamp) (loc : string) :
  unix_format format = true ->
  (ParseTimestamp format ts loc).2 = (parseComponents ts).2 /\
  ((parseComponents ts).2 <> None ->
   (ParseTimestamp format ts loc).1 = mkTime 0 0 Local).
Proof.
  intros Hfmt.
  assert (Hcases : format = "unix" \/ format = "unix_ms" \/ format = "unix_us"
                   \/ format = "unix_ns").
  { unfold unix_format in Hfmt.
    repeat (apply orb_true_iff in Hfmt as [Hfmt|Hfmt]);
      apply String.eqb_eq in Hfmt; auto. }
  assert (Hunix : ParseTimestamp format ts loc = parseUnix format ts).
  { unfold internal.ParseTimestamp.
    destruct Hcases as [-> | [-> | [-> | ->]]]; reflexivity. }
  rewrite Hunix. unfold internal.parseUnix.
  destruct (parseComponents ts) as [[i f] [e|]]; cbn [snd fst].
  - split; [reflexivity|]. intros _. reflexivity.
  - split; [|intros H; now elim H].
    destruct Hcases as [-> | [-> | [-> | ->]]]; reflexivity.
Qed.

End UnixFormats.

Lemma ParseTimestamp_unix_seconds_witness :
  internal.ParseTimestamp indefinite_amd64 no_location no_layout "unix"
    (TsString "-1.5") "" = (mkTime (-1) 500000000 UTC, None) /\
  exists integer fractional,
    internal.parseComponents indefinite_amd64 (TsString "-1.5")
      = (integer, fractional, None) /\
    location (mkTime (-1) 500000000 UTC) = UTC /\
    (- 2 ^ 62 <= integer <= 2 ^ 62 ->
     instant_ns (mkTime (-1) 500000000 UTC) = integer * 1000000000 + fractional /\
     0 <= unix_nsec (mkTime (-1) 500000000 UTC) < 1000000000).
Proof.
  split; [reflexivity|].
  exact (ParseTimestamp_unix_seconds indefinite_amd64 indefinite_amd64_int64
           no_location no_layout (TsString "-1.5") "" (mkTime (-1) 500000000 UTC)
           eq_refl).
Defined.

Lemma ParseTimestamp_unix_errors_witness :
  unix_format "unix_ms" = true /\
  (internal.ParseTimestamp indefinite_amd64 no_location no_layout "unix_ms" TsOther "").2
    = (internal.parseComponents indefinite_amd64 TsOther).2.
Proof.
  split; [reflexivity|].
  exact (proj1 (ParseTimestamp_unix_errors indefinite_amd64 no_location no_layout
                  "unix_ms" TsOther "" eq_refl)).
Defined.

(** ** The leading digits of the fraction *)

Lemma digit_not_sign (c : ascii) (d : Z) :
  strconv.digit c = Some d -> Ascii.eqb c "+" = false /\ Ascii.eqb c "-" = false.
Proof.
  intros H. split.
  - destruct (Ascii.eqb c "+") eqn:E; [|reflexivity].
    apply Ascii.eqb_eq in E. subst c. discriminate.
  - destruct (Ascii.eqb c "-") eqn:E; [|reflexivity].
    apply Ascii.eqb_eq in E. subst c. discriminate.
Qed.

Lemma all_digits_cons (c : ascii) (s : string) :
  all_digits (String c s) = true <->
  (exists d, strconv.digit c = Some d) /\ all_digits s = true.
Proof.
  unfold all_digits. simpl. rewrite andb_true_iff.
  destruct (strconv.digit c) as [d|]; split; intros [H1 H2]; split; eauto;
    try discriminate. now destruct H1.
Qed.

Lemma digits_from_shift (s : string) :
  forall n, digits_from s n = n * 10 ^ Z.of_nat (String.length s) + digits_from s 0.
Proof.
  induction s as [|c s IH]; intros n.
  - simpl. lia.
  - cbn [digits_from String.length]. rewrite IH, (IH (0 * 10 + _)).
    rewrite Nat2Z.inj_succ, Z.pow_succ_r by lia. lia.
Qed.

Lemma digits_from_bounds (s : string) :
  all_digits s = true -> 0 <= digits_from s 0 < 10 ^ Z.of_nat (String.length s).
Proof.
  induction s as [|c s IH]; intros H.
  - simpl. lia.
  - apply all_digits_cons in H as [[d Hd] Hs].
    cbn [digits_from String.length]. rewrite Hd.
    pose proof (digit_nonneg c d Hd). specialize (IH Hs).
    rewrite digits_from_shift.
    rewrite Nat2Z.inj_succ, Z.pow_succ_r by lia. nia.
Qed.

Lemma ParseUint_loop_digits (s : string) :
  forall n, all_digits s = true -> 0 <= n -> digits_from s n <= strconv.maxUint64 ->
  strconv.ParseUint_loop s n = inr (digits_from s n).
Proof.
  induction s as [|c s IH]; intros n H Hn Hmax; [reflexivity|].
  apply all_digits_cons in H as [[d Hd] Hs].
  cbn [strconv.ParseUint_loop digits_from] in *. rewrite Hd in *.
  pose proof (digit_nonneg c d Hd) as Hd'.
  pose proof (digits_from_bounds s Hs) as Hb.
  rewrite digits_from_shift in Hmax.
  assert (Hpow : 1 <= 10 ^ Z.of_nat (String.length s)) by (apply Z.pow_le_mono_r with (b:=0) (c:=Z.of_nat (String.length s)) (a:=10); lia).
  assert (Hn1 : n * 10 + d <= strconv.maxUint64) by nia.
  unfold strconv.maxUint64 in *.
  replace (((2 ^ 64 - 1) / 10 + 1 <=? n)) with false
    by (symmetry; apply Z.leb_gt;
        change ((2 ^ 64 - 1) / 10 + 1) with 1844674407370955162; lia).
  replace (2 ^ 64 - 1 <? n * 10 + d) with false by (symmetry; apply Z.ltb_ge; lia).
  apply IH; [exact Hs | lia | rewrite digits_from_shift; lia].
Qed.

(** A non-empty string of digits below 2^63 parses as the number it
    denotes. *)
Lemma ParseInt_digits (s : string) :
  all_digits s = true -> s <> "" -> digits_value s < 2 ^ 63 ->
  strconv.ParseInt s = (digits_value s, None).
Proof.
  intros H Hne Hlt. destruct s as [|c s]; [contradiction|].
  pose proof H as H'. apply all_digits_cons in H' as [[d Hd] Hs].
  destruct (digit_not_sign c d Hd) as [Hplus Hminus].
  unfold strconv.ParseInt. rewrite Hplus, Hminus. cbn [orb].
  unfold strconv.ParseUint.
  rewrite (ParseUint_loop_digits (String c s) 0 H ltac:(lia)
             ltac:(unfold digits_value in Hlt; unfold strconv.maxUint64; lia)).
  fold (digits_value (String c s)).
  cbn [negb andb].
  replace (2 ^ 63 <=? digits_value (String c s)) with false
    by (symmetry; apply Z.leb_gt; lia).
  reflexivity.
Qed.

Lemma digits_from_app (a b : string) (n : Z) :
  digits_from (a +:+ b) n = digits_from b (digits_from a n).
Proof. revert n. induction a as [|c a IH]; intros n; simpl; [reflexivity | apply IH]. Qed.

Lemma all_digits_app (a b : string) :
  all_digits (a +:+ b) = all_digits a && all_digits b.
Proof.
  unfold all_digits. induction a as [|c a IH]; simpl; [reflexivity|].
  rewrite IH. apply andb_assoc.
Qed.

Lemma length_app_string (a b : string) :
  String.length (a +:+ b) = (String.length a + String.length b)%nat.
Proof. induction a as [|c a IH]; simpl; [reflexivity | now rewrite IH]. Qed.

Lemma zeros_facts (k : nat) :
  let z := string_of_list_ascii (repeat "0"%char k) in
  all_digits z = true /\ String.length z = k /\ forall n, digits_from z n = n * 10 ^ Z.of_nat k.
Proof.
  induction k as [|k (IH1 & IH2 & IH3)]; cbn [repeat string_of_list_ascii].
  - repeat split. intros n. simpl. lia.
  - split; [|split].
    + apply all_digits_cons. split; [now exists 0 | exact IH1].
    + simpl. now rewrite IH2.
    + intros n. cbn [digits_from]. rewrite IH3.
      change (strconv.digit "0") with (Some 0).
      rewrite Nat2Z.inj_succ, Z.pow_succ_r by lia. lia.
Qed.

Lemma length_substring_le (n : nat) (s : string) :
  (String.length (substring 0 n s) <= n)%nat.
Proof.
  revert s. induction n as [|n IH]; intros [|c s]; simpl; try lia.
  specialize (IH s). lia.
Qed.

(** The fraction is read as leading digits: when the (first nine bytes of
    the) right segment are digits only, of value [v] and [k] in number,
    the decomposition succeeds with the nanosecond count [v * 10^(9-k)],
    which is never negative, whatever the sign of the integer part. *)
Theorem parseUnixTimeComponents_leading_digits (left right : string) (integer : Z) :
  strconv.ParseInt left = (integer, None) ->
  all_digits (substring 0 9 right) = true ->
  let lead := substring 0 9 right in
  let nanos := digits_value lead * 10 ^ Z.of_nat (9 - String.length lead) in
  internal.parseUnixTimeComponents left right = (integer, nanos, None) /\
  0 <= nanos < 1000000000.
Proof.
  intros Hleft Hdigits lead nanos.
  pose proof (length_substring_le 9 right) as Hlen. fold lead in Hlen, Hdigits.
  destruct (zeros_facts (9 - String.length lead)) as (Hz1 & Hz2 & Hz3).
  set (zeros := string_of_list_ascii (repeat "0"%char (9 - String.length lead))) in *.
  pose proof (digits_from_bounds lead Hdigits) as Hb.
  assert (Hval : digits_value (lead +:+ zeros) = nanos).
  { unfold digits_value. rewrite digits_from_app, Hz3. reflexivity. }
  assert (Hrange : 0 <= nanos < 1000000000).
  { unfold nanos, digits_value.
    assert (Hpow : 10 ^ Z.of_nat (String.length lead)
                   * 10 ^ Z.of_nat (9 - String.length lead) = 1000000000).
    { rewrite <- Z.pow_add_r by lia.
      replace (Z.of_nat (String.length lead) + Z.of_nat (9 - String.length lead))
        with 9 by lia. reflexivity. }
    assert (0 < 10 ^ Z.of_nat (9 - String.length lead))
      by (apply Z.pow_pos_nonneg; lia).
    nia. }
  split; [|exact Hrange].
  unfold internal.parseUnixTimeComponents. rewrite Hleft, copy_zeros.
  unfold rpad0. fold lead. fold zeros.
  rewrite ParseInt_digits.
  - now rewrite Hval.
  - rewrite all_digits_app, Hdigits, Hz1. reflexivity.
  - intros Hempty. apply (f_equal String.length) in Hempty.
    rewrite length_app_string, Hz2 in Hempty. simpl in Hempty. lia.
  - rewrite Hval. lia.
Qed.

Lemma parseUnixTimeComponents_leading_digits_witness :
  strconv.ParseInt "-1" = (-1, None) /\
  all_digits (substring 0 9 "5") = true /\
  internal.parseUnixTimeComponents "-1" "5" = (-1, 500000000, None).
Proof.
  split; [reflexivity|]. split; [reflexivity|].
  exact (proj1 (parseUnixTimeComponents_leading_digits "-1" "5" (-1) eq_refl eq_refl)).
Defined.

(** ** Configuration literals *)

Lemma TrimRight1_snoc (s : string) (c : ascii) :
  bytes.TrimRight1 (s +:+ String c "") c = bytes.TrimRight1 s c.
Proof.
  induction s as [|a s IH]; simpl.
  - now rewrite Ascii.eqb_refl.
  - now rewrite IH.
Qed.

(** One more cutset byte at either end changes nothing for [Trim]. *)
Lemma Trim1_wrapped (s : string) (c : ascii) :
  bytes.Trim1 (String c (s +:+ String c "")) c = bytes.Trim1 s c.
Proof.
  unfold bytes.Trim1. cbn [bytes.TrimLeft1]. rewrite Ascii.eqb_refl.
  induction s as [|a s IH]; simpl.
  - now rewrite Ascii.eqb_refl.
  - destruct (Ascii.eqb a c) eqn:E; [exact IH|].
    now rewrite <- (TrimRight1_snoc (String a s) c).
Qed.

Section Literals.

Variable int64_unrepresentable : float64 -> Z.
Variable ParseDuration : string -> Z * option error.
Variable Unquote : string -> string * option error.
Variable ParseFloat : string -> float64 * option error.
Variable ParseStrictBytes : string -> Z * option error.

Hypothesis ParseDuration_error_zero :
  forall s d e, ParseDuration s = (d, Some e) -> d = 0.

Local Abbreviation Duration_UnmarshalTOML :=
  (internal.Duration_UnmarshalTOML int64_unrepresentable ParseDuration Unquote ParseFloat).
Local Abbreviation Size_UnmarshalTOML :=
  (internal.Size_UnmarshalTOML Unquote ParseStrictBytes).

(** A duration literal is never refused and the duration held before is
    never kept: the result is the same from any previous value; and a
    pair of single quotes around the literal changes nothing. *)
Theorem Duration_UnmarshalTOML_lenient (d d' : Z) (b : string) :
  (Duration_UnmarshalTOML d b).2 = None /\
  Duration_UnmarshalTOML d b = Duration_UnmarshalTOML d' b /\
  Duration_UnmarshalTOML d (String "'" (b +:+ "'")) = Duration_UnmarshalTOML d b.
Proof.
  split; [|split].
  - apply (UnmarshalTOML_no_error int64_unrepresentable ParseDuration Unquote ParseFloat).
  - reflexivity.
  - unfold internal.Duration_UnmarshalTOML. now rewrite Trim1_wrapped.
Qed.

(** A literal that is no duration expression and no quoted duration, and
    that reads as the integer [n], is [n] seconds: the 64-bit product
    [n * 1e9], which is [n * 1e9] itself when that is an [int64]. *)
Theorem Duration_UnmarshalTOML_integer_seconds (d d1 n : Z) (b : string) (e : error) :
  ParseDuration (bytes.Trim1 b "'") = (d1, Some e) ->
  not_quoted_duration ParseDuration Unquote (bytes.Trim1 b "'") ->
  strconv.ParseInt (bytes.Trim1 b "'") = (n, None) ->
  Duration_UnmarshalTOML d b = (mul64 1000000000 n, None) /\
  (int64 (n * 1000000000) -> Duration_UnmarshalTOML d b = (n * 1000000000, None)).
Proof.
  intros H1 H2 H3.
  pose proof (UnmarshalTOML_fallthrough int64_unrepresentable ParseDuration Unquote
                ParseFloat ParseDuration_error_zero d d1 b e H1 H2) as H.
  cbv zeta in H. rewrite H3 in H. split; [exact H|].
  intros Hfit. rewrite H. unfold mul64, internal.Second.
  rewrite wrap64_id; [f_equal; lia|]. now rewrite Z.mul_comm.
Qed.

(** A size literal is all or nothing: an integer literal is the size
    without the byte-size parser being asked; an error leaves the size
    held before untouched; and a size that is stored comes from the
    integer reading or from the byte-size reading of the unquoted
    literal. *)
Theorem Size_UnmarshalTOML_atomic (s : Z) (b : string) :
  (forall v, strconv.ParseInt (bytes.Trim1 b "'") = (v, None) ->
             Size_UnmarshalTOML s b = (v, None)) /\
  ((Size_UnmarshalTOML s b).2 <> None -> (Size_UnmarshalTOML s b).1 = s) /\
  ((Size_UnmarshalTOML s b).2 = None ->
   strconv.ParseInt (bytes.Trim1 b "'") = ((Size_UnmarshalTOML s b).1, None) \/
   exists uq, Unquote (bytes.Trim1 b "'") = (uq, None) /\
              ParseStrictBytes uq = ((Size_UnmarshalTOML s b).1, None)).
Proof.
  unfold internal.Size_UnmarshalTOML.
  destruct (strconv.ParseInt (bytes.Trim1 b "'")) as [v0 [e0|]] eqn:Hint.
  - split; [intros v [=]|].
    destruct (Unquote (bytes.Trim1 b "'")) as [uq [e1|]] eqn:Huq; cbn [fst snd].
    + split; [reflexivity | intros [=]].
    + destruct (ParseStrictBytes uq) as [v1 [e2|]] eqn:Hb; cbn [fst snd].
      * split; [reflexivity | intros [=]].
      * split; [intros H; now elim H|]. intros _. right. now exists uq.
  - split; [now intros v [= <-]|]. cbn [fst snd].
    split; [intros H; now elim H | intros _; now left].
Qed.

End Literals.

Lemma Duration_UnmarshalTOML_integer_seconds_witness :
  duration_1s_only (bytes.Trim1 "10" "'") = (0, Some (ErrForeign "time: invalid duration")) /\
  not_quoted_duration duration_1s_only unquote_none (bytes.Trim1 "10" "'") /\
  strconv.ParseInt (bytes.Trim1 "10" "'") = (10, None) /\
  internal.Duration_UnmarshalTOML indefinite_amd64 duration_1s_only unquote_none
    float_1_5_only 0 "10" = (mul64 1000000000 10, None).
Proof.
  assert (H2 : not_quoted_duration duration_1s_only unquote_none (bytes.Trim1 "10" "'"))
    by (intros uq H; discriminate H).
  split; [reflexivity|]. split; [exact H2|]. split; [reflexivity|].
  exact (proj1 (Duration_UnmarshalTOML_integer_seconds indefinite_amd64 duration_1s_only
                  unquote_none float_1_5_only duration_1s_only_zero 0 0 10 "10"
                  (ErrForeign "time: invalid duration") eq_refl H2 eq_refl)).
Defined.

(** ** Reading lines *)

Lemma Size_UnmarshalTOML_atomic_witness :
  strconv.ParseInt (bytes.Trim1 "'2048'" "'") = (2048, None) /\
  internal.Size_UnmarshalTOML unquote_none bytes_1KiB_only 0 "'2048'" = (2048, None).
Proof.
  split; [reflexivity|].
  exact (proj1 (Size_UnmarshalTOML_atomic unquote_none bytes_1KiB_only 0 "'2048'")
           2048 eq_refl).
Defined.

Lemma append_snoc_assoc (a : string) (c : ascii) (b : string) :
  (a +:+ String c "") +:+ b = a +:+ String c b.
Proof.
  induction a as [|x a IH]; [reflexivity|].
  change (String x ((a +:+ String c "") +:+ b) = String x (a +:+ String c b)).
  now rewrite IH.
Qed.

Lemma append_empty_r (a : string) : a +:+ "" = a.
Proof.
  induction a as [|x a IH]; [reflexivity|].
  change (String x (a +:+ "") = String x a). now rewrite IH.
Qed.

Lemma ReadString_results_line (body rest : string) :
  occurs "010" body = false ->
  forall cur,
    internal.ReadString_results (body +:+ String "010" rest) cur =
    ((cur +:+ body) +:+ String "010" "") :: internal.ReadString_results rest "".
Proof.
  induction body as [|c body IH]; intros Hfree cur.
  - change ("" +:+ String "010" rest) with (String "010" rest).
    cbn [internal.ReadString_results]. rewrite Ascii.eqb_refl.
    now rewrite append_empty_r.
  - simpl in Hfree. apply orb_false_iff in Hfree as [Hc Hb].
    change (String c body +:+ String "010" rest)
      with (String c (body +:+ String "010" rest)).
    cbn [internal.ReadString_results]. rewrite Hc.
    rewrite (IH Hb). now rewrite append_snoc_assoc.
Qed.

Lemma ReadString_results_tail (tail : string) :
  occurs "010" tail = false -> forall cur, internal.ReadString_results tail cur = [].
Proof.
  induction tail as [|c tail IH]; intros Hfree cur; [reflexivity|].
  simpl in Hfree. apply orb_false_iff in Hfree as [Hc Hb].
  cbn [internal.ReadString_results]. rewrite Hc. now apply IH.
Qed.

Lemma ReadString_results_join (bodies : list string) (tail : string) :
  Forall (fun body => occurs "010" body = false) bodies ->
  occurs "010" tail = false ->
  internal.ReadString_results (join_lines bodies tail) "" =
  map (fun body => body +:+ String "010" "") bodies.
Proof.
  intros Hb Ht. induction Hb as [|body bodies Hfree _ IH].
  - now apply ReadString_results_tail.
  - cbn [join_lines map]. rewrite (ReadString_results_line body _ Hfree ""), IH.
    reflexivity.
Qed.

Lemma TrimRight1_free (s : string) :
  occurs "010" s = false -> s <> "" -> bytes.TrimRight1 s "010" = Some s.
Proof.
  induction s as [|a s IH]; intros Hfree Hne; [contradiction|].
  simpl in Hfree. apply orb_false_iff in Hfree as [Ha Hs].
  cbn [bytes.TrimRight1]. destruct s as [|b s].
  - cbn [bytes.TrimRight1]. now rewrite Ha.
  - now rewrite (IH Hs ltac:(discriminate)).
Qed.

(** Trimming a line read up to its newline gives the line without it. *)
Lemma Trim1_line (body : string) :
  occurs "010" body = false -> bytes.Trim1 (body +:+ String "010" "") "010" = body.
Proof.
  intros Hfree. unfold bytes.Trim1. destruct body as [|c body]; [reflexivity|].
  pose proof Hfree as Hfree'. simpl in Hfree'.
  apply orb_false_iff in Hfree' as [Hc _].
  change (String c body +:+ String "010" "") with (String c (body +:+ String "010" "")).
  cbn [bytes.TrimLeft1]. rewrite Hc.
  change (String c (body +:+ String "010" "")) with (String c body +:+ String "010" "").
  rewrite TrimRight1_snoc, TrimRight1_free; [reflexivity | exact Hfree | discriminate].
Qed.

Lemma ReadLines_loop_window (bodies : list string) (offset n : Z) :
  Forall (fun body => occurs "010" body = false) bodies ->
  0 <= offset -> 0 <= n -> offset + n <= int64_max ->
  forall i ret,
    0 <= i -> i + Z.of_nat (length bodies) <= int64_max ->
    internal.ReadLines_loop (map (fun body => body +:+ String "010" "") bodies)
      i offset n ret =
    ret ++ drop (Z.to_nat (offset - i)) (take (Z.to_nat (offset + n - i)) bodies).
Proof.
  intros Hfree Ho Hn Hsum.
  assert (Hbound : add64 n (internal.int_of_uint offset) = n + offset).
  { unfold add64, internal.int_of_uint, int64_max in *.
    rewrite (wrap64_id offset) by (unfold int64, int64_min, int64_max; lia).
    apply wrap64_id. unfold int64, int64_min, int64_max. lia. }
  assert (Hoff : internal.int_of_uint offset = offset).
  { unfold internal.int_of_uint, int64_max in *.
    apply wrap64_id. unfold int64, int64_min, int64_max. lia. }
  induction Hfree as [|body bodies Hb _ IH]; intros i ret Hi Hlen.
  - cbn [map internal.ReadLines_loop]. rewrite take_nil, drop_nil, app_nil_r.
    now destruct ((i <? add64 n (internal.int_of_uint offset)) || (n <? 0)).
  - cbn [map internal.ReadLines_loop]. rewrite Hbound, Hoff.
    cbn [length] in Hlen.
    assert (Hnext : add64 i 1 = i + 1).
    { unfold add64. apply wrap64_id. unfold int64, int64_min, int64_max in *. lia. }
    replace (n <? 0) with false by (symmetry; apply Z.ltb_ge; lia).
    rewrite orb_false_r.
    destruct (i <? n + offset) eqn:Hcond.
    + apply Z.ltb_lt in Hcond.
      replace (Z.to_nat (offset + n - i)) with (S (Z.to_nat (offset + n - (i + 1))))
        by lia.
      cbn [take]. rewrite Hnext.
      destruct (i <? offset) eqn:Hskip.
      * apply Z.ltb_lt in Hskip.
        replace (Z.to_nat (offset - i)) with (S (Z.to_nat (offset - (i + 1)))) by lia.
        cbn [drop]. apply IH; lia.
      * apply Z.ltb_ge in Hskip.
        replace (Z.to_nat (offset - i)) with 0%nat by lia.
        cbn [drop]. rewrite (Trim1_line body Hb), IH by lia.
        replace (Z.to_nat (offset - (i + 1))) with 0%nat by lia.
        cbn [drop]. now rewrite <- app_assoc.
    + apply Z.ltb_ge in Hcond.
      replace (Z.to_nat (offset + n - i)) with 0%nat by lia.
      cbn [take]. now rewrite drop_nil, app_nil_r.
Qed.

Lemma ReadLines_loop_all (bodies : list string) (offset n : Z) :
  Forall (fun body => occurs "010" body = false) bodies ->
  0 <= offset <= int64_max -> n < 0 ->
  forall i ret,
    0 <= i -> i + Z.of_nat (length bodies) <= int64_max ->
    internal.ReadLines_loop (map (fun body => body +:+ String "010" "") bodies)
      i offset n ret =
    ret ++ drop (Z.to_nat (offset - i)) bodies.
Proof.
  intros Hfree Ho Hn.
  assert (Hoff : internal.int_of_uint offset = offset).
  { unfold internal.int_of_uint, int64_max in *.
    apply wrap64_id. unfold int64, int64_min, int64_max. lia. }
  induction Hfree as [|body bodies Hb _ IH]; intros i ret Hi Hlen.
  - cbn [map internal.ReadLines_loop]. rewrite drop_nil, app_nil_r.
    now destruct ((i <? add64 n (internal.int_of_uint offset)) || (n <? 0)).
  - cbn [map internal.ReadLines_loop]. rewrite Hoff.
    cbn [length] in Hlen.
    assert (Hnext : add64 i 1 = i + 1).
    { unfold add64. apply wrap64_id. unfold int64, int64_min, int64_max in *. lia. }
    replace (n <? 0) with true by (symmetry; apply Z.ltb_lt; lia).
    rewrite orb_true_r, Hnext.
    destruct (i <? offset) eqn:Hskip.
    + apply Z.ltb_lt in Hskip.
      replace (Z.to_nat (offset - i)) with (S (Z.to_nat (offset - (i + 1)))) by lia.
      cbn [drop]. apply IH; lia.
    + apply Z.ltb_ge in Hskip.
      replace (Z.to_nat (offset - i)) with 0%nat by lia.
      cbn [drop]. rewrite (Trim1_line body Hb), IH by lia.
      replace (Z.to_nat (offset - (i + 1))) with 0%nat by lia.
      cbn [drop]. now rewrite <- app_assoc.
Qed.

Section Files.

Variable os_Open : string -> file * option error.

Local Abbreviation ReadLinesOffsetN := (internal.ReadLinesOffsetN os_Open).
Local Abbreviation ReadLines := (internal.ReadLines os_Open).

(** Of a file that opens, whose complete lines are [bodies],
    [ReadLinesOffsetN] with [n >= 0] returns the [n] lines that follow
    the first [offset] ones (fewer when the file ends), each without its
    newline; what follows the last newline is not a line. *)
Theorem ReadLinesOffsetN_window (filename : string) (f : file)
    (bodies : list string) (tail : string) (offset n : Z) :
  os_Open filename = (f, None) ->
  file_data f = join_lines bodies tail ->
  Forall (fun body => occurs "010" body = false) bodies ->
  occurs "010" tail = false ->
  0 <= offset -> 0 <= n -> offset + n <= int64_max ->
  Z.of_nat (length bodies) <= int64_max ->
  ReadLinesOffsetN filename offset n =
    (take (Z.to_nat n) (drop (Z.to_nat offset) bodies), None).
Proof.
  intros Hopen Hdata Hb Ht Ho Hn Hsum Hlen.
  unfold internal.ReadLinesOffsetN. rewrite Hopen, Hdata.
  rewrite (ReadString_results_join bodies tail Hb Ht).
  rewrite (ReadLines_loop_window bodies offset n Hb Ho Hn Hsum 0 []) by lia.
  cbn [app]. rewrite !Z.sub_0_r.
  rewrite take_drop_commute. do 3 f_equal. lia.
Qed.

(** With a negative [n], and so for [ReadLines], every complete line
    after the first [offset] ones is returned; the unterminated end of
    the file never is. *)
Theorem ReadLines_complete_lines (filename : string) (f : file)
    (bodies : list string) (tail : string) (offset n : Z) :
  os_Open filename = (f, None) ->
  file_data f = join_lines bodies tail ->
  Forall (fun body => occurs "010" body = false) bodies ->
  occurs "010" tail = false ->
  0 <= offset <= int64_max -> n < 0 ->
  Z.of_nat (length bodies) <= int64_max ->
  ReadLinesOffsetN filename offset n = (drop (Z.to_nat offset) bodies, None) /\
  ReadLines filename = (bodies, None).
Proof.
  intros Hopen Hdata Hb Ht Ho Hn Hlen.
  unfold internal.ReadLines, internal.ReadLinesOffsetN. rewrite Hopen, Hdata.
  rewrite (ReadString_results_join bodies tail Hb Ht).
  rewrite (ReadLines_loop_all bodies offset n Hb Ho Hn 0 []) by lia.
  rewrite (ReadLines_loop_all bodies 0 (-1) Hb) by (unfold int64_max in *; lia).
  cbn [app]. rewrite !Z.sub_0_r. split; reflexivity.
Qed.

End Files.

Lemma ReadLinesOffsetN_window_witness :
  one_file "lines.txt" = (mkFile (join_lines ["a"; "b"; "c"] "d") None, None) /\
  Forall (fun body => occurs "010" body = false) ["a"; "b"; "c"] /\
  occurs "010" "d" = false /\
  internal.ReadLinesOffsetN one_file "lines.txt" 1 1 = (["b"], None).
Proof.
  assert (Hb : Forall (fun body => occurs "010" body = false) ["a"; "b"; "c"])
    by (repeat constructor).
  split; [reflexivity|]. split; [exact Hb|]. split; [reflexivity|].
  exact (ReadLinesOffsetN_window one_file "lines.txt"
           (mkFile (join_lines ["a"; "b"; "c"] "d") None) ["a"; "b"; "c"] "d" 1 1
           eq_refl eq_refl Hb eq_refl
           ltac:(lia) ltac:(lia) ltac:(unfold int64_max; lia)
           ltac:(unfold int64_max; simpl; lia)).
Defined.

Lemma ReadLines_complete_lines_witness :
  one_file "lines.txt" = (mkFile (join_lines ["a"; "b"; "c"] "d") None, None) /\
  Forall (fun body => occurs "010" body = false) ["a"; "b"; "c"] /\
  occurs "010" "d" = false /\
  internal.ReadLines one_file "lines.txt" = (["a"; "b"; "c"], None).
Proof.
  assert (Hb : Forall (fun body => occurs "010" body = false) ["a"; "b"; "c"])
    by (repeat constructor).
  split; [reflexivity|]. split; [exact Hb|]. split; [reflexivity|].
  exact (proj2 (ReadLines_complete_lines one_file "lines.txt"
           (mkFile (join_lines ["a"; "b"; "c"] "d") None) ["a"; "b"; "c"] "d" 0 (-1)
           eq_refl eq_refl Hb eq_refl
           ltac:(unfold int64_max; lia) ltac:(lia)
           ltac:(unfold int64_max; simpl; lia))).
Defined.

(** ** Random strings *)

Lemma alphanum_index (k : nat) :
  (k < 62)%nat -> exists c, String.get k internal.alphanum = Some c /\ alnum c = true.
Proof.
  intros Hk.
  do 62 (destruct k as [|k]; [eexists; split; reflexivity|]).
  lia.
Qed.

Lemma RandomString_loop_alphanumeric (bytes : string) :
  exists s, internal.RandomString_loop bytes = Some s /\
            String.length s = String.length bytes /\ all_alnum s = true.
Proof.
  induction bytes as [|b bytes (s & Hs & Hlen & Hall)].
  - exists "". repeat split.
  - cbn [internal.RandomString_loop].
    destruct (alphanum_index
                (N.to_nat (N_of_ascii b mod N.of_nat (String.length internal.alphanum))))
      as (c & Hc & Hal).
    { change (N.of_nat (String.length internal.alphanum)) with 62%N.
      pose proof (N.mod_lt (N_of_ascii b) 62 ltac:(discriminate)). lia. }
    rewrite Hc, Hs. exists (String c s). split; [reflexivity|].
    split; [simpl; now rewrite Hlen|].
    unfold all_alnum in *. simpl. now rewrite Hal, Hall.
Qed.

Section Random.

Variable rand_Read : nat -> string.

(** [RandomString(n)] never indexes out of [alphanum]; it returns [n]
    characters, each a digit or an ASCII letter, whatever bytes the
    random source gives. *)
Theorem RandomString_alphanumeric (n : nat) :
  String.length (rand_Read n) = n ->
  exists s, internal.RandomString rand_Read n = Some s /\
            String.length s = n /\ all_alnum s = true.
Proof.
  intros Hn. unfold internal.RandomString.
  destruct (RandomString_loop_alphanumeric (rand_Read n)) as (s & Hs & Hlen & Hall).
  exists s. rewrite Hlen, Hn in *. auto.
Qed.

End Random.

Lemma RandomString_alphanumeric_witness :
  String.length (constant_bytes 3) = 3%nat /\
  exists s, internal.RandomString constant_bytes 3 = Some s /\
            String.length s = 3%nat /\ all_alnum s = true.
Proof.
  split; [reflexivity|].
  exact (RandomString_alphanumeric constant_bytes 3 eq_refl).
Defined.

(** ** Snake case *)

Section Snake.

Variable IsUpper : Z -> bool.
Variable IsLower : Z -> bool.
Variable ToLower : Z -> Z.

Local Abbreviation SnakeCase := (internal.SnakeCase IsUpper IsLower ToLower).
Local Abbreviation SnakeCase_step := (internal.SnakeCase_step IsUpper IsLower ToLower).
Local Abbreviation snake_of := (snake IsUpper IsLower ToLower).

(** The loop of [SnakeCase] from index [length pre] on. *)
Lemma SnakeCase_fold (post : list Z) :
  forall pre out,
    foldl (SnakeCase_step (pre ++ post)) out (seq (length pre) (length post)) =
    out ++ snake_of (last pre) post.
Proof.
  induction post as [|r rest IH]; intros pre out.
  - simpl. now rewrite app_nil_r.
  - cbn [length seq foldl].
    assert (Hstep : SnakeCase_step (pre ++ r :: rest) out (length pre) =
              out ++ (if negb (match last pre with Some _ => false | None => true end)
                         && IsUpper r
                         && (match rest with next :: _ => IsLower next | [] => false end
                             || match last pre with Some q => IsLower q | None => false end)
                      then [internal.underscore] else [])
                  ++ [ToLower r]).
    { unfold internal.SnakeCase_step.
      rewrite (list_lookup_middle pre rest r (length pre) eq_refl). cbn [default].
      assert (Hnext : ((length pre + 1 <? length (pre ++ r :: rest))%nat
                       && IsLower (default 0 ((pre ++ r :: rest) !! (length pre + 1)%nat)))
                      = match rest with next :: _ => IsLower next | [] => false end).
      { rewrite length_app. cbn [length].
        rewrite lookup_app_r by lia.
        replace (length pre + 1 - length pre)%nat with 1%nat by lia.
        destruct rest as [|next rest'].
        - cbn [length]. replace (length pre + 1 <? length pre + 1)%nat with false
            by (symmetry; apply Nat.ltb_ge; lia). reflexivity.
        - cbn [length lookup]. replace (length pre + 1 <? length pre + S (S (length rest')))%nat
            with true by (symmetry; apply Nat.ltb_lt; lia). reflexivity. }
      rewrite Hnext.
      destruct pre as [|p pre'] using rev_ind.
      - reflexivity.
      - clear IHpre'. rewrite last_snoc, length_app. cbn [length negb].
        replace (0 <? length pre' + 1)%nat with true
          by (symmetry; apply Nat.ltb_lt; lia).
        replace (length pre' + 1 - 1)%nat with (length pre') by lia.
        rewrite <- app_assoc. cbn [app].
        rewrite (list_lookup_middle pre' (r :: rest) p (length pre') eq_refl).
        cbn [default from_option id andb].
        destruct (IsUpper r && _); cbn [app]; now rewrite <- ?app_assoc. }
    rewrite Hstep.
    replace (pre ++ r :: rest) with ((pre ++ [r]) ++ rest)
      by (now rewrite <- app_assoc).
    replace (S (length pre)) with (length (pre ++ [r]))
      by (rewrite length_app; simpl; lia).
    rewrite IH, last_snoc. cbn [snake].
    rewrite <- !app_assoc. reflexivity.
Qed.

Lemma SnakeCase_snake (runes : list Z) : SnakeCase runes = snake_of None runes.
Proof. apply (SnakeCase_fold runes [] []). Qed.

Lemma snake_settled (runes : list Z) :
  Forall (settled IsUpper ToLower) runes ->
  forall prev, snake_of prev runes = runes.
Proof.
  induction 1 as [|r runes [Hu Hl] _ IH]; intros prev; [reflexivity|].
  cbn [snake]. rewrite Hu, Hl, andb_false_r. cbn [andb app]. now rewrite IH.
Qed.

Lemma snake_output_settled (runes : list Z) :
  settled IsUpper ToLower internal.underscore ->
  Forall (fun r => settled IsUpper ToLower (ToLower r)) runes ->
  forall prev, Forall (settled IsUpper ToLower) (snake_of prev runes).
Proof.
  intros Hus. induction 1 as [|r runes Hr _ IH]; intros prev; [constructor|].
  cbn [snake]. apply Forall_app. split.
  - destruct (_ && _); [constructor; [exact Hus | constructor] | constructor].
  - constructor; [exact Hr | apply IH].
Qed.

Lemma snake_length (runes : list Z) :
  forall prev,
    (length runes <= length (snake_of prev runes) <= 2 * length runes)%nat /\
    (prev = None -> runes <> [] ->
     (length (snake_of prev runes) <= 2 * length runes - 1)%nat).
Proof.
  induction runes as [|r runes IH]; intros prev.
  - simpl. split; [lia | intros _ H; now elim H].
  - cbn [snake]. rewrite length_app. cbn [length].
    destruct (IH (Some r)) as [[H1 H2] _].
    split.
    + destruct (_ && _); cbn [length]; lia.
    + intros -> _. cbn [negb andb length]. lia.
Qed.

(** Text without upper-case runes, each its own lower case, is returned
    as it is. *)
Theorem SnakeCase_lower_unchanged (runes : list Z) :
  Forall (settled IsUpper ToLower) runes -> SnakeCase runes = runes.
Proof. intros H. rewrite SnakeCase_snake. now apply snake_settled. Qed.

(** [SnakeCase] is idempotent on text whose lower-cased runes are not
    upper case and are their own lower case (as is the underscore). *)
Theorem SnakeCase_idempotent (runes : list Z) :
  settled IsUpper ToLower internal.underscore ->
  Forall (fun r => settled IsUpper ToLower (ToLower r)) runes ->
  SnakeCase (SnakeCase runes) = SnakeCase runes.
Proof.
  intros Hus Hr. rewrite (SnakeCase_snake (SnakeCase runes)).
  apply snake_settled. rewrite SnakeCase_snake. now apply snake_output_settled.
Qed.

(** [SnakeCase] keeps every rune, lower-cased and in order, and inserts
    at most one underscore before each rune but the first: the result has
    at least as many runes as the text and fewer than twice as many. *)
Theorem SnakeCase_length (runes : list Z) :
  runes <> [] ->
  (length runes <= length (SnakeCase runes) <= 2 * length runes - 1)%nat /\
  head (SnakeCase runes) = ToLower <$> head runes.
Proof.
  intros Hne. rewrite SnakeCase_snake.
  destruct (snake_length runes None) as [[H1 _] H2].
  split; [split; [exact H1 | now apply H2]|].
  destruct runes as [|r runes]; [contradiction|]. reflexivity.
Qed.

End Snake.

Lemma SnakeCase_lower_unchanged_witness :
  Forall (settled ascii_IsUpper ascii_ToLower) [97; 95; 98] /\
  internal.SnakeCase ascii_IsUpper ascii_IsLower ascii_ToLower [97; 95; 98] = [97; 95; 98].
Proof.
  assert (H : Forall (settled ascii_IsUpper ascii_ToLower) [97; 95; 98])
    by (repeat constructor).
  split; [exact H|].
  exact (SnakeCase_lower_unchanged ascii_IsUpper ascii_IsLower ascii_ToLower [97; 95; 98] H).
Defined.

Lemma SnakeCase_idempotent_witness :
  settled ascii_IsUpper ascii_ToLower internal.underscore /\
  Forall (fun r => settled ascii_IsUpper ascii_ToLower (ascii_ToLower r)) [97; 66; 67; 100] /\
  internal.SnakeCase ascii_IsUpper ascii_IsLower ascii_ToLower
    (internal.SnakeCase ascii_IsUpper ascii_IsLower ascii_ToLower [97; 66; 67; 100])
  = internal.SnakeCase ascii_IsUpper ascii_IsLower ascii_ToLower [97; 66; 67; 100].
Proof.
  assert (H1 : settled ascii_IsUpper ascii_ToLower internal.underscore)
    by (split; reflexivity).
  assert (H2 : Forall (fun r => settled ascii_IsUpper ascii_ToLower (ascii_ToLower r))
                 [97; 66; 67; 100]) by (repeat constructor).
  split; [exact H1|]. split; [exact H2|].
  exact (SnakeCase_idempotent ascii_IsUpper ascii_IsLower ascii_ToLower
           [97; 66; 67; 100] H1 H2).
Defined.

Lemma SnakeCase_length_witness :
  [97; 66] <> ([] : list Z) /\
  (length [97%Z; 66%Z]
   <= length (internal.SnakeCase ascii_IsUpper ascii_IsLower ascii_ToLower [97%Z; 66%Z])
   <= 2 * length [97%Z; 66%Z] - 1)%nat.
Proof.
  assert (H : [97; 66] <> ([] : list Z)) by discriminate.
  split; [exact H|].
  exact (proj1 (SnakeCase_length ascii_IsUpper ascii_IsLower ascii_ToLower [97; 66] H)).
Defined.

(** ** Aligned times *)

Lemma Location_eqb_eq (a b : Location) : Location_eqb a b = true -> a = b.
Proof.
  destruct a, b; simpl; try discriminate; try reflexivity.
  intros H. apply String.eqb_eq in H. now subst.
Qed.

Lemma MonoTime_eqb_eq (a b : MonoTime) : MonoTime_eqb a b = true <-> a = b.
Proof.
  split.
  - unfold MonoTime_eqb. intros H.
    apply andb_true_iff in H as [H Hm]. apply andb_true_iff in H as [H Hl].
    apply andb_true_iff in H as [Hs Hn].
    apply Z.eqb_eq in Hs. apply Z.eqb_eq in Hn. apply Location_eqb_eq in Hl.
    destruct a as [[sa na la] ma], b as [[sb nb lb] mb]. simpl in *. subst.
    destruct ma as [x|], mb as [y|]; try discriminate; [|reflexivity].
    apply Z.eqb_eq in Hm. now subst.
  - intros <-. unfold MonoTime_eqb. rewrite !Z.eqb_refl. cbn [andb].
    assert (Hl : Location_eqb (location (wall_time a)) (location (wall_time a)) = true)
      by (destruct (location (wall_time a)); simpl; [| |apply String.eqb_refl];
          reflexivity).
    rewrite Hl. cbn [andb].
    destruct (monotonic a); [apply Z.eqb_refl | reflexivity].
Qed.

Section Align.

Variable Time_Truncate : MonoTime -> Z -> MonoTime.
Variable Time_Add : MonoTime -> Z -> MonoTime.
Variable Time_Sub : MonoTime -> MonoTime -> Z.

Local Abbreviation AlignTime := (internal.AlignTime Time_Truncate Time_Add).
Local Abbreviation AlignDuration :=
  (internal.AlignDuration Time_Truncate Time_Add Time_Sub).

(** For a positive interval, where [Truncate] strips the monotonic
    reading and rounds down to a multiple of the interval since the zero
    time, [Add] of a time without a reading adds to the wall time, and
    [Sub] of two times of which one has no reading is the difference of
    the wall times: the time [AlignTime] returns is [tm] plus
    [AlignDuration], and it is a multiple of the interval.  For a time
    without a monotonic reading the duration is at least 0 and less than
    the interval, and an aligned time is returned as it is.  A time with
    a monotonic reading, as [time.Now] gives it, is never [==] to its
    truncation: the duration is then more than 0 and at most the
    interval, and an aligned time is moved by a whole interval. *)
Theorem AlignDuration_next_multiple (tm : MonoTime) (interval : Z) :
  0 < interval ->
  monotonic (Time_Truncate tm interval) = None ->
  absolute (Time_Truncate tm interval) = absolute tm - absolute tm mod interval ->
  (absolute (Time_Truncate tm interval) = absolute tm ->
   wall_time (Time_Truncate tm interval) = wall_time tm) ->
  monotonic (Time_Add (Time_Truncate tm interval) interval) = None ->
  absolute (Time_Add (Time_Truncate tm interval) interval)
    = absolute (Time_Truncate tm interval) + interval ->
  (monotonic (AlignTime tm interval) = None \/ monotonic tm = None ->
   Time_Sub (AlignTime tm interval) tm = absolute (AlignTime tm interval) - absolute tm) ->
  absolute (AlignTime tm interval) = absolute tm + AlignDuration tm interval /\
  (absolute tm + AlignDuration tm interval) mod interval = 0 /\
  (monotonic tm = None ->
   0 <= AlignDuration tm interval < interval /\
   (absolute tm mod interval = 0 -> AlignTime tm interval = tm)) /\
  (monotonic tm <> None ->
   0 < AlignDuration tm interval <= interval /\
   AlignTime tm interval <> tm /\
   (absolute tm mod interval = 0 -> AlignDuration tm interval = interval)).
Proof.
  intros Hpos Hstrip Htrunc Hsame Hplain Hadd Hsub.
  pose proof (Z.mod_pos_bound (absolute tm) interval Hpos) as Hmod.
  unfold internal.AlignDuration.
  unfold internal.AlignTime in *.
  destruct (MonoTime_eqb (Time_Truncate tm interval) tm) eqn:Heq.
  - apply MonoTime_eqb_eq in Heq. rewrite Heq in Htrunc, Hstrip.
    rewrite (Hsub (or_intror Hstrip)).
    assert (Hz : absolute tm mod interval = 0) by lia.
    split; [lia|]. split.
    { replace (absolute tm + (absolute tm - absolute tm)) with (absolute tm) by lia.
      exact Hz. }
    split; [intros _; split; [lia | reflexivity] | intros Hm; contradiction].
  - rewrite (Hsub (or_introl Hplain)), Hadd, Htrunc.
    assert (Hmultiple :
              (absolute tm
               + (absolute tm - absolute tm mod interval + interval - absolute tm))
              mod interval = 0).
    { replace (absolute tm
               + (absolute tm - absolute tm mod interval + interval - absolute tm))
        with (absolute tm - absolute tm mod interval + 1 * interval) by lia.
      rewrite Z.mod_add by lia.
      rewrite Zminus_mod, Z.mod_mod, Z.sub_diag by lia. apply Z.mod_0_l. lia. }
    split; [lia|]. split; [exact Hmultiple|]. split.
    + intros Hnone.
      assert (Hnz : absolute tm mod interval <> 0).
      { intros Hz. rewrite Hz, Z.sub_0_r in Htrunc.
        assert (Hsame' : Time_Truncate tm interval = tm).
        { pose proof (Hsame Htrunc) as Hw.
          destruct (Time_Truncate tm interval) as [w m], tm as [w' m'].
          simpl in *. now subst. }
        apply MonoTime_eqb_eq in Hsame'. congruence. }
      split; [lia | intros Hz; contradiction].
    + intros Hsome. split; [lia|]. split; [|intros Hz; lia].
      intros Heq'. rewrite Heq' in Hplain. contradiction.
Qed.

End Align.

Lemma AlignDuration_next_multiple_witness :
  0 < 5000000000 /\
  monotonic now_aligned <> None /\
  absolute now_aligned mod 5000000000 = 0 /\
  internal.AlignDuration plain_Truncate plain_Add plain_Sub now_aligned 5000000000
  = 5000000000.
Proof.
  assert (H0 : 0 < 5000000000) by lia.
  assert (H1 : monotonic (plain_Truncate now_aligned 5000000000) = None)
    by reflexivity.
  assert (H2 : absolute (plain_Truncate now_aligned 5000000000)
               = absolute now_aligned - absolute now_aligned mod 5000000000)
    by (vm_compute; reflexivity).
  assert (H3 : absolute (plain_Truncate now_aligned 5000000000) = absolute now_aligned ->
               wall_time (plain_Truncate now_aligned 5000000000) = wall_time now_aligned)
    by (intros _; vm_compute; reflexivity).
  assert (H4 : monotonic (plain_Add (plain_Truncate now_aligned 5000000000) 5000000000)
               = None) by reflexivity.
  assert (H5 : absolute (plain_Add (plain_Truncate now_aligned 5000000000) 5000000000)
               = absolute (plain_Truncate now_aligned 5000000000) + 5000000000)
    by (vm_compute; reflexivity).
  assert (H6 : monotonic (internal.AlignTime plain_Truncate plain_Add now_aligned
                            5000000000) = None \/ monotonic now_aligned = None ->
               plain_Sub (internal.AlignTime plain_Truncate plain_Add now_aligned
                            5000000000) now_aligned
               = absolute (internal.AlignTime plain_Truncate plain_Add now_aligned
                             5000000000) - absolute now_aligned)
    by (intros _; vm_compute; reflexivity).
  assert (Hm : monotonic now_aligned <> None) by discriminate.
  assert (Hz : absolute now_aligned mod 5000000000 = 0) by (vm_compute; reflexivity).
  split; [exact H0|]. split; [exact Hm|]. split; [exact Hz|].
  apply (AlignDuration_next_multiple plain_Truncate plain_Add plain_Sub
           now_aligned 5000000000 H0 H1 H2 H3 H4 H5 H6); [exact Hm | exact Hz].
Defined.

(** ** The cells of a row *)

Lemma new_cells_snoc (columns : list string) (c : string) :
  new_cells (columns ++ [c]) = <[c := VNil]> (new_cells columns).
Proof. unfold new_cells. now rewrite foldl_app. Qed.

Lemma new_cells_lookup (columns : list string) (c : string) :
  new_cells columns !! c = if bool_decide (c ∈ columns) then Some VNil else None.
Proof.
  induction columns as [|a columns IH] using rev_ind.
  - rewrite bool_decide_eq_false_2 by apply not_elem_of_nil. apply lookup_empty.
  - rewrite new_cells_snoc. destruct (decide (a = c)) as [->|Hne].
    + rewrite lookup_insert_eq, bool_decide_eq_true_2; [reflexivity|].
      apply elem_of_app. right. apply list_elem_of_here.
    + rewrite lookup_insert_ne by exact Hne. rewrite IH.
      destruct (decide (c ∈ columns)) as [Hin|Hout].
      * rewrite !bool_decide_eq_true_2; [reflexivity | | exact Hin].
        apply elem_of_app. now left.
      * rewrite !bool_decide_eq_false_2; [reflexivity | | exact Hout].
        intros [?|Hc%list_elem_of_singleton]%elem_of_app; [contradiction | congruence].
Qed.

(** There are as many cells as distinct column names. *)
Lemma size_new_cells (columns : list string) :
  (size (new_cells columns) <= length columns)%nat /\
  (size (new_cells columns) = length columns <-> NoDup columns).
Proof.
  induction columns as [|a columns [IHle IHeq]] using rev_ind.
  - split; [reflexivity|]. split; [constructor | reflexivity].
  - rewrite new_cells_snoc, length_app. cbn [length].
    rewrite map_size_insert, new_cells_lookup.
    rewrite NoDup_app.
    destruct (decide (a ∈ columns)) as [Hin|Hout].
    + rewrite bool_decide_eq_true_2 by exact Hin. unfold id.
      split; [lia|]. split; [lia|].
      intros (_ & Hdisj & _). exfalso. apply (Hdisj a Hin), list_elem_of_here.
    + rewrite bool_decide_eq_false_2 by exact Hout. unfold id.
      split; [lia|]. split.
      * intros Hsz. split; [apply IHeq; lia|]. split; [|apply NoDup_singleton].
        intros x Hx Hx'%list_elem_of_singleton. congruence.
      * intros (Hnd & _ & _). apply IHeq in Hnd. lia.
Qed.

Lemma cells_written (l : list (string * RawValue)) :
  NoDup l.*1 ->
  forall cells : gmap string RawValue,
    let m := foldl (fun m cv => <[cv.1 := cv.2]> m) cells l in
    (forall c v, (c, v) ∈ l -> m !! c = Some v) /\
    (forall c, c ∉ l.*1 -> m !! c = cells !! c).
Proof.
  induction l as [|[c0 v0] l IH]; intros Hnd cells.
  - simpl. split; [intros ? ? []%elem_of_nil | auto].
  - apply NoDup_cons in Hnd as [Hc0 Hnd]. simpl in Hc0. cbn [foldl fst snd].
    destruct (IH Hnd (<[c0 := v0]> cells)) as [Hin Hout]. split.
    + intros c v [[= -> ->]|Hin']%elem_of_cons; [|now apply Hin].
      rewrite (Hout c0 Hc0). apply lookup_insert_eq.
    + intros c Hc. simpl in Hc. apply not_elem_of_cons in Hc as [Hne Hc].
      rewrite (Hout c Hc). now apply lookup_insert_ne.
Qed.

(** With distinct column names and a row of as many values, the scan
    succeeds and the cell of each column holds the value at the position
    of the column; there are no other cells. *)
Theorem scanned_by_position (columns : list string) (r : row) :
  NoDup columns ->
  row_err r = None ->
  length (row_values r) = length columns ->
  exists m,
    scanned columns r = (m, None) /\
    (forall i c v, columns !! i = Some c -> row_values r !! i = Some v ->
                   m !! c = Some v) /\
    (forall c, c ∉ columns -> m !! c = None).
Proof.
  intros Hnd Herr Hlen. unfold scanned, Scan. rewrite Herr.
  assert (Hsize : size (new_cells columns) = length columns)
    by (apply size_new_cells, Hnd).
  rewrite Hsize, firstn_all.
  rewrite decide_True by (symmetry; exact Hlen).
  eexists. split; [reflexivity|].
  assert (Hfst : (zip columns (row_values r)).*1 = columns)
    by (apply fst_zip; lia).
  destruct (cells_written (zip columns (row_values r))
              ltac:(now rewrite Hfst) (new_cells columns)) as [Hin Hout].
  split.
  - intros i c v Hc Hv. apply Hin.
    apply list_elem_of_lookup. exists i. now apply lookup_zip_Some.
  - intros c Hc. rewrite Hout by (now rewrite Hfst).
    rewrite new_cells_lookup. now rewrite bool_decide_eq_false_2.
Qed.

Lemma scanned_by_position_witness :
  NoDup example_columns /\ row_err example_row = None /\
  length (row_values example_row) = length example_columns /\
  exists m,
    scanned example_columns example_row = (m, None) /\
    (forall i c v, example_columns !! i = Some c -> row_values example_row !! i = Some v ->
                   m !! c = Some v) /\
    (forall c, c ∉ example_columns -> m !! c = None).
Proof.
  assert (Hnd : NoDup example_columns).
  { apply (bool_decide_unpack _). vm_compute. exact I. }
  split; [exact Hnd|]. split; [reflexivity|]. split; [reflexivity|].
  exact (scanned_by_position example_columns example_row Hnd eq_refl eq_refl).
Defined.

(** A result set in which a column name occurs twice cannot be scanned:
    there are fewer cells, and so fewer destinations, than the row has
    values; every row is refused with the error of [database/sql] that
    gives the two numbers, and [accRow] returns it without a record. *)
Theorem duplicate_columns_refused (range_order : gmap string RawValue -> list (string * RawValue))
    (p : Postgresql) (measName : string) (columns : list string) (r : row) (st : state) :
  ~ NoDup columns ->
  row_err r = None ->
  length (row_values r) = length columns ->
  (size (new_cells columns) < length columns)%nat /\
  accRow range_order p measName r columns st =
    (st, Some (Errorw "row scan" ""
                 (Errorf ("sql: expected " +:+ Sprintf_d (Z.of_nat (length columns))
                          +:+ " destination arguments in Scan, not "
                          +:+ Sprintf_d (Z.of_nat (size (new_cells columns))))))).
Proof.
  intros Hdup Herr Hlen.
  destruct (size_new_cells columns) as [Hle Heq].
  assert (Hlt : (size (new_cells columns) < length columns)%nat).
  { destruct (decide (size (new_cells columns) = length columns)) as [E|E];
      [apply Heq in E; contradiction | lia]. }
  split; [exact Hlt|].
  apply (accRow_scan_error range_order p measName r columns st (new_cells columns)).
  unfold scanned, Scan. rewrite Herr.
  assert (Htake : length (take (size (new_cells columns)) columns)
                  = size (new_cells columns))
    by (rewrite length_take; lia).
  rewrite decide_False by lia.
  now rewrite Htake, Hlen.
Qed.

Lemma duplicate_columns_refused_witness :
  ~ NoDup ["id"; "id"] /\
  accRow range_listed plain_server "m" (mkRow [VInt64 1; VInt64 2] None) ["id"; "id"] state0
  = (state0, Some (Errorw "row scan" ""
                     (Errorf "sql: expected 2 destination arguments in Scan, not 1"))).
Proof.
  assert (Hdup : ~ NoDup ["id"; "id"]).
  { intros H. apply NoDup_cons in H as [H _]. apply H, list_elem_of_here. }
  split; [exact Hdup|].
  exact (proj2 (duplicate_columns_refused range_listed plain_server "m" ["id"; "id"]
                  (mkRow [VInt64 1; VInt64 2] None) state0 Hdup eq_refl eq_refl)).
Defined.

(** ** What the records of a cycle depend on *)

Section TwoOrders.

Variable order1 order2 : gmap string RawValue -> list (string * RawValue).
Hypothesis order1_perm : forall m, order1 m ≡ₚ map_to_list m.
Hypothesis order2_perm : forall m, order2 m ≡ₚ map_to_list m.

Lemma accRow_orders (p : Postgresql) (measName : string) (r : row)
    (columns : list string) (s1 s2 : state) :
  same_output s1 s2 ->
  (accRow order1 p measName r columns s1).2 = (accRow order2 p measName r columns s2).2 /\
  same_output (accRow order1 p measName r columns s1).1
              (accRow order2 p measName r columns s2).1.
Proof.
  intros [Ht Ha].
  destruct (scanned columns r) as [m [e|]] eqn:Hscan.
  { rewrite (accRow_scan_error order1 p measName r columns s1 m e Hscan),
            (accRow_scan_error order2 p measName r columns s2 m e Hscan).
    now split. }
  destruct (SanitizedAddress p) as [address [e|]] eqn:Haddr.
  { unfold accRow. unfold scanned in Hscan. rewrite Hscan, Haddr. now split. }
  destruct (accRow_ok order1 order1_perm p measName r columns s1 m address Hscan Haddr)
    as (t1 & f1 & l1 & -> & Ht1 & Hf1 & _).
  destruct (accRow_ok order2 order2_perm p measName r columns s2 m address Hscan Haddr)
    as (t2 & f2 & l2 & -> & Ht2 & Hf2 & _).
  assert (t1 = t2) as -> by (apply map_eq; intros c; now rewrite Ht1, Ht2, Ht).
  assert (f1 = f2) as -> by (apply map_eq; intros c; now rewrite Hf1, Hf2, Ht).
  split; [reflexivity|]. split; cbn [fst AdditionalTags Acc]; congruence.
Qed.

Lemma rows_loop_orders (p : Postgresql) (measName : string) (columns : list string)
    (rs : list row) :
  forall s1 s2, same_output s1 s2 ->
  same_output (rows_loop order1 p measName columns rs s1)
              (rows_loop order2 p measName columns rs s2).
Proof.
  induction rs as [|r rs IH]; intros s1 s2 Hs; [exact Hs|].
  cbn [rows_loop].
  destruct (accRow_orders p measName r columns s1 s2 Hs) as [Herr Hout].
  destruct (accRow order1 p measName r columns s1) as [s1' e1].
  destruct (accRow order2 p measName r columns s2) as [s2' e2].
  simpl in Herr, Hout. subst e2.
  destruct e1; [exact Hout | now apply IH].
Qed.

Lemma query_step_orders (p : Postgresql) (v : Z) (q : querydef) (s1 s2 : state) :
  Acc s1 = Acc s2 ->
  Acc (query_step order1 p v s1 q) = Acc (query_step order2 p v s2 q).
Proof.
  intros Ha. unfold query_step.
  destruct (Version q <=? v); [|exact Ha].
  destruct (DB_Query p (resolved_query p q)) as [rows [e|]]; [exact Ha|].
  destruct (Rows_Columns rows) as [columns [e|]]; [exact Ha|].
  apply rows_loop_orders.
  destruct (negb (String.eqb (Tagvalue q) "")).
  - rewrite !(tags_appended _ []). now split.
  - now split.
Qed.

Lemma gather_loop_orders (p : Postgresql) (v : Z) (qs : list querydef) :
  forall s1 s2, Acc s1 = Acc s2 ->
  Acc (gather_loop order1 p v qs s1) = Acc (gather_loop order2 p v qs s2).
Proof.
  induction qs as [|q qs IH]; intros s1 s2 Hs; [exact Hs|].
  apply IH, query_step_orders, Hs.
Qed.

(** The records a cycle adds depend neither on the order in which the
    column map is ranged over, nor on the log, nor on the tag names an
    earlier descriptor or cycle left in [p.AdditionalTags]. *)
Theorem Gather_records_independent (p : Postgresql) (s1 s2 : state) :
  Acc s1 = Acc s2 ->
  Acc (Gather order1 p s1).1 = Acc (Gather order2 p s2).1.
Proof. intros Ha. unfold Gather. cbn [fst]. now apply gather_loop_orders. Qed.

End TwoOrders.

Lemma reverse_order_perm (m : gmap string RawValue) :
  reverse (map_to_list m) ≡ₚ map_to_list m.
Proof. apply reverse_Permutation. Qed.

Lemma Gather_records_independent_witness :
  Acc state0 = Acc (mkState ["stale"] [LogTagFailed "x"] []) /\
  Acc (Gather range_listed flaky_server state0).1 =
  Acc (Gather (fun m => reverse (map_to_list m)) flaky_server
         (mkState ["stale"] [LogTagFailed "x"] [])).1.
Proof.
  split; [reflexivity|].
  exact (Gather_records_independent range_listed (fun m => reverse (map_to_list m))
           range_listed_perm reverse_order_perm flaky_server state0
           (mkState ["stale"] [LogTagFailed "x"] []) eq_refl).
Defined.

(** ** What a cycle adds *)

Section Growth.

Variable range_order : gmap string RawValue -> list (string * RawValue).

Local Abbreviation accRow := (postgresqlextensible.accRow range_order).
Local Abbreviation rows_loop := (postgresqlextensible.rows_loop range_order).
Local Abbreviation query_step := (postgresqlextensible.query_step range_order).
Local Abbreviation gather_loop := (postgresqlextensible.gather_loop range_order).
Local Abbreviation Gather := (postgresqlextensible.Gather range_order).

(** A cycle only appends to the accumulator, and each record it appends
    bears the measurement name of one of the descriptors, ["postgresql"]
    where the descriptor names none; it returns no error. *)
Theorem Gather_appends (p : Postgresql) (st : state) :
  exists new,
    Gather p st = ((Gather p st).1, None) /\
    Acc (Gather p st).1 = Acc st ++ new /\
    Forall (fun m => exists q, q ∈ Query p /\ m_name m = measurement_of q) new.
Proof.
  unfold postgresqlextensible.Gather. cbn [fst].
  set (v := match DB_version p with (v, None) => v | (_, Some _) => 0 end).
  clearbody v.
  assert (H : forall qs st, exists new,
             Acc (gather_loop p v qs st) = Acc st ++ new /\
             Forall (fun m => exists q, q ∈ qs /\ m_name m = measurement_of q) new).
  { clear st. induction qs as [|q qs IH]; intros st.
    - exists []. rewrite app_nil_r. split; [reflexivity | constructor].
    - cbn [postgresqlextensible.gather_loop foldl].
      destruct (query_step_appends range_order p v st q) as (new1 & H1 & Hn1).
      destruct (IH (query_step p v st q)) as (new2 & H2 & Hn2).
      exists (new1 ++ new2).
      change (foldl (postgresqlextensible.query_step range_order p v)
                (query_step p v st q) qs)
        with (gather_loop p v qs (query_step p v st q)).
      rewrite H2, H1, app_assoc. split; [reflexivity|].
      apply Forall_app. split.
      + eapply Forall_impl; [exact Hn1|]. intros m Hm. exists q.
        split; [apply list_elem_of_here | exact Hm].
      + eapply Forall_impl; [exact Hn2|]. intros m (q' & Hq' & Hm). exists q'.
        split; [now apply list_elem_of_further | exact Hm]. }
  destruct (H (Query p) st) as (new & Hacc & Hnames).
  exists new. split; [reflexivity|]. now split.
Qed.

(** A descriptor whose minimum version is above the version of the
    server is passed over without a trace: when all are, the cycle leaves
    the accumulator, the log and the tag names as they were. *)
Theorem Gather_all_gated (p : Postgresql) (st : state) (v : Z) :
  DB_version p = (v, None) ->
  Forall (fun q => v < Version q) (Query p) ->
  Gather p st = (st, None).
Proof.
  intros Hv Hall. unfold postgresqlextensible.Gather. rewrite Hv.
  now rewrite (gather_loop_all_skipped range_order p v (Query p) Hall st).
Qed.

End Growth.

Lemma Gather_all_gated_witness :
  DB_version gated_server = (900, None) /\
  Forall (fun q => 900 < Version q) (Query gated_server) /\
  Gather range_listed gated_server state0 = (state0, None).
Proof.
  assert (H : Forall (fun q => 900 < Version q) (Query gated_server))
    by (repeat constructor).
  split; [reflexivity|]. split; [exact H|].
  exact (Gather_all_gated range_listed gated_server state0 900 eq_refl H).
Defined.

(** ** Fields and identity tags of a record *)

Section Records.

Variable range_order : gmap string RawValue -> list (string * RawValue).
Hypothesis range_order_perm : forall m, range_order m ≡ₚ map_to_list m.

Local Abbreviation accRow := (postgresqlextensible.accRow range_order).

(** The fields of a record are exactly the columns that are not null, not
    ignored and not tag columns, each with the value scanned, a byte
    sequence being stored as a string: no field is nil or a byte
    sequence. *)
Theorem record_fields (p : Postgresql) (measName : string) (r : row)
    (columns : list string) (st : state) (m : gmap string RawValue)
    (address : string) :
  scanned columns r = (m, None) ->
  SanitizedAddress p = (address, None) ->
  exists tags fields log,
    accRow p measName r columns st =
      (mkState (AdditionalTags st) log (Acc st ++ [mkMetric measName fields tags]),
       None) /\
    (forall c v, (fields !! c = Some v) <->
       (exists raw, m !! c = Some raw /\ raw <> VNil /\ ignoredColumns !! c = None /\
                    (c ∉ AdditionalTags st) /\ v = field_value raw)) /\
    (forall c v, fields !! c = Some v -> v <> VNil /\ forall b, v <> VBytes b).
Proof.
  intros Hscan Haddr.
  destruct (accRow_ok range_order range_order_perm p measName r columns st m address
              Hscan Haddr) as (tags & fields & log & Heq & _ & Hfields & _ & _).
  exists tags, fields, log. split; [exact Heq|].
  assert (Hiff : forall c v, (fields !! c = Some v) <->
            (exists raw, m !! c = Some raw /\ raw <> VNil /\ ignoredColumns !! c = None /\
                         (c ∉ AdditionalTags st) /\ v = field_value raw)).
  { intros c v. rewrite Hfields. unfold fields_after, kept. split.
    - destruct (m !! c) as [raw|]; [|discriminate].
      destruct (decide (is_Some (ignoredColumns !! c))) as [Hign|Hign].
      { rewrite bool_decide_eq_true_2 by exact Hign. discriminate. }
      rewrite bool_decide_eq_false_2 by exact Hign.
      destruct (decide (c ∈ AdditionalTags st)) as [Hin|Hin].
      { rewrite (bool_decide_eq_true_2 _ Hin), andb_false_r. discriminate. }
      rewrite (bool_decide_eq_false_2 _ Hin).
      destruct (is_nil raw) eqn:Hnil; [discriminate|]. cbn.
      intros [= <-]. exists raw. repeat split; auto.
      + intros ->. discriminate.
      + destruct (ignoredColumns !! c) eqn:E; [|reflexivity].
        exfalso. apply Hign. eauto.
    - intros (raw & -> & Hnil & Hign & Hin & ->).
      rewrite bool_decide_eq_false_2 by (rewrite Hign; intros [? ?]; discriminate).
      rewrite (bool_decide_eq_false_2 _ Hin).
      destruct raw; try reflexivity. contradiction. }
  split; [exact Hiff|].
  intros c v Hv. apply Hiff in Hv as (raw & _ & Hnil & _ & _ & ->).
  split; [destruct raw; try discriminate; contradiction|].
  intros b. destruct raw; discriminate.
Qed.

(** A record bears the address of the server as tag ["server"] and the
    database as tag ["db"], unless a tag column of that name replaces it;
    the database is the column [datname] when that holds a string, and
    ["postgres"] otherwise, also when it holds a byte sequence. *)
Theorem record_identity_tags (p : Postgresql) (measName : string) (r : row)
    (columns : list string) (st : state) (m : gmap string RawValue)
    (address : string) :
  scanned columns r = (m, None) ->
  SanitizedAddress p = (address, None) ->
  exists tags fields log,
    accRow p measName r columns st =
      (mkState (AdditionalTags st) log (Acc st ++ [mkMetric measName fields tags]),
       None) /\
    ("server" ∉ AdditionalTags st -> tags !! "server" = Some address) /\
    ("db" ∉ AdditionalTags st ->
     tags !! "db" = Some match m !! "datname" with
                         | Some (VString datname) => datname
                         | _ => "postgres"
                         end).
Proof.
  intros Hscan Haddr.
  destruct (accRow_ok range_order range_order_perm p measName r columns st m address
              Hscan Haddr) as (tags & fields & log & Heq & Htags & _ & _ & _).
  exists tags, fields, log. split; [exact Heq|].
  assert (Hdb : dbname_of m = match m !! "datname" with
                              | Some (VString datname) => datname
                              | _ => "postgres"
                              end).
  { unfold dbname_of. destruct (m !! "datname") as [[]|]; reflexivity. }
  assert (Hserver : identity_tags address (dbname_of m) !! "server" = Some address).
  { unfold identity_tags. rewrite lookup_insert_ne by discriminate.
    apply lookup_insert_eq. }
  assert (Hdbtag : identity_tags address (dbname_of m) !! "db" = Some (dbname_of m))
    by apply lookup_insert_eq.
  split; intros Hout; rewrite Htags.
  - destruct (m !! "server") as [v|]; [|exact Hserver].
    unfold tags_after.
    now rewrite (bool_decide_eq_false_2 _ Hout), andb_false_r.
  - rewrite <- Hdb. destruct (m !! "db") as [v|]; [|exact Hdbtag].
    unfold tags_after.
    now rewrite (bool_decide_eq_false_2 _ Hout), andb_false_r.
Qed.

End Records.

Lemma record_fields_witness :
  scanned example_columns example_row
    = ((scanned example_columns example_row).1, None) /\
  SanitizedAddress plain_server = ("srv", None) /\
  exists tags fields log,
    accRow range_listed plain_server "m" example_row example_columns
      (mkState ["host"] [] [])
    = (mkState ["host"] log ([] ++ [mkMetric "m" fields tags]), None) /\
    (forall c v, fields !! c = Some v -> v <> VNil /\ forall b, v <> VBytes b).
Proof.
  split; [reflexivity|]. split; [reflexivity|].
  destruct (record_fields range_listed range_listed_perm plain_server "m"
              example_row example_columns (mkState ["host"] [] [])
              (scanned example_columns example_row).1 "srv" eq_refl eq_refl)
    as (tags & fields & log & Heq & _ & Hv).
  exists tags, fields, log. split; [exact Heq | exact Hv].
Defined.

Lemma record_identity_tags_witness :
  scanned example_columns example_row
    = ((scanned example_columns example_row).1, None) /\
  SanitizedAddress plain_server = ("srv", None) /\
  exists tags fields log,
    accRow range_listed plain_server "m" example_row example_columns
      (mkState ["host"] [] [])
    = (mkState ["host"] log ([] ++ [mkMetric "m" fields tags]), None) /\
    ("server" ∉ ["host"] -> tags !! "server" = Some "srv").
Proof.
  split; [reflexivity|]. split; [reflexivity|].
  destruct (record_identity_tags range_listed range_listed_perm plain_server "m"
              example_row example_columns (mkState ["host"] [] [])
              (scanned example_columns example_row).1 "srv" eq_refl eq_refl)
    as (tags & fields & log & Heq & Hs & _).
  exists tags, fields, log. split; [exact Heq | exact Hs].
Defined.

(** ** [Init]: queries read from scripts *)

Section Scripts.

Variable os_Open : string -> file * option error.

Local Abbreviation ReadQueryFromFile := (postgresqlextensible.ReadQueryFromFile os_Open).
Local Abbreviation Init_loop := (postgresqlextensible.Init_loop os_Open).
Local Abbreviation Init := (postgresqlextensible.Init os_Open).

Lemma Init_loop_result (qs : list querydef) :
  length (Init_loop qs).1 = length qs /\
  (forall i q, qs !! i = Some q -> Sqlquery q <> "" -> (Init_loop qs).1 !! i = Some q) /\
  ((Init_loop qs).2 = None ->
   forall i q, qs !! i = Some q -> Sqlquery q = "" ->
     exists text, ReadQueryFromFile (Script q) = (text, None) /\
                  (Init_loop qs).1 !! i = Some (set_Sqlquery text q)).
Proof.
  induction qs as [|q0 qs (IHlen & IHkeep & IHload)].
  - repeat split; intros; discriminate.
  - cbn [postgresqlextensible.Init_loop].
    destruct (String.eqb (Sqlquery q0) "") eqn:E.
    + apply String.eqb_eq in E.
      destruct (ReadQueryFromFile (Script q0)) as [text [e|]] eqn:Hread.
      * cbn [fst snd length]. split; [reflexivity|]. split; [|discriminate].
        intros [|i] q Hq Hne; cbn in *; [congruence | exact Hq].
      * destruct (Init_loop qs) as [rest' err]. cbn [fst snd length] in *.
        split; [now rewrite IHlen|]. split.
        -- intros [|i] q Hq Hne; cbn in *; [congruence | now apply IHkeep].
        -- intros Herr [|i] q Hq Hempty; cbn in *.
           ++ injection Hq as <-. now exists text.
           ++ now apply IHload.
    + apply String.eqb_neq in E.
      destruct (Init_loop qs) as [rest' err]. cbn [fst snd length] in *.
      split; [now rewrite IHlen|]. split.
      * intros [|i] q Hq Hne; cbn in *; [exact Hq | now apply IHkeep].
      * intros Herr [|i] q Hq Hempty; cbn in *; [congruence | now apply IHload].
Qed.

(** [Init] keeps the number of descriptors and every descriptor that has
    a query text: the script of such a descriptor is not read.  When
    [Init] succeeds, each descriptor without a query text has got the
    contents of its script as text. *)
Theorem Init_sqlquery_wins (p : Postgresql) :
  length (Query (Init p).1) = length (Query p) /\
  (forall i q, Query p !! i = Some q -> Sqlquery q <> "" ->
               Query (Init p).1 !! i = Some q) /\
  ((Init p).2 = None ->
   forall i q, Query p !! i = Some q -> Sqlquery q = "" ->
     exists text, ReadQueryFromFile (Script q) = (text, None) /\
                  Query (Init p).1 !! i = Some (set_Sqlquery text q)).
Proof.
  unfold postgresqlextensible.Init.
  pose proof (Init_loop_result (Query p)) as H.
  destruct (Init_loop (Query p)) as [qs err]. exact H.
Qed.

(** [Init] stops at the first descriptor, in order, that has no query
    text and whose script cannot be read: it returns that error, and the
    descriptors after it are left as they were. *)
Theorem Init_first_error (p : Postgresql) (pre : list querydef) (q : querydef)
    (post : list querydef) (text : string) (e : error) :
  Query p = pre ++ q :: post ->
  Forall (fun q' => Sqlquery q' <> "" \/ (ReadQueryFromFile (Script q')).2 = None) pre ->
  Sqlquery q = "" ->
  ReadQueryFromFile (Script q) = (text, Some e) ->
  (Init p).2 = Some e /\
  drop (S (length pre)) (Query (Init p).1) = post.
Proof.
  intros Hq Hpre Hempty Hread. unfold postgresqlextensible.Init. rewrite Hq.
  clear Hq.
  assert (H : (Init_loop (pre ++ q :: post)).2 = Some e /\
              drop (S (length pre)) (Init_loop (pre ++ q :: post)).1 = post).
  { induction Hpre as [|q' pre Hq' _ IH].
    - cbn [app postgresqlextensible.Init_loop]. rewrite Hempty. cbn [String.eqb].
      rewrite Hread. split; reflexivity.
    - cbn [app postgresqlextensible.Init_loop].
      destruct (String.eqb (Sqlquery q') "") eqn:E.
      + apply String.eqb_eq in E. destruct Hq' as [Hne|Hok]; [contradiction|].
        destruct (ReadQueryFromFile (Script q')) as [t' [e'|]]; [discriminate|].
        destruct (Init_loop (pre ++ q :: post)) as [rest' err].
        cbn [fst snd length drop] in *. exact IH.
      + destruct (Init_loop (pre ++ q :: post)) as [rest' err].
        cbn [fst snd length drop] in *. exact IH. }
  destruct (Init_loop (pre ++ q :: post)) as [qs err]. exact H.
Qed.

End Scripts.

Lemma Init_first_error_witness :
  Forall (fun q' => Sqlquery q' <> ""
                    \/ (postgresqlextensible.ReadQueryFromFile script_files (Script q')).2
                       = None)
         [mkQuery "" "q.sql" 0 false "" ""] /\
  (postgresqlextensible.Init script_files
     (mkPostgresql []
        ([mkQuery "" "q.sql" 0 false "" ""] ++ mkQuery "" "missing.sql" 0 false "" ""
           :: [mkQuery "" "q.sql" 0 false "" ""])
        (0, None) (fun _ => (example_rows, None)) ("srv", None))).2
  = Some (Errorw "open" "missing.sql" (ErrForeign "no such file")).
Proof.
  assert (H : Forall (fun q' => Sqlquery q' <> ""
                \/ (postgresqlextensible.ReadQueryFromFile script_files (Script q')).2
                   = None) [mkQuery "" "q.sql" 0 false "" ""]).
  { constructor; [right; reflexivity | constructor]. }
  split; [exact H|].
  exact (proj1 (Init_first_error script_files
                  (mkPostgresql []
                     ([mkQuery "" "q.sql" 0 false "" ""]
                        ++ mkQuery "" "missing.sql" 0 false "" ""
                        :: [mkQuery "" "q.sql" 0 false "" ""])
                     (0, None) (fun _ => (example_rows, None)) ("srv", None))
                  [mkQuery "" "q.sql" 0 false "" ""]
                  (mkQuery "" "missing.sql" 0 false "" "")
                  [mkQuery "" "q.sql" 0 false "" ""]
                  "" (Errorw "open" "missing.sql" (ErrForeign "no such file"))
                  eq_refl H eq_refl eq_refl)).
Defined.

Lemma Init_sqlquery_wins_witness :
  Sqlquery (mkQuery "SELECT 1" "missing.sql" 0 false "" "") <> "" /\
  Query (postgresqlextensible.Init script_files
           (mkPostgresql [] [mkQuery "SELECT 1" "missing.sql" 0 false "" ""]
              (0, None) (fun _ => (example_rows, None)) ("srv", None))).1 !! 0%nat
  = Some (mkQuery "SELECT 1" "missing.sql" 0 false "" "").
Proof.
  assert (H : Sqlquery (mkQuery "SELECT 1" "missing.sql" 0 false "" "") <> "")
    by discriminate.
  split; [exact H|].
  exact (proj1 (proj2 (Init_sqlquery_wins script_files
                         (mkPostgresql [] [mkQuery "SELECT 1" "missing.sql" 0 false "" ""]
                            (0, None) (fun _ => (example_rows, None)) ("srv", None))))
           0%nat _ eq_refl H).
Defined.

(** ** RethinkDB: the version of the server *)

Lemma digit_is_ascii (c : ascii) (d : Z) :
  strconv.digit c = Some d -> (N_of_ascii c < 128)%N /\ Ascii.eqb c "010" = false.
Proof.
  unfold strconv.digit. intros H.
  destruct ((48 <=? Z.of_N (N_of_ascii c)) && (Z.of_N (N_of_ascii c) <=? 57)) eqn:E;
    [|discriminate].
  apply andb_true_iff in E as [E1 E2]. apply Z.leb_le in E1. apply Z.leb_le in E2.
  split; [lia|].
  destruct (Ascii.eqb c "010") eqn:Enl; [|reflexivity].
  apply Ascii.eqb_eq in Enl. subst c. simpl in E1. lia.
Qed.

Section Version.

Variable utf8_width : string -> nat.

(** An ASCII character is one byte. *)
Hypothesis ascii_width :
  forall c rest, (N_of_ascii c < 128)%N -> utf8_width (String c rest) = 1%nat.

Local Abbreviation validateVersion := (rethinkdb.validateVersion utf8_width).
Local Abbreviation match_here := (rethinkdb.match_here utf8_width).
Local Abbreviation FindString := (rethinkdb.FindString utf8_width).

Lemma match_here_version (d1 c1 d2 c2 d3 : ascii) (v1 v2 v3 : Z) (rest : string) :
  strconv.digit d1 = Some v1 -> strconv.digit d2 = Some v2 ->
  strconv.digit d3 = Some v3 ->
  (N_of_ascii c1 < 128)%N -> Ascii.eqb c1 "010" = false ->
  (N_of_ascii c2 < 128)%N -> Ascii.eqb c2 "010" = false ->
  match_here (String d1 (String c1 (String d2 (String c2 (String d3 rest))))) =
  Some (String d1 (String c1 (String d2 (String c2 (String d3 ""))))).
Proof.
  intros H1 H2 H3 Ha1 Hn1 Ha2 Hn2.
  unfold rethinkdb.match_here, rethinkdb.after_digit, rethinkdb.after_any,
    rethinkdb.is_digit.
  rewrite H1, Hn1, (ascii_width c1 _ Ha1). cbn [rethinkdb.drop_bytes].
  rewrite H2, Hn2, (ascii_width c2 _ Ha2). cbn [rethinkdb.drop_bytes].
  rewrite H3. cbn [String.length].
  replace (S (S (S (S (S (String.length rest))))) - String.length rest)%nat
    with 5%nat by lia.
  destruct rest; reflexivity.
Qed.

Lemma validateVersion_of_match (version : string) (d1 c1 d2 c2 d3 : ascii) (v1 : Z) :
  version <> "" ->
  FindString version = String d1 (String c1 (String d2 (String c2 (String d3 "")))) ->
  strconv.digit d1 = Some v1 ->
  validateVersion version =
    if 2 <=? v1 then None
    else Some (Errorf ("unsupported major version "
                       +:+ String d1 (String c1 (String d2 (String c2 (String d3 "")))))).
Proof.
  intros Hne Hfind Hd1. unfold rethinkdb.validateVersion.
  destruct (String.eqb version "") eqn:E; [apply String.eqb_eq in E; contradiction|].
  rewrite Hfind. cbn [String.eqb].
  unfold rethinkdb.first_character.
  rewrite (ascii_width d1 _ (proj1 (digit_is_ascii d1 v1 Hd1))).
  change (substring 0 1 (String d1 (String c1 (String d2 (String c2 (String d3 ""))))))
    with (String d1 "").
  unfold rethinkdb.Atoi.
  pose proof (digit_nonneg d1 v1 Hd1) as Hv.
  assert (Hval : digits_value (String d1 "") = v1)
    by (unfold digits_value; cbn [digits_from]; rewrite Hd1; lia).
  rewrite (ParseInt_digits (String d1 ""));
    [| apply all_digits_cons; split; [now exists v1 | reflexivity]
     | discriminate | rewrite Hval; lia].
  rewrite Hval. cbn [orb].
  destruct (Z.ltb_spec v1 2), (Z.leb_spec 2 v1); try lia; reflexivity.
Qed.

(** A version that begins with a digit, a character, a digit, a
    character and a digit (as ["2.3.5"] does) is accepted exactly when
    its first digit is at least 2. *)
Theorem validateVersion_major (d1 c1 d2 c2 d3 : ascii) (v1 v2 v3 : Z) (rest : string) :
  strconv.digit d1 = Some v1 -> strconv.digit d2 = Some v2 ->
  strconv.digit d3 = Some v3 ->
  (N_of_ascii c1 < 128)%N -> Ascii.eqb c1 "010" = false ->
  (N_of_ascii c2 < 128)%N -> Ascii.eqb c2 "010" = false ->
  validateVersion (String d1 (String c1 (String d2 (String c2 (String d3 rest))))) =
    if 2 <=? v1 then None
    else Some (Errorf ("unsupported major version "
                       +:+ String d1 (String c1 (String d2 (String c2 (String d3 "")))))).
Proof.
  intros H1 H2 H3 Ha1 Hn1 Ha2 Hn2.
  apply (validateVersion_of_match _ d1 c1 d2 c2 d3 v1); [discriminate | | exact H1].
  cbn [rethinkdb.FindString].
  now rewrite (match_here_version d1 c1 d2 c2 d3 v1 v2 v3 rest).
Qed.

(** A major version of two digits is judged by its second digit: in
    ["10.2.3"] the leftmost match of the expression is ["0.2.3"], so
    that a version [ab.c.d] is accepted exactly when [b] is at least 2. *)
Theorem validateVersion_two_digit_major (a d1 d2 d3 : ascii) (va v1 v2 v3 : Z)
    (rest : string) :
  strconv.digit a = Some va ->
  strconv.digit d1 = Some v1 -> strconv.digit d2 = Some v2 ->
  strconv.digit d3 = Some v3 ->
  validateVersion
    (String a (String d1 (String "." (String d2 (String "." (String d3 rest)))))) =
    if 2 <=? v1 then None
    else Some (Errorf ("unsupported major version "
                       +:+ String d1 (String "." (String d2 (String "." (String d3 "")))))).
Proof.
  intros Ha H1 H2 H3.
  apply (validateVersion_of_match _ d1 "." d2 "." d3 v1); [discriminate | | exact H1].
  cbn [rethinkdb.FindString].
  assert (Hfirst : match_here
            (String a (String d1 (String "." (String d2 (String "." (String d3 rest))))))
            = None).
  { unfold rethinkdb.match_here, rethinkdb.after_digit, rethinkdb.after_any,
      rethinkdb.is_digit.
    rewrite Ha.
    destruct (digit_is_ascii d1 v1 H1) as [Hasc Hnl].
    rewrite Hnl, (ascii_width d1 _ Hasc). cbn [rethinkdb.drop_bytes].
    reflexivity. }
  rewrite Hfirst.
  now rewrite (match_here_version d1 "." d2 "." d3 v1 v2 v3 rest H1 H2 H3).
Qed.

End Version.

Lemma width_one_ascii (c : ascii) (rest : string) :
  (N_of_ascii c < 128)%N -> width_one (String c rest) = 1%nat.
Proof. reflexivity. Qed.

Lemma validateVersion_major_witness :
  strconv.digit "2" = Some 2 /\ strconv.digit "3" = Some 3 /\ strconv.digit "5" = Some 5 /\
  rethinkdb.validateVersion width_one "2.3.5~0trusty" = None.
Proof.
  do 3 (split; [reflexivity|]).
  exact (validateVersion_major width_one width_one_ascii "2" "." "3" "." "5" 2 3 5
           "~0trusty" eq_refl eq_refl eq_refl eq_refl eq_refl eq_refl eq_refl).
Defined.

Lemma validateVersion_two_digit_major_witness :
  strconv.digit "1" = Some 1 /\ strconv.digit "0" = Some 0 /\
  rethinkdb.validateVersion width_one "10.2.3"
  = Some (Errorf "unsupported major version 0.2.3").
Proof.
  do 2 (split; [reflexivity|]).
  exact (validateVersion_two_digit_major width_one width_one_ascii "1" "0" "2" "3"
           1 0 2 3 "" eq_refl eq_refl eq_refl eq_refl).
Defined.

(** ** RethinkDB: the status of the server *)

Lemma match_address_spec (addresses : list string) (host : string) (p dp : Z) :
  rethinkdb.match_address addresses host p dp = true <-> (host ∈ addresses /\ p = dp).
Proof.
  induction addresses as [|a addresses IH]; cbn [rethinkdb.match_address].
  - split; [discriminate | intros [[]%elem_of_nil _]].
  - destruct (String.eqb a host && (p =? dp)) eqn:E.
    + apply andb_true_iff in E as [E1 E2].
      apply String.eqb_eq in E1. apply Z.eqb_eq in E2. subst.
      split; [intros _; split; [apply list_elem_of_here | reflexivity] | reflexivity].
    + rewrite IH. split.
      * intros [Hin ->]. split; [now apply list_elem_of_further | reflexivity].
      * intros [[->|Hin]%elem_of_cons ->]; [|now split].
        rewrite String.eqb_refl, Z.eqb_refl in E. discriminate.
Qed.

Lemma select_status_first (statuses : list rethinkdb.serverStatus) (host : string)
    (driverPort : Z) :
  match rethinkdb.select_status statuses host driverPort with
  | Some ss =>
      exists before after,
        statuses = before ++ ss :: after /\ answers host driverPort ss /\
        Forall (fun s => ~ answers host driverPort s) before
  | None => Forall (fun s => ~ answers host driverPort s) statuses
  end.
Proof.
  induction statuses as [|s statuses IH]; cbn [rethinkdb.select_status];
    [constructor|].
  destruct (rethinkdb.match_address _ host _ driverPort) eqn:E.
  - apply match_address_spec in E. exists [], statuses.
    split; [reflexivity|]. split; [exact E | constructor].
  - assert (Hs : ~ answers host driverPort s).
    { intros H. apply match_address_spec in H. congruence. }
    destruct (rethinkdb.select_status statuses host driverPort) as [ss|].
    + destruct IH as (before & after & -> & Hans & Hbefore).
      exists (s :: before), after. split; [reflexivity|]. split; [exact Hans|].
      now constructor.
    + now constructor.
Qed.

Section Status.

Variable SplitHostPort : string -> string * string * option error.

Local Abbreviation getServerStatus := (rethinkdb.getServerStatus SplitHostPort).

(** When the query, the decoding of its rows and the splitting of the
    configured address succeed, [getServerStatus] adopts the first status
    in the order of the rows one of whose addresses has the configured
    host and whose driver port is the configured port (0 for a port that
    is no number); without such a status it keeps the status it had and
    reports that the host id cannot be determined. *)
Theorem getServerStatus_first_match (reply : rethinkdb.status_reply)
    (urlHost host port : string) (statuses : list rethinkdb.serverStatus)
    (current : rethinkdb.serverStatus) :
  rethinkdb.Run_err reply = None ->
  rethinkdb.cursor_IsNil reply = false ->
  rethinkdb.cursor_All reply = (statuses, None) ->
  SplitHostPort urlHost = (host, port, None) ->
  let driverPort := fst (strconv.ParseInt port) in
  (exists ss before after,
      getServerStatus reply urlHost current = (ss, None) /\
      statuses = before ++ ss :: after /\ answers host driverPort ss /\
      Forall (fun s => ~ answers host driverPort s) before)
  \/ (getServerStatus reply urlHost current
        = (current,
           Some (Errorf ("unable to determine host id from server_status with " +:+ urlHost)))
      /\ Forall (fun s => ~ answers host driverPort s) statuses).
Proof.
  intros Hrun Hnil Hall Hsplit driverPort.
  unfold rethinkdb.getServerStatus. rewrite Hrun, Hnil, Hall, Hsplit.
  subst driverPort. destruct (strconv.ParseInt port) as [dp perr]. cbn [fst].
  pose proof (select_status_first statuses host dp) as Hsel.
  destruct (rethinkdb.select_status statuses host dp) as [ss|].
  - left. destruct Hsel as (before & after & Heq & Hans & Hbefore).
    exists ss, before, after. repeat split; try assumption; apply Hans.
  - right. split; [reflexivity | exact Hsel].
Qed.

End Status.

Lemma getServerStatus_first_match_witness :
  rethinkdb.Run_err cluster_reply = None /\
  rethinkdb.cursor_IsNil cluster_reply = false /\
  rethinkdb.cursor_All cluster_reply = ([status_other; status_db1], None) /\
  split_db1 "db1:28015" = ("db1", "28015", None) /\
  ((exists ss before after,
      rethinkdb.getServerStatus split_db1 cluster_reply "db1:28015" status_none = (ss, None) /\
      [status_other; status_db1] = before ++ ss :: after /\
      answers "db1" (fst (strconv.ParseInt "28015")) ss /\
      Forall (fun s => ~ answers "db1" (fst (strconv.ParseInt "28015")) s) before)
   \/ (rethinkdb.getServerStatus split_db1 cluster_reply "db1:28015" status_none
        = (status_none,
           Some (Errorf ("unable to determine host id from server_status with "
                         +:+ "db1:28015")))
       /\ Forall (fun s => ~ answers "db1" (fst (strconv.ParseInt "28015")) s)
            [status_other; status_db1])).
Proof.
  do 4 (split; [reflexivity|]).
  exact (getServerStatus_first_match split_db1 cluster_reply "db1:28015" "db1" "28015"
           [status_other; status_db1] status_none eq_refl eq_refl eq_refl eq_refl).
Defined.

(** ** Minecraft: one record for each player *)

Section Scoreboard.

Variable V : Type.

Local Abbreviation Score := (minecraft.Score V).
Local Abbreviation Client := (minecraft.Client V).
Local Abbreviation score_fields := (minecraft.score_fields V).
Local Abbreviation players_loop := (minecraft.players_loop V).
Local Abbreviation Gather := (minecraft.Gather V).

Lemma players_loop_all (s : minecraft.Minecraft) (client : Client)
    (players : list string) (acc : list (minecraft.metric V)) :
  Forall (fun p => snd (minecraft.Scores V client p) = None) players ->
  players_loop s client players acc
  = (acc ++ map (player_record s client) players, None).
Proof.
  intros Hall. revert acc.
  induction Hall as [|p players Hp Hall IH]; intros acc; cbn [minecraft.players_loop map].
  - now rewrite app_nil_r.
  - unfold player_record at 1.
    destruct (minecraft.Scores V client p) as [scores err]. cbn [snd fst] in *. subst err.
    rewrite IH, <- app_assoc. reflexivity.
Qed.

Lemma players_loop_app (s : minecraft.Minecraft) (client : Client)
    (before rest : list string) (acc : list (minecraft.metric V)) :
  Forall (fun p => snd (minecraft.Scores V client p) = None) before ->
  players_loop s client (before ++ rest) acc
  = players_loop s client rest (acc ++ map (player_record s client) before).
Proof.
  intros Hall. revert acc.
  induction Hall as [|p players Hp Hall IH]; intros acc; cbn [minecraft.players_loop map app].
  - now rewrite app_nil_r.
  - unfold player_record at 1.
    destruct (minecraft.Scores V client p) as [scores err]. cbn [snd fst] in *. subst err.
    rewrite IH, <- app_assoc. reflexivity.
Qed.

(** When the players and the scores of each of them can be read,
    [Gather] adds exactly one record for each player, in the order of the
    players and after the records the accumulator held, and returns no
    error. *)
Theorem Gather_record_per_player (s : minecraft.Minecraft) (client : Client)
    (players : list string) (acc : list (minecraft.metric V)) :
  minecraft.Players V client = (players, None) ->
  Forall (fun p => snd (minecraft.Scores V client p) = None) players ->
  Gather s client acc = (acc ++ map (player_record s client) players, None).
Proof.
  intros Hplayers Hall. unfold minecraft.Gather. rewrite Hplayers.
  now apply players_loop_all.
Qed.

(** [Gather] stops at the first player whose scores cannot be read: the
    records of the players before it are added, none is added for it or
    for the players after it, and the error wraps the client's. *)
Theorem Gather_stops_at_failed_player (s : minecraft.Minecraft) (client : Client)
    (before after : list string) (player : string) (e : error)
    (acc : list (minecraft.metric V)) :
  minecraft.Players V client = (before ++ player :: after, None) ->
  Forall (fun p => snd (minecraft.Scores V client p) = None) before ->
  snd (minecraft.Scores V client player) = Some e ->
  Gather s client acc
  = (acc ++ map (player_record s client) before, Some (Errorw "scores" "" e)).
Proof.
  intros Hplayers Hall Hfail. unfold minecraft.Gather. rewrite Hplayers.
  rewrite players_loop_app by exact Hall. cbn [minecraft.players_loop].
  destruct (minecraft.Scores V client player) as [scores err]. cbn [snd] in Hfail.
  subst err. reflexivity.
Qed.

Lemma score_fields_snoc (scores : list Score) (score : Score) :
  score_fields (scores ++ [score])
  = <[ minecraft.Name V score := minecraft.Value V score ]> (score_fields scores).
Proof. unfold minecraft.score_fields. now rewrite foldl_app. Qed.

(** The fields of a record hold, for each name among the scores of the
    player, the value of the last score with that name, and nothing for
    any other name. *)
Theorem score_fields_last_wins (scores : list Score) (name : string) :
  score_fields scores !! name
  = minecraft.Value V <$>
      last (filter (fun score => minecraft.Name V score = name) scores).
Proof.
  induction scores as [|score scores IH] using rev_ind.
  - reflexivity.
  - rewrite score_fields_snoc, filter_app, filter_cons, filter_nil.
    destruct (decide (minecraft.Name V score = name)) as [Heq|Hne].
    + rewrite last_snoc. subst name. now rewrite lookup_insert_eq.
    + rewrite app_nil_r, lookup_insert_ne by exact Hne. exact IH.
Qed.

End Scoreboard.

Lemma Gather_record_per_player_witness :
  minecraft.Players Z scoreboard = (["ann"; "bob"], None) /\
  Forall (fun p => snd (minecraft.Scores Z scoreboard p) = None) ["ann"; "bob"] /\
  minecraft.Gather Z local_server scoreboard []
  = ([] ++ map (player_record local_server scoreboard) ["ann"; "bob"], None).
Proof.
  assert (Hall : Forall (fun p => snd (minecraft.Scores Z scoreboard p) = None)
                   ["ann"; "bob"])
    by (constructor; [reflexivity | constructor; [reflexivity | constructor]]).
  split; [reflexivity|]. split; [exact Hall|].
  exact (Gather_record_per_player Z local_server scoreboard ["ann"; "bob"] []
           eq_refl Hall).
Defined.

Lemma Gather_stops_at_failed_player_witness :
  minecraft.Players Z scoreboard_carl = (["ann"] ++ "carl" :: ["bob"], None) /\
  Forall (fun p => snd (minecraft.Scores Z scoreboard_carl p) = None) ["ann"] /\
  snd (minecraft.Scores Z scoreboard_carl "carl") = Some (ErrForeign "timeout") /\
  minecraft.Gather Z local_server scoreboard_carl []
  = ([] ++ map (player_record local_server scoreboard_carl) ["ann"],
     Some (Errorw "scores" "" (ErrForeign "timeout"))).
Proof.
  assert (Hall : Forall (fun p => snd (minecraft.Scores Z scoreboard_carl p) = None)
                   ["ann"])
    by (constructor; [reflexivity | constructor]).
  split; [reflexivity|]. split; [exact Hall|]. split; [reflexivity|].
  exact (Gather_stops_at_failed_player Z local_server scoreboard_carl ["ann"] ["bob"]
           "carl" (ErrForeign "timeout") [] eq_refl Hall eq_refl).
Defined.
